(** * iptsd: the core orchestrator, the uinput device manager and the
      calibration runner, embedded from the C++ sources.

    - [src/core/generic/application.hpp]  -> Module [Core]
    - [src/daemon/devices.cpp]            -> Module [Daemon]
    - [src/debug/calibrate.cpp]           -> Module [Calibrate]

    C++ [f64] values are Rocq's primitive binary64 floats, so every
    arithmetic step below rounds exactly as the compiled program does. *)

From Stdlib Require Import ZArith Lia Bool List String.
From Stdlib Require Import Floats.
From Stdlib Require Uint63.
From stdpp Require Import base option list.

Local Open Scope Z_scope.

(* ===================================================================== *)
(** * Machine numbers *)
(* ===================================================================== *)

Module F64.

(** [static_cast<f64>(n)] for an integer whose magnitude fits 63 bits. *)
Definition of_Z (n : Z) : float :=
  match n with
  | Z0 => PrimFloat.zero
  | Zpos _ => PrimFloat.of_uint63 (Uint63.of_Z n)
  | Zneg _ => PrimFloat.opp (PrimFloat.of_uint63 (Uint63.of_Z (- n)))
  end.

Definition one : float := PrimFloat.one.

(** IEEE comparisons, as [<=] and [==] on doubles. *)
Definition in_unit (x : float) : bool :=
  PrimFloat.leb PrimFloat.zero x && PrimFloat.leb x one.

(** [std::round]: to the nearest integer, halfway cases away from zero;
    the result is again a double. Infinities, NaN and zeros are returned
    as they are, and so is a value with no fractional bits. *)
Definition round (x : float) : float :=
  match Prim2SF x with
  | S754_finite s m e =>
      if 0 <=? e then x
      else
        let k := (Zpos m + 2 ^ (- e - 1)) / 2 ^ (- e) in
        if s then PrimFloat.opp (of_Z k) else of_Z k
  | _ => x
  end.

(** Truncation toward zero of a finite double. *)
Definition trunc (x : float) : option Z :=
  match Prim2SF x with
  | S754_zero _ => Some 0
  | S754_finite s m e =>
      let mag := if 0 <=? e then Zpos m * 2 ^ e else Zpos m / 2 ^ (- e) in
      Some (if s then - mag else mag)
  | _ => None
  end.

Definition in_i32 (z : Z) : bool := (- 2 ^ 31 <=? z) && (z <=? 2 ^ 31 - 1).

(** [(i32) x]: the truncated value when it fits. Outside that range, and
    for NaN, C++ leaves the result undefined: [None]. *)
Definition to_i32 (x : float) : option Z :=
  match trunc x with
  | Some z => if in_i32 z then Some z else None
  | None => None
  end.

(** Narrowing a double to [f32] (round to nearest even, binary32); the
    result is returned as the double of the same value. *)
Definition to_f32 (x : float) : float :=
  match Prim2SF x with
  | S754_finite s m e => SF2Prim (binary_round 24 128 s m e)
  | _ => x
  end.

End F64.

(** [i32] arithmetic; signed overflow is undefined in C++: [None]. *)
Definition i32_checked (z : Z) : option Z :=
  if F64.in_i32 z then Some z else None.

(** Error values: the C++ code throws [std::runtime_error] with a message;
    functions that may throw return [exn + A]. *)
Inductive exn : Type :=
  | runtime_error (what : string).

(* ===================================================================== *)
(** * core/generic/application.hpp *)
(* ===================================================================== *)

Module Core.

(** ** Data carried by the frames

    Modelled from the spec: the declarations of ipts/data.hpp and
    contacts/contact.hpp are not among the sources. The records below
    follow section 3 of the specification and hold the fields that the
    orchestrator reads or writes. Heatmap cells and the z-range are
    unsigned bytes, kept as [Z] in [0, 256); the raw stylus coordinates
    are integers. *)

Definition is_u8 (z : Z) : Prop := 0 <= z < 256.

Record HeatmapDim := {
  dim_height : Z;
  dim_width : Z;
  dim_z_min : Z;
  dim_z_max : Z
}.

Record Heatmap := {
  hm_dim : HeatmapDim;
  hm_data : list Z
}.

(** [Image<T>]: a dense matrix with its dimensions. *)
Record Image (T : Type) := {
  img_rows : Z;
  img_cols : Z;
  img_cells : list T
}.
Arguments img_rows {T} _.
Arguments img_cols {T} _.
Arguments img_cells {T} _.

Record StylusData := {
  st_x : Z;
  st_y : Z;
  st_pressure : Z;
  st_tilt_x : Z;
  st_tilt_y : Z;
  st_buttons : Z;
  st_serial : Z
}.

(** [contacts::Contact<f64>]: [valid] is a [std::optional<bool>]. *)
Record Contact := {
  ct_mean_x : float;
  ct_mean_y : float;
  ct_size_x : float;
  ct_size_y : float;
  ct_stable : bool;
  ct_valid : option bool
}.

Definition set_valid (c : Contact) (v : option bool) : Contact :=
  {| ct_mean_x := ct_mean_x c; ct_mean_y := ct_mean_y c;
     ct_size_x := ct_size_x c; ct_size_y := ct_size_y c;
     ct_stable := ct_stable c; ct_valid := v |}.

(** [contact.valid.value_or(true)] *)
Definition valid_or_true (c : Contact) : bool := default true (ct_valid c).

(** A contact that the finder has already flagged as a palm. *)
Definition known_false (c : Contact) : bool :=
  match ct_valid c with
  | Some false => true
  | _ => false
  end.

(** ** Collaborators declared in headers outside these sources

    The cone (cone.hpp), the contact finder (contacts/finder.hpp) and the
    DFT stylus (dft.hpp) are used through their member functions only;
    they are interfaces here, and every statement about the orchestrator
    holds for all their implementations. [cone_active] reads the clock in
    the program: an instance keeps whatever it needs for that inside the
    cone value. [cone_check] is a [const] member. *)

Class ConeOps (Cone : Type) := {
  cone_new : float -> float -> Cone;
  cone_alive : Cone -> bool;
  cone_active : Cone -> bool;
  cone_update_position : Cone -> float -> float -> Cone;
  cone_update_direction : Cone -> float -> float -> Cone;
  cone_check : Cone -> float -> float -> bool
}.

Class FinderOps (ContactsConfig Finder : Type) := {
  finder_new : ContactsConfig -> Finder;
  (** [find(heatmap, contacts)]: the contact vector is an in/out
      argument. *)
  finder_find : Finder -> Image float -> list Contact -> Finder * list Contact
}.

(** Modelled from the spec: config.hpp is not among the sources. The
    screen size is a pair of doubles, as the arithmetic of
    [process_stylus] and [update_touch_cone] uses it. *)
Record Config (ContactsConfig : Type) := {
  width : float;
  height : float;
  cone_angle : float;
  cone_distance : float;
  touch_check_cone : bool;
  contacts : ContactsConfig
}.
Arguments width {_} _.
Arguments height {_} _.
Arguments cone_angle {_} _.
Arguments cone_distance {_} _.
Arguments touch_check_cone {_} _.
Arguments contacts {_} _.

Class DftOps (ContactsConfig Metadata DftWindow Dft : Type) := {
  dft_new : Config ContactsConfig -> option Metadata -> Dft;
  dft_input : Dft -> DftWindow -> Dft;
  dft_get_stylus : Dft -> StylusData
}.

(** What the orchestrator does to the outside, in order: calls that
    change the cone, and the two virtual hooks. *)
Inductive Event : Type :=
  | ConeUpdatePosition (x y : float)
  | ConeUpdateDirection (x y : float)
  | OnContacts (cs : list Contact)
  | OnStylus (d : StylusData).

(** ** Heatmap normalisation (process_heatmap, first half) *)

(** One cell of [1.0 - (mapped.cast<f64>() - z_min) / (z_max - z_min)]. *)
Definition normalize_cell (z_min z_max : float) (u : Z) : float :=
  (F64.one - (F64.of_Z u - z_min) / (z_max - z_min))%float.

(** The mapped buffer holds [rows * cols] bytes of [data]. *)
Definition normalize (h : Heatmap) : Image float :=
  let rows := dim_height (hm_dim h) in
  let cols := dim_width (hm_dim h) in
  let z_min := F64.of_Z (dim_z_min (hm_dim h)) in
  let z_max := F64.of_Z (dim_z_max (hm_dim h)) in
  {| img_rows := rows;
     img_cols := cols;
     img_cells := List.map (normalize_cell z_min z_max)
                    (firstn (Z.to_nat (rows * cols)) (hm_data h)) |}.

(** ** The application *)

Section Application.

Context {ContactsConfig Metadata DeviceInfo DftWindow : Type}.
Context {Cone Finder Dft : Type}.
Context `{!ConeOps Cone}.
Context `{!FinderOps ContactsConfig Finder}.
Context `{!DftOps ContactsConfig Metadata DftWindow Dft}.

(** Device coordinate range (ipts/protocol.h), integer macros. *)
Variable IPTS_MAX_X IPTS_MAX_Y : Z.

(** The members of [class Application]; the parser keeps no state
    between buffers and is not a field here. *)
Record Application := {
  m_config : Config ContactsConfig;
  m_info : DeviceInfo;
  m_metadata : option Metadata;
  m_heatmap : Image float;
  m_finder : Finder;
  m_contacts : list Contact;
  m_dft : Dft;
  m_cone : Cone
}.

Definition with_cone (app : Application) (c : Cone) : Application :=
  {| m_config := m_config app; m_info := m_info app;
     m_metadata := m_metadata app; m_heatmap := m_heatmap app;
     m_finder := m_finder app; m_contacts := m_contacts app;
     m_dft := m_dft app; m_cone := c |}.

Definition with_contacts (app : Application) (cs : list Contact) : Application :=
  {| m_config := m_config app; m_info := m_info app;
     m_metadata := m_metadata app; m_heatmap := m_heatmap app;
     m_finder := m_finder app; m_contacts := cs;
     m_dft := m_dft app; m_cone := m_cone app |}.

Definition with_dft (app : Application) (d : Dft) : Application :=
  {| m_config := m_config app; m_info := m_info app;
     m_metadata := m_metadata app; m_heatmap := m_heatmap app;
     m_finder := m_finder app; m_contacts := m_contacts app;
     m_dft := d; m_cone := m_cone app |}.

Definition with_found (app : Application) (img : Image float)
    (f : Finder) (cs : list Contact) : Application :=
  {| m_config := m_config app; m_info := m_info app;
     m_metadata := m_metadata app; m_heatmap := img;
     m_finder := f; m_contacts := cs;
     m_dft := m_dft app; m_cone := m_cone app |}.

(** The constructor: the member initialisers run first, then the size
    check of the body. The log lines about the metadata are not
    modelled. *)
Definition Application_new (config : Config ContactsConfig)
    (info : DeviceInfo) (metadata : option Metadata) : exn + Application :=
  let finder := finder_new (contacts config) in
  let dft := dft_new config metadata in
  let cone := cone_new (cone_angle config) (cone_distance config) in
  if PrimFloat.eqb (width config) PrimFloat.zero
     || PrimFloat.eqb (height config) PrimFloat.zero
  then inl (runtime_error "Invalid config: The screen size is 0!")
  else inr {| m_config := config; m_info := info; m_metadata := metadata;
              m_heatmap := {| img_rows := 0; img_cols := 0; img_cells := [] |};
              m_finder := finder; m_contacts := [];
              m_dft := dft; m_cone := cone |}.

(** Physical position of a contact: [mean * width], [mean * height]. *)
Definition contact_phys (cfg : Config ContactsConfig) (c : Contact) : float * float :=
  ((ct_mean_x c * width cfg)%float, (ct_mean_y c * height cfg)%float).

(** First loop of [update_touch_cone]: contacts for which
    [valid.value_or(true)] holds are skipped, the others rotate the
    cone. *)
Fixpoint feed_palms (cfg : Config ContactsConfig) (cs : list Contact)
    (cone : Cone) : Cone * list Event :=
  match cs with
  | [] => (cone, [])
  | contact :: rest =>
      if valid_or_true contact then feed_palms cfg rest cone
      else
        let '(x, y) := contact_phys cfg contact in
        let '(cone', evs) := feed_palms cfg rest (cone_update_direction cone x y) in
        (cone', ConeUpdateDirection x y :: evs)
  end.

(** Second loop: contacts already known to be invalid are skipped, the
    others get the verdict of the cone. *)
Fixpoint mark_palms (cfg : Config ContactsConfig) (cone : Cone)
    (cs : list Contact) : list Contact :=
  match cs with
  | [] => []
  | contact :: rest =>
      if negb (valid_or_true contact) then contact :: mark_palms cfg cone rest
      else
        let '(x, y) := contact_phys cfg contact in
        set_valid contact (Some (cone_check cone x y)) :: mark_palms cfg cone rest
  end.

(** The three early returns, then the two loops. *)
Definition update_touch_cone (app : Application) : Application * list Event :=
  if negb (cone_alive (m_cone app)) then (app, [])
  else if negb (cone_active (m_cone app)) then (app, [])
  else if negb (touch_check_cone (m_config app)) then (app, [])
  else
    let '(cone', evs) := feed_palms (m_config app) (m_contacts app) (m_cone app) in
    let cs' := mark_palms (m_config app) cone' (m_contacts app) in
    (with_contacts (with_cone app cone') cs', evs).

Definition process_heatmap (app : Application) (data : Heatmap)
    : Application * list Event :=
  let heatmap := normalize data in
  let '(finder', found) := finder_find (m_finder app) heatmap (m_contacts app) in
  let app1 := with_found app heatmap finder' found in
  let '(app2, evs) := update_touch_cone app1 in
  (app2, evs ++ [OnContacts (m_contacts app2)]).

(** Physical position of a stylus sample. *)
Definition stylus_phys (cfg : Config ContactsConfig) (data : StylusData) : float * float :=
  ((F64.of_Z (st_x data) / F64.of_Z IPTS_MAX_X * width cfg)%float,
   (F64.of_Z (st_y data) / F64.of_Z IPTS_MAX_Y * height cfg)%float).

Definition process_stylus (app : Application) (data : StylusData)
    : Application * list Event :=
  let '(x, y) := stylus_phys (m_config app) data in
  (with_cone app (cone_update_position (m_cone app) x y),
   [ConeUpdatePosition x y; OnStylus data]).

Definition process_dft (app : Application) (data : DftWindow)
    : Application * list Event :=
  let dft' := dft_input (m_dft app) data in
  process_stylus (with_dft app dft') (dft_get_stylus dft').

(** ** The parser and [process] *)

Inductive Frame : Type :=
  | FHeatmap (data : Heatmap)
  | FStylus (data : StylusData)
  | FDft (data : DftWindow).

(** The callbacks installed by the constructor. *)
Definition dispatch (app : Application) (f : Frame) : Application * list Event :=
  match f with
  | FHeatmap data => process_heatmap app data
  | FStylus data => process_stylus app data
  | FDft data => process_dft app data
  end.

(** Reading one record off the front of a buffer: a typed frame, a
    record of unknown type to skip, or a malformed one. The header
    layout is part of the protocol headers. *)
Inductive Record_ : Type :=
  | RecFrame (f : Frame) (rest : list Z)
  | RecSkip (rest : list Z)
  | RecMalformed.

Variable read_record : list Z -> Record_.

(** Modelled from the spec: [ipts::Parser::parse] (ipts/parser.hpp is
    not among the sources). The buffer is a sequence of records; each
    decoded sub-frame invokes its callback once, in source order;
    unknown records are skipped; a malformed record raises a parse
    error and the rest of the buffer is lost. [fuel] bounds the number
    of records, at most one per byte. *)
Fixpoint parse (fuel : nat) (buf : list Z) (app : Application)
    : Application * list Event * option exn :=
  match fuel with
  | O => (app, [], None)
  | S fuel' =>
      match buf with
      | [] => (app, [], None)
      | _ :: _ =>
          match read_record buf with
          | RecFrame f rest =>
              let '(app1, evs1) := dispatch app f in
              let '(app2, evs2, err) := parse fuel' rest app1 in
              (app2, evs1 ++ evs2, err)
          | RecSkip rest => parse fuel' rest app
          | RecMalformed => (app, [], Some (runtime_error "parse error"))
          end
      end
  end.

(** [process] forwards to [on_data], which by default parses. *)
Definition on_data (app : Application) (data : list Z) :=
  parse (List.length data) data app.

Definition process (app : Application) (data : list Z) :=
  on_data app data.

(** The frames the parser finds in a buffer, in source order, and
    whether it stops on a malformed record. *)
Fixpoint frames_of (fuel : nat) (buf : list Z) : list Frame * option exn :=
  match fuel with
  | O => ([], None)
  | S fuel' =>
      match buf with
      | [] => ([], None)
      | _ :: _ =>
          match read_record buf with
          | RecFrame f rest =>
              let '(fs, err) := frames_of fuel' rest in (f :: fs, err)
          | RecSkip rest => frames_of fuel' rest
          | RecMalformed => ([], Some (runtime_error "parse error"))
          end
      end
  end.

(** Handling a list of frames one after the other. *)
Fixpoint run_frames (app : Application) (fs : list Frame)
    : Application * list Event :=
  match fs with
  | [] => (app, [])
  | f :: rest =>
      let '(app1, evs1) := dispatch app f in
      let '(app2, evs2) := run_frames app1 rest in
      (app2, evs1 ++ evs2)
  end.

(** ** Reading the outcome of a heatmap frame *)

(** What the finder reports for a frame. *)
Definition found_in (app : Application) (data : Heatmap) : list Contact :=
  snd (finder_find (m_finder app) (normalize data) (m_contacts app)).

(** The cone after it has been shown the palms of a contact list. *)
Definition cone_after_palms (cfg : Config ContactsConfig) (cs : list Contact)
    (cone : Cone) : Cone :=
  fold_left (fun c p => cone_update_direction c (fst (contact_phys cfg p))
                          (snd (contact_phys cfg p)))
    (List.filter known_false cs) cone.

(** The verdict written to a contact that is not a known palm. *)
Definition judged (cfg : Config ContactsConfig) (cone : Cone) (c : Contact) : Contact :=
  if known_false c then c
  else set_valid c (Some (cone_check cone (fst (contact_phys cfg c))
                            (snd (contact_phys cfg c)))).

End Application.

End Core.

(* ===================================================================== *)
(** * daemon/devices.cpp *)
(* ===================================================================== *)

Module Daemon.

(** [res]: device units per millimetre from a virtual range and a
    physical extent in tenths of a millimetre. The product [virt * 10]
    is an [i32] product; the quotient is a double; [std::round] and the
    cast back to [i32] follow. *)
Definition res (virt phys : Z) : option Z :=
  match i32_checked (virt * 10) with
  | Some v10 =>
      let r := (F64.of_Z v10 / F64.of_Z phys)%float in
      F64.to_i32 (F64.round r)
  | None => None
  end.

(** ** uinput devices

    Codes of linux/input-event-codes.h that the constructors use. *)
Inductive EvBit := EV_KEY | EV_ABS.
Inductive PropBit := INPUT_PROP_DIRECT | INPUT_PROP_POINTER.
Inductive KeyBit := BTN_TOUCH | BTN_STYLUS | BTN_TOOL_PEN | BTN_TOOL_RUBBER.
Inductive AbsAxis :=
  | ABS_X | ABS_Y | ABS_PRESSURE | ABS_TILT_X | ABS_TILT_Y | ABS_MISC
  | ABS_MT_SLOT | ABS_MT_TRACKING_ID | ABS_MT_POSITION_X | ABS_MT_POSITION_Y
  | ABS_MT_TOOL_TYPE | ABS_MT_TOOL_X | ABS_MT_TOOL_Y | ABS_MT_ORIENTATION
  | ABS_MT_TOUCH_MAJOR | ABS_MT_TOUCH_MINOR.

Definition AbsAxis_eqb (a b : AbsAxis) : bool :=
  match a, b with
  | ABS_X, ABS_X | ABS_Y, ABS_Y | ABS_PRESSURE, ABS_PRESSURE
  | ABS_TILT_X, ABS_TILT_X | ABS_TILT_Y, ABS_TILT_Y | ABS_MISC, ABS_MISC
  | ABS_MT_SLOT, ABS_MT_SLOT | ABS_MT_TRACKING_ID, ABS_MT_TRACKING_ID
  | ABS_MT_POSITION_X, ABS_MT_POSITION_X | ABS_MT_POSITION_Y, ABS_MT_POSITION_Y
  | ABS_MT_TOOL_TYPE, ABS_MT_TOOL_TYPE | ABS_MT_TOOL_X, ABS_MT_TOOL_X
  | ABS_MT_TOOL_Y, ABS_MT_TOOL_Y | ABS_MT_ORIENTATION, ABS_MT_ORIENTATION
  | ABS_MT_TOUCH_MAJOR, ABS_MT_TOUCH_MAJOR
  | ABS_MT_TOUCH_MINOR, ABS_MT_TOUCH_MINOR => true
  | _, _ => false
  end.

(** Modelled from the spec: uinput-device.hpp is not among the sources;
    a device is what it has been told through its setters.

    One [set_absinfo(axis, min, max, res)] call. A resolution that the
    program obtains from an undefined conversion is [None]. *)
Record AbsInfo := {
  abs_axis : AbsAxis;
  abs_min : Z;
  abs_max : Z;
  abs_res : option Z
}.

(** What a [UinputDevice] has been told, calls in program order. *)
Record UinputDevice := {
  name : string;
  vendor : Z;
  product : Z;
  version : Z;
  evbits : list EvBit;
  propbits : list PropBit;
  keybits : list KeyBit;
  absinfo : list AbsInfo;
  created : bool
}.

Definition set_absinfo (d : UinputDevice) (axis : AbsAxis) (lo hi : Z)
    (r : option Z) : UinputDevice :=
  {| name := name d; vendor := vendor d; product := product d;
     version := version d; evbits := evbits d; propbits := propbits d;
     keybits := keybits d;
     absinfo := absinfo d ++ [{| abs_axis := axis; abs_min := lo;
                                 abs_max := hi; abs_res := r |}];
     created := created d |}.

Definition create (d : UinputDevice) : UinputDevice :=
  {| name := name d; vendor := vendor d; product := product d;
     version := version d; evbits := evbits d; propbits := propbits d;
     keybits := keybits d; absinfo := absinfo d; created := true |}.

(** The settings of an axis: the last call for it wins. *)
Definition absinfo_of (d : UinputDevice) (axis : AbsAxis) : option AbsInfo :=
  List.find (fun a => AbsAxis_eqb (abs_axis a) axis) (rev (absinfo d)).

Record DeviceInfo := {
  info_vendor : Z;
  info_product : Z;
  info_version : Z;
  info_max_contacts : Z
}.

(** Modelled from the spec: [IptsdConfig] (config.hpp of the daemon is
    not among the sources). The display size is an [i32] in tenths of a
    millimetre, as [res] receives it. *)
Record IptsdConfig := {
  info : DeviceInfo;
  width : Z;
  height : Z
}.

Section Devices.

(** Constants of ipts/ipts.h and the limits used by the constructors. *)
Variable IPTS_MAX_X IPTS_MAX_Y IPTS_DIAGONAL : Z.

Definition USHRT_MAX : Z := 65535.
Definition MT_TOOL_MAX : Z := 15.
Definition M_PI : float := 0x1.921fb54442d18p+1%float.

(** The touch manager owned by the touch device, built from the
    configuration (touch-manager.hpp). *)
Context {TouchManager : Type}.
Variable TouchManager_new : IptsdConfig -> TouchManager.

Record StylusDevice := {
  stylus_dev : UinputDevice;
  serial : Z
}.

Definition set_serial (s : StylusDevice) (v : Z) : StylusDevice :=
  {| stylus_dev := stylus_dev s; serial := v |}.

Definition StylusDevice_new (conf : IptsdConfig) : StylusDevice :=
  let d := {| name := "IPTS Stylus";
              vendor := info_vendor (info conf);
              product := info_product (info conf);
              version := info_version (info conf);
              evbits := [EV_KEY; EV_ABS];
              propbits := [INPUT_PROP_DIRECT; INPUT_PROP_POINTER];
              keybits := [BTN_TOUCH; BTN_STYLUS; BTN_TOOL_PEN; BTN_TOOL_RUBBER];
              absinfo := [];
              created := false |} in
  let res_x := res IPTS_MAX_X (width conf) in
  let res_y := res IPTS_MAX_Y (height conf) in
  let d := set_absinfo d ABS_X 0 IPTS_MAX_X res_x in
  let d := set_absinfo d ABS_Y 0 IPTS_MAX_Y res_y in
  let d := set_absinfo d ABS_PRESSURE 0 4096 (Some 0) in
  let d := set_absinfo d ABS_TILT_X (-9000) 9000
             (F64.to_i32 (F64.of_Z 18000 / M_PI)%float) in
  let d := set_absinfo d ABS_TILT_Y (-9000) 9000
             (F64.to_i32 (F64.of_Z 18000 / M_PI)%float) in
  let d := set_absinfo d ABS_MISC 0 USHRT_MAX (Some 0) in
  {| stylus_dev := create d; serial := 0 |}.

Record TouchDevice := {
  touch_dev : UinputDevice;
  manager : TouchManager
}.

(** [f32 diag = std::sqrt(w * w + h * h)], then passed as an [i32]. *)
Definition diagonal (conf : IptsdConfig) : option Z :=
  match i32_checked (width conf * width conf),
        i32_checked (height conf * height conf) with
  | Some ww, Some hh =>
      match i32_checked (ww + hh) with
      | Some s => F64.to_i32 (F64.to_f32 (PrimFloat.sqrt (F64.of_Z s)))
      | None => None
      end
  | _, _ => None
  end.

Definition TouchDevice_new (conf : IptsdConfig) : TouchDevice :=
  let d := {| name := "IPTS Touch";
              vendor := info_vendor (info conf);
              product := info_product (info conf);
              version := info_version (info conf);
              evbits := [EV_ABS; EV_KEY];
              propbits := [INPUT_PROP_DIRECT];
              keybits := [BTN_TOUCH];
              absinfo := [];
              created := false |} in
  let res_x := res IPTS_MAX_X (width conf) in
  let res_y := res IPTS_MAX_Y (height conf) in
  let res_d := match diagonal conf with
               | Some diag => res IPTS_DIAGONAL diag
               | None => None
               end in
  let mc := info_max_contacts (info conf) in
  let d := set_absinfo d ABS_MT_SLOT 0 mc (Some 0) in
  let d := set_absinfo d ABS_MT_TRACKING_ID 0 mc (Some 0) in
  let d := set_absinfo d ABS_MT_POSITION_X 0 IPTS_MAX_X res_x in
  let d := set_absinfo d ABS_MT_POSITION_Y 0 IPTS_MAX_Y res_y in
  let d := set_absinfo d ABS_MT_TOOL_TYPE 0 MT_TOOL_MAX (Some 0) in
  let d := set_absinfo d ABS_MT_TOOL_X 0 IPTS_MAX_X res_x in
  let d := set_absinfo d ABS_MT_TOOL_X 0 IPTS_MAX_X res_x in
  let d := set_absinfo d ABS_MT_ORIENTATION 0 180 (Some 0) in
  let d := set_absinfo d ABS_MT_TOUCH_MAJOR 0 IPTS_DIAGONAL res_d in
  let d := set_absinfo d ABS_MT_TOUCH_MINOR 0 IPTS_DIAGONAL res_d in
  let d := set_absinfo d ABS_X 0 IPTS_MAX_X res_x in
  let d := set_absinfo d ABS_Y 0 IPTS_MAX_Y res_y in
  {| touch_dev := create d; manager := TouchManager_new conf |}.

(** [active_stylus] points at one of the devices owned by [styli]: it
    is the position of that device in the vector. Before the first
    [switch_stylus] the vector is empty and the pointer is not read. *)
Record DeviceManager := {
  conf : IptsdConfig;
  touch : TouchDevice;
  styli : list StylusDevice;
  active_stylus : nat
}.

Definition active (m : DeviceManager) : option StylusDevice :=
  styli m !! active_stylus m.

(** The loop of [switch_stylus]: the first device with that serial,
    counting from position [i]. *)
Fixpoint find_serial (l : list StylusDevice) (v : Z) (i : nat) : option nat :=
  match l with
  | [] => None
  | s :: rest => if serial s =? v then Some i else find_serial rest v (S i)
  end.

Definition switch_stylus (m : DeviceManager) (v : Z) : DeviceManager :=
  match find_serial (styli m) v 0 with
  | Some i =>
      {| conf := conf m; touch := touch m; styli := styli m;
         active_stylus := i |}
  | None =>
      if (0 <? Z.of_nat (List.length (styli m)))
         && (match active m with
             | Some a => serial a =? 0
             | None => false
             end)
      then
        {| conf := conf m; touch := touch m;
           styli := alter (fun a => set_serial a v) (active_stylus m) (styli m);
           active_stylus := active_stylus m |}
      else
        let stylus := set_serial (StylusDevice_new (conf m)) v in
        {| conf := conf m; touch := touch m;
           styli := styli m ++ [stylus];
           active_stylus := List.length (styli m) |}
  end.

(** The constructor: the touch device is a member and is built before
    the body runs; the body checks the size and selects serial 0. *)
Definition DeviceManager_new (c : IptsdConfig) : exn + DeviceManager :=
  let t := TouchDevice_new c in
  if (width c =? 0) || (height c =? 0)
  then inl (runtime_error "Display size is 0")
  else inr (switch_stylus
              {| conf := c; touch := t; styli := []; active_stylus := 0 |} 0).

(** The active pointer, when there is a device at all, points into the
    vector. *)
Definition active_in_range (m : DeviceManager) : Prop :=
  styli m = [] \/ (active_stylus m < List.length (styli m))%nat.

End Devices.

End Daemon.

(* ===================================================================== *)
(** * debug/calibrate.cpp: the read loop of [main] *)
(* ===================================================================== *)

Module Calibrate.

(** What one pass through the body of the [try] block does. *)
Inductive Iteration : Type :=
  | ReadThrows        (** [device.read] raises *)
  | NotTouchData      (** the report holds no touch data: [continue] *)
  | ParseThrows       (** [parser.parse] raises *)
  | Parsed.           (** the report was parsed *)

Definition raises (it : Iteration) : bool :=
  match it with
  | ReadThrows | ParseThrows => true
  | NotTouchData | Parsed => false
  end.

(** The counter after one iteration of the loop body. *)
Definition step (errors : Z) (it : Iteration) : Z :=
  match it with
  | ReadThrows | ParseThrows => errors + 1
  | NotTouchData => errors
  | Parsed => 0
  end.

Inductive Exit : Type :=
  | Aborted (reads : nat)     (** [errors >= 50]: break, after that many reads *)
  | Stopped (errors : Z).     (** [should_exit] was set *)

(** The loop. The list holds what happens at each iteration for as long
    as [should_exit] is false; at its end the flag is set. *)
Fixpoint run (errors : Z) (reads : nat) (its : list Iteration) : Exit :=
  match its with
  | [] => Stopped errors
  | it :: rest =>
      if 50 <=? errors then Aborted reads
      else run (step errors it) (S reads) rest
  end.

(** The counter at the head of the loop after the given iterations. *)
Definition errors_after (its : list Iteration) : Z :=
  fold_left step its 0.

(** Length of the longest run of iterations that all raised. *)
Fixpoint longest_failing_run (cur best : nat) (its : list Iteration) : nat :=
  match its with
  | [] => Nat.max cur best
  | it :: rest =>
      if raises it then longest_failing_run (S cur) best rest
      else longest_failing_run 0 (Nat.max cur best) rest
  end.

(** When every report holds touch data, the counter is the length of the
    current run of failures. *)
Fixpoint trailing_failures (its : list Iteration) (acc : Z) : Z :=
  match its with
  | [] => acc
  | it :: rest => trailing_failures rest (if raises it then acc + 1 else 0)
  end.

End Calibrate.

(* ===================================================================== *)
(** * Concrete collaborators, for running the orchestrator on examples *)
(* ===================================================================== *)

Module Fixture.
Import Core.

(** A cone that remembers the stylus position and the palms it has been
    shown. It rejects a point when a palm has been seen and the point is
    within [distance] of the stylus along both axes. *)
Record cone := {
  distance : float;
  origin : option (float * float);
  palms : list (float * float);
  recent : bool
}.

#[global] Instance cone_ops : ConeOps cone := {|
  cone_new := fun _ d => {| distance := d; origin := None; palms := []; recent := false |};
  cone_alive := fun c => match origin c with Some _ => true | None => false end;
  cone_active := recent;
  cone_update_position := fun c x y =>
    {| distance := distance c; origin := Some (x, y); palms := palms c; recent := true |};
  cone_update_direction := fun c x y =>
    {| distance := distance c; origin := origin c; palms := palms c ++ [(x, y)];
       recent := recent c |};
  cone_check := fun c x y =>
    match origin c, palms c with
    | Some (ox, oy), _ :: _ =>
        negb (PrimFloat.leb (PrimFloat.abs (x - ox)) (distance c)
              && PrimFloat.leb (PrimFloat.abs (y - oy)) (distance c))
    | _, _ => true
    end
|}.

(** A finder that reports a scripted list of contacts. *)
#[global] Instance finder_ops : FinderOps unit (list Contact) := {|
  finder_new := fun _ => [];
  finder_find := fun f _ _ => (f, f)
|}.

(** A DFT stylus whose window already is the sample it decodes to. *)
#[global] Instance dft_ops : DftOps unit unit StylusData StylusData := {|
  dft_new := fun _ _ =>
    {| st_x := 0; st_y := 0; st_pressure := 0; st_tilt_x := 0;
       st_tilt_y := 0; st_buttons := 0; st_serial := 0 |};
  dft_input := fun _ w => w;
  dft_get_stylus := fun d => d
|}.

Definition config : Config unit :=
  {| width := 1000; height := 500; cone_angle := 1; cone_distance := 100;
     touch_check_cone := true; contacts := tt |}.

Definition contact (x y : float) (v : option bool) : Contact :=
  {| ct_mean_x := x; ct_mean_y := y; ct_size_x := 0.125; ct_size_y := 0.125;
     ct_stable := true; ct_valid := v |}.

(** Two fingers and a palm, as a finder could report them. *)
Definition found : list Contact :=
  [contact 0.0625 0.125 None; contact 0.09375 0.25 (Some false);
   contact 0.5 0.75 (Some true)].

Definition sample : StylusData :=
  {| st_x := 480; st_y := 720; st_pressure := 100; st_tilt_x := 0;
     st_tilt_y := 0; st_buttons := 1; st_serial := 7 |}.

Definition frame : Heatmap :=
  {| hm_dim := {| dim_height := 1; dim_width := 3; dim_z_min := 0; dim_z_max := 255 |};
     hm_data := [255; 0; 32] |}.

(** An application whose cone has seen the stylus at (50, 50). *)
Definition app (check_cone : bool)
    : Application (Metadata := unit) (DeviceInfo := unit) :=
  {| m_config := {| width := 1000; height := 500; cone_angle := 1;
                    cone_distance := 100; touch_check_cone := check_cone;
                    contacts := tt |};
     m_info := tt; m_metadata := None;
     m_heatmap := {| img_rows := 0; img_cols := 0; img_cells := [] |};
     m_finder := found; m_contacts := [];
     m_dft := sample;
     m_cone := {| distance := 100; origin := Some (50, 50)%float; palms := [];
                  recent := true |} |}.

End Fixture.

(* ===================================================================== *)
(** * Inputs and reference functions used in the statements *)
(* ===================================================================== *)

Import Core.

(** Exhaustive checks over a range of integers. *)
Fixpoint all_from (fuel : nat) (z : Z) (p : Z -> bool) : bool :=
  match fuel with
  | O => true
  | S k => p z && all_from k (z + 1) p
  end.

Definition cell_ok (z_min z_max u : Z) : bool :=
  F64.in_unit (normalize_cell (F64.of_Z z_min) (F64.of_Z z_max) u).

(** The two promises about the range of the normalised cells. *)
Definition cells_in_unit (h : Heatmap) : Prop :=
  forall n, In n (img_cells (normalize h)) -> F64.in_unit n = true.

Definition zero_on_empty_range (h : Heatmap) : Prop :=
  dim_z_max (hm_dim h) = dim_z_min (hm_dim h) ->
  forall n, In n (img_cells (normalize h)) -> PrimFloat.eqb n PrimFloat.zero = true.

(** A frame with a cell above [z_max]. *)
Definition frame_out_of_range : Heatmap :=
  {| hm_dim := {| dim_height := 1; dim_width := 1; dim_z_min := 10; dim_z_max := 20 |};
     hm_data := [30] |}.

(** A frame whose range is a single value. *)
Definition frame_flat_range : Heatmap :=
  {| hm_dim := {| dim_height := 1; dim_width := 2; dim_z_min := 10; dim_z_max := 10 |};
     hm_data := [10; 30] |}.

(** The integer nearest to [a / b], halfway cases away from zero. *)
Definition round_half_away (a b : Z) : Z :=
  Z.sgn a * Z.sgn b * ((2 * Z.abs a + Z.abs b) / (2 * Z.abs b)).

(** What a location says about a remainder [r] of a division by [D]. *)
Definition loc_ok (l : location) (r D : Z) : Prop :=
  match l with
  | loc_Exact => r = 0
  | loc_Inexact Lt => 0 < r /\ 2 * r < D
  | loc_Inexact Eq => 0 < r /\ 2 * r = D
  | loc_Inexact Gt => D < 2 * r
  end.

Definition display : Daemon.IptsdConfig :=
  {| Daemon.info := {| Daemon.info_vendor := 1118; Daemon.info_product := 2424;
                       Daemon.info_version := 1; Daemon.info_max_contacts := 10 |};
     Daemon.width := 2599; Daemon.height := 1728 |}.

(** A manager as its constructor leaves it: one stylus, serial 0, active. *)
Definition fresh_manager : Daemon.DeviceManager (TouchManager := unit) :=
  {| Daemon.conf := display;
     Daemon.touch := Daemon.TouchDevice_new 9600 7200 12000 (fun _ => tt) display;
     Daemon.styli := [Daemon.StylusDevice_new 9600 7200 display];
     Daemon.active_stylus := 0 |}.

(** 49 failed reads, a report without touch data, one more failed read,
    and a good report that is never read. *)
Definition interrupted_failures : list Calibrate.Iteration :=
  repeat Calibrate.ReadThrows 49
  ++ [Calibrate.NotTouchData; Calibrate.ReadThrows; Calibrate.Parsed].

(* ===================================================================== *)
(** * debug/calibrate.cpp: [main] around the read loop *)
(* ===================================================================== *)

Module CalibrateMain.
Import Calibrate.










Definition parsed (it : Iteration) : bool :=
  match it with Parsed => true | _ => false end.

(** The iterations that follow the last parsed report. *)
Fixpoint after_last_parsed (its : list Iteration) : list Iteration :=
  match its with
  | [] => []
  | it :: rest =>
      if existsb parsed rest then after_last_parsed rest
      else if parsed it then rest else it :: rest
  end.

(** The number of iterations that raised. *)
Definition failures (its : list Iteration) : Z :=
  Z.of_nat (List.length (List.filter raises its)).

End CalibrateMain.

(* ===================================================================== *)
(** * Further vocabulary of the statements *)
(* ===================================================================== *)

(** Frames and events by kind. *)
Definition is_heatmap {W : Type} (f : Frame (DftWindow := W)) : bool :=
  match f with FHeatmap _ => true | _ => false end.

Definition is_on_contacts (e : Event) : bool :=
  match e with OnContacts _ => true | _ => false end.

Definition is_on_stylus (e : Event) : bool :=
  match e with OnStylus _ => true | _ => false end.

Definition is_cone_position (e : Event) : bool :=
  match e with ConeUpdatePosition _ _ => true | _ => false end.

Definition is_cone_direction (e : Event) : bool :=
  match e with ConeUpdateDirection _ _ => true | _ => false end.

(** A contact without its verdict. *)
Definition geometry (c : Contact) : Contact := set_valid c None.

(** The normalised value as a function of the distance [a] of the raw
    cell from [z_min] and of the width [d] of the range. *)
Definition inverted_ratio (a d : Z) : float :=
  (F64.one - F64.of_Z a / F64.of_Z d)%float.

(** The serials of the stylus devices, in the order of the vector. *)
Definition serials {TouchManager : Type}
    (m : Daemon.DeviceManager (TouchManager := TouchManager)) : list Z :=
  List.map Daemon.serial (Daemon.styli m).

(** The axes a device has been given, calls in program order. *)
Definition axes_of (d : Daemon.UinputDevice) : list Daemon.AbsAxis :=
  List.map Daemon.abs_axis (Daemon.absinfo d).

(* ===================================================================== *)
(** * debug/calibrate.cpp: [iptsd_calibrate_handle_input] *)
(* ===================================================================== *)

Module F32.

(** C++ [f32] values: binary32 numbers, every operation rounded to
    nearest even at 24 bits, as the IEEE specification of the standard
    library defines it. *)
Definition f32 : Type := spec_float.

Definition prec : Z := 24.
Definition emax : Z := 128.

(** [static_cast<f32>(n)] of an integer. *)
Definition of_Z (n : Z) : f32 := binary_normalize prec emax n 0 false.

Definition zero : f32 := of_Z 0.
Definition one : f32 := of_Z 1.

Definition sub (x y : f32) : f32 := SFsub prec emax x y.
Definition div (x y : f32) : f32 := SFdiv prec emax x y.

Definition in_unit (x : f32) : bool := SFleb zero x && SFleb x one.

(** Widening to [f64], which is exact. *)
Definition to_f64 (x : f32) : float := SF2Prim x.

(** Whether two values are the same number, sign and all. *)
Definition same (x y : f32) : bool :=
  match x, y with
  | S754_zero a, S754_zero b => Bool.eqb a b
  | S754_infinity a, S754_infinity b => Bool.eqb a b
  | S754_nan, S754_nan => true
  | S754_finite s m e, S754_finite s' m' e' =>
      Bool.eqb s s' && Pos.eqb m m' && Z.eqb e e'
  | _, _ => false
  end.

End F32.

Module CalibrateInput.
Import Core.

(** What the function uses from outside this file: the contact finder
    (contacts/finder.hpp), the two fields of a [contacts::Contact<f32>]
    it reads ([stable], and [size] through Eigen's [maxCoeff] and
    [minCoeff]), [std::hypot], [container::ops::sum] and [std::sort].
    Every statement holds for all their implementations. *)
Class Ops (Finder Contact : Type) := {
  find : Finder -> Image F32.f32 -> list Contact -> Finder * list Contact;
  stable : Contact -> bool;
  size_max_coeff : Contact -> F32.f32;
  size_min_coeff : Contact -> F32.f32;
  hypot : float -> float -> float;
  sum : list float -> float;
  sort : list float -> list float
}.

(** One cell of
    [1.0f - (mapped.cast<f32>() - static_cast<f32>(z_min)) / range]. *)
Definition normalize_cell (z_min : Z) (range : F32.f32) (u : Z) : F32.f32 :=
  F32.sub F32.one (F32.div (F32.sub (F32.of_Z u) (F32.of_Z z_min)) range).

(** [range] is the cast of the [int] difference of the two bytes. *)
Definition normalize (data : Heatmap) : Image F32.f32 :=
  let rows := dim_height (hm_dim data) in
  let cols := dim_width (hm_dim data) in
  let z_min := dim_z_min (hm_dim data) in
  let range := F32.of_Z (dim_z_max (hm_dim data) - z_min) in
  {| img_rows := rows;
     img_cols := cols;
     img_cells := List.map (normalize_cell z_min range)
                    (firstn (Z.to_nat (rows * cols)) (hm_data data)) |}.

(** The cell as a function of the distance [a] of the raw value from
    [z_min] and of the width [d] of the range. *)
Definition inverted_ratio_f32 (a d : Z) : F32.f32 :=
  F32.sub F32.one (F32.div (F32.of_Z a) (F32.of_Z d)).

(** [static_cast<f64>(n)] of a [std::size_t]. *)
Definition f64_of_size (n : Z) : float :=
  SF2Prim (binary_normalize FloatOps.prec FloatOps.emax n 0 false).

(** The result of [gsl::narrow]: the value, a [narrowing_error], or a
    conversion that C++ leaves undefined. *)
Inductive Narrowed (T : Type) : Type :=
  | Value (t : T)
  | NarrowingError
  | UndefinedCast.
Arguments Value {T} t.
Arguments NarrowingError {T}.
Arguments UndefinedCast {T}.

(** [gsl::narrow<f64>(n)]: cast, cast back, compare. *)
Definition narrow_f64 (n : nat) : Narrowed float :=
  let x := f64_of_size (Z.of_nat n) in
  match F64.trunc x with
  | Some z =>
      if z <? 2 ^ 64
      then if z =? Z.of_nat n then Value x else NarrowingError
      else UndefinedCast
  | None => UndefinedCast
  end.

(** [gsl::narrow<std::size_t>(x)]: the cast is defined when the truncated
    value fits; the value must survive the round trip and must not be
    negative. *)
Definition narrow_size (x : float) : Narrowed nat :=
  match F64.trunc x with
  | Some z =>
      if (0 <=? z) && (z <? 2 ^ 64)
      then if PrimFloat.eqb (f64_of_size z) x && negb (PrimFloat.ltb x PrimFloat.zero)
           then Value (Z.to_nat z)
           else NarrowingError
      else UndefinedCast
  | None => UndefinedCast
  end.

(** [std::max(a, b)] is [(a < b) ? b : a]. *)
Definition fmax (a b : float) : float := if PrimFloat.ltb a b then b else a.

(** The doubles nearest to 0.01 and 0.99. *)
Definition q01 : float := 0x1.47ae147ae147bp-7%float.
Definition q99 : float := 0x1.fae147ae147aep-1%float.

(** The index of a percentile among [n] samples:
    [narrow<size_t>(std::round(std::max(narrow<f64>(n) - 1, 0.0) * q))]. *)
Definition percentile_index (n : nat) (q : float) : Narrowed nat :=
  match narrow_f64 n with
  | Value x => narrow_size (F64.round (fmax (x - 1) PrimFloat.zero * q)%float)
  | NarrowingError => NarrowingError
  | UndefinedCast => UndefinedCast
  end.

Section HandleInput.

Context {Finder Contact : Type}.
Context `{!Ops Finder Contact}.

(** The two global vectors and the three objects that [main] owns and
    lends to the function. *)
Record Tool := {
  size : list float;
  aspect : list float;
  heatmap : Image F32.f32;
  contacts : list Contact;
  finder : Finder
}.

(** The three log lines. *)
Record Report := {
  samples : nat;
  size_avg : float;
  size_min : float;
  size_max : float;
  aspect_avg : float;
  aspect_min : float;
  aspect_max : float
}.

Inductive Outcome : Type :=
  | Silent                 (** returned before the statistics *)
  | Printed (r : Report)
  | Threw                  (** [gsl::narrowing_error] *)
  | Undefined.             (** an undefined cast, or a read outside a vector *)

(** The sample of one stable contact. The width and height are the
    doubles of the configuration. *)
Definition size_sample (width height : float) (c : Contact) : float :=
  (F32.to_f64 (size_max_coeff c) * hypot width height)%float.

Definition aspect_sample (c : Contact) : float :=
  F32.to_f64 (F32.div (size_max_coeff c) (size_min_coeff c)).

Definition handle_input (width height : float) (data : Heatmap) (t : Tool)
    : Tool * Outcome :=
  let hm := normalize data in
  let '(finder', found) := find (finder t) hm (contacts t) in
  let fresh := List.filter stable found in
  let size1 := size t ++ List.map (size_sample width height) fresh in
  let aspect1 := aspect t ++ List.map aspect_sample fresh in
  if (List.length size1 =? 0)%nat
  then ({| size := size1; aspect := aspect1; heatmap := hm;
           contacts := found; finder := finder' |}, Silent)
  else
    let size2 := sort size1 in
    let aspect2 := sort aspect1 in
    let t2 := {| size := size2; aspect := aspect2; heatmap := hm;
                 contacts := found; finder := finder' |} in
    let s_avg := (sum size2 / f64_of_size (Z.of_nat (List.length size2)))%float in
    let a_avg := (sum aspect2 / f64_of_size (Z.of_nat (List.length aspect2)))%float in
    match percentile_index (List.length size2) q01 with
    | Value i =>
        match percentile_index (List.length size2) q99 with
        | Value j =>
            match size2 !! i, size2 !! j, aspect2 !! i, aspect2 !! j with
            | Some s_min, Some s_max, Some a_min, Some a_max =>
                (t2, Printed {| samples := List.length size2;
                                size_avg := s_avg; size_min := s_min; size_max := s_max;
                                aspect_avg := a_avg; aspect_min := a_min;
                                aspect_max := a_max |})
            | _, _, _, _ => (t2, Undefined)
            end
        | NarrowingError => (t2, Threw)
        | UndefinedCast => (t2, Undefined)
        end
    | NarrowingError => (t2, Threw)
    | UndefinedCast => (t2, Undefined)
    end.

(** [std::sort] rearranges: the vector keeps its length. *)
Definition sort_keeps_length : Prop :=
  forall l : list float, List.length (sort l) = List.length l.

(** The stable contacts the finder reports for a frame. *)
Definition stable_found (data : Heatmap) (t : Tool) : list Contact :=
  List.filter stable (snd (find (finder t) (normalize data) (contacts t))).

(** One heatmap after the other, as the parser hands them over. *)
Fixpoint handle_inputs (width height : float) (frames : list Heatmap) (t : Tool)
    : Tool * list Outcome :=
  match frames with
  | [] => (t, [])
  | data :: rest =>
      let '(t1, o) := handle_input width height data t in
      let '(t2, os) := handle_inputs width height rest t1 in
      (t2, o :: os)
  end.

End HandleInput.

Arguments Tool : clear implicits.

End CalibrateInput.

(** A finder for the calibration tool that reports a scripted list of
    contacts, each a pair of sizes and a flag, with insertion sort for
    [std::sort]. *)
Module CalibrateFixture.
Import CalibrateInput.

Fixpoint insert (x : float) (l : list float) : list float :=
  match l with
  | [] => [x]
  | y :: rest => if PrimFloat.ltb y x then y :: insert x rest else x :: l
  end.

Definition insertion_sort (l : list float) : list float :=
  fold_right insert [] l.

Definition f32_max (a b : F32.f32) : F32.f32 := if SFltb a b then b else a.
Definition f32_min (a b : F32.f32) : F32.f32 := if SFltb b a then b else a.

#[global] Instance ops : Ops (list (F32.f32 * F32.f32 * bool)) (F32.f32 * F32.f32 * bool) := {|
  find := fun f _ _ => (f, f);
  stable := snd;
  size_max_coeff := fun c => f32_max (fst (fst c)) (snd (fst c));
  size_min_coeff := fun c => f32_min (fst (fst c)) (snd (fst c));
  hypot := fun w h => PrimFloat.sqrt (w * w + h * h)%float;
  sum := fun l => fold_left PrimFloat.add l PrimFloat.zero;
  sort := insertion_sort
|}.

(** A tool that has seen nothing yet, with a finder that reports two
    stable contacts and an unstable one. *)
Definition tool : Tool (list (F32.f32 * F32.f32 * bool)) (F32.f32 * F32.f32 * bool) :=
  {| size := []; aspect := [];
     heatmap := {| Core.img_rows := 0; Core.img_cols := 0; Core.img_cells := [] |};
     contacts := [];
     finder := [ (F32.of_Z 3, F32.of_Z 2, true); (F32.of_Z 1, F32.of_Z 4, false);
                 (F32.of_Z 2, F32.of_Z 2, true) ] |}.

End CalibrateFixture.

(* ===================================================================== *)
(** * Doubles: conversion, division and rounding of 32-bit integers *)
(* ===================================================================== *)

Lemma digits2_size (p : positive) : digits2_pos p = Pos.size p.
Proof. induction p; simpl; congruence. Qed.

Lemma digits2_bounds (p : positive) :
  2 ^ (Zpos (digits2_pos p) - 1) <= Zpos p < 2 ^ Zpos (digits2_pos p).
Proof.
  rewrite digits2_size. split.
  - pose proof (Pos.size_le p) as H.
    assert (H' : 2 ^ Zpos (Pos.size p) <= 2 * Zpos p).
    { rewrite <- Pos2Z.inj_pow. change (2 * Zpos p) with (Zpos p~0). now apply Pos2Z.pos_le_pos. }
    replace (Zpos (Pos.size p)) with (Zpos (Pos.size p) - 1 + 1) in H' by lia.
    rewrite Z.pow_add_r in H' by lia. lia.
  - pose proof (Pos.size_gt p) as H. rewrite <- Pos2Z.inj_pow. now apply Pos2Z.pos_lt_pos.
Qed.

Lemma digits2_unique (p : positive) (d : Z) :
  2 ^ (d - 1) <= Zpos p < 2 ^ d -> Zpos (digits2_pos p) = d.
Proof.
  intros [Hlo Hhi]. pose proof (digits2_bounds p) as [Hlo' Hhi'].
  assert (0 < d).
  { destruct (Z.lt_ge_cases 0 d); [assumption|].
    assert (2 ^ d <= 2 ^ 0) by (apply Z.pow_le_mono_r; lia). simpl in *. lia. }
  destruct (Z.lt_trichotomy (Zpos (digits2_pos p)) d) as [Hc|[Hc|Hc]]; [|assumption|].
  - assert (2 ^ Zpos (digits2_pos p) <= 2 ^ (d - 1)) by (apply Z.pow_le_mono_r; lia). lia.
  - assert (2 ^ d <= 2 ^ (Zpos (digits2_pos p) - 1)) by (apply Z.pow_le_mono_r; lia). lia.
Qed.

Lemma iter_xO_value (p n : positive) : Zpos (Pos.iter xO p n) = Zpos p * 2 ^ Zpos n.
Proof.
  revert p. induction n using Pos.peano_ind; intros p.
  - simpl. lia.
  - rewrite Pos.iter_succ. rewrite Pos2Z.inj_succ, Z.pow_succ_r by lia.
    change (Zpos (Pos.iter xO p n)~0) with (2 * Zpos (Pos.iter xO p n)).
    rewrite IHn. lia.
Qed.

(** A mantissa of 53 bits with an exponent in range is left alone. *)
Lemma binary_round_aux_exact (s : bool) (m : positive) (e : Z) :
  Zpos (digits2_pos m) = 53 -> -1074 <= e <= 971 ->
  binary_round_aux prec emax s (Zpos m) e loc_Exact = S754_finite s m e.
Proof.
  intros Hd He. unfold binary_round_aux, shr_fexp.
  cbn [Zdigits2]. rewrite Hd.
  assert (Hf : fexp prec emax (53 + e) - e = 0).
  { unfold fexp, SpecFloat.emin, prec, emax. lia. }
  rewrite Hf. cbn [shr shr_record_of_loc shr_m loc_of_shr_record round_nearest_even Zdigits2].
  rewrite Hd, Hf. cbn [shr shr_record_of_loc shr_m].
  assert (Hle : (e <=? emax - prec) = true) by (apply Z.leb_le; unfold emax, prec; lia).
  now rewrite Hle.
Qed.

Lemma Prim2SF_of_pos (n : positive) :
  Zpos n < 2 ^ 53 ->
  exists m : positive,
    Prim2SF (F64.of_Z (Zpos n)) = S754_finite false m (Zpos (digits2_pos n) - 53)
    /\ Zpos (digits2_pos m) = 53
    /\ Zpos m = Zpos n * 2 ^ (53 - Zpos (digits2_pos n)).
Proof.
  intros Hn. cbn [F64.of_Z].
  rewrite of_uint63_spec, Uint63.of_Z_spec.
  rewrite Z.mod_small by (change Uint63.wB with (2 ^ 63); split; [lia|];
    apply Z.lt_trans with (2 ^ 53); [assumption|reflexivity]).
  cbn [binary_normalize]. unfold binary_round.
  pose proof (digits2_bounds n) as [Hlo Hhi].
  set (d := Zpos (digits2_pos n)) in *.
  assert (Hd : 1 <= d <= 53).
  { split; [subst d; lia|].
    destruct (Z.le_gt_cases d 53); [assumption|].
    assert (2 ^ 53 <= 2 ^ (d - 1)) by (apply Z.pow_le_mono_r; lia). lia. }
  assert (Hf : fexp prec emax (d + 0) = d - 53).
  { unfold fexp, SpecFloat.emin, prec, emax. lia. }
  rewrite Hf. unfold shl_align.
  destruct (d - 53 - 0) as [|k|k] eqn:Ek; try lia.
  - (* d = 53 *)
    exists n. assert (d = 53) by lia.
    rewrite binary_round_aux_exact; [|subst d; lia|lia].
    replace (d - 53) with 0 by lia. repeat split; [subst d; lia|].
    replace (53 - d) with 0 by lia. lia.
  - exists (Pos.iter xO n k).
    assert (Hk : Zpos k = 53 - d) by lia.
    assert (Hv : Zpos (Pos.iter xO n k) = Zpos n * 2 ^ (53 - d))
      by (rewrite iter_xO_value, Hk; reflexivity).
    assert (Hdig : Zpos (digits2_pos (Pos.iter xO n k)) = 53).
    { apply digits2_unique. rewrite Hv.
      replace (2 ^ (53 - 1)) with (2 ^ (d - 1) * 2 ^ (53 - d))
        by (rewrite <- Z.pow_add_r by lia; f_equal; lia).
      replace (2 ^ 53) with (2 ^ d * 2 ^ (53 - d))
        by (rewrite <- Z.pow_add_r by lia; f_equal; lia).
      assert (0 < 2 ^ (53 - d)) by (apply Z.pow_pos_nonneg; lia).
      split; [apply Z.mul_le_mono_nonneg_r; lia|apply Z.mul_lt_mono_pos_r; lia]. }
    rewrite binary_round_aux_exact; [|exact Hdig|lia].
    repeat split; assumption.
Qed.

Lemma new_location_ok (D r : Z) :
  0 < D -> 0 <= r < D -> loc_ok (new_location D r) r D.
Proof.
  intros HD Hr. unfold new_location, new_location_even, new_location_odd.
  destruct (Z.even D) eqn:Ev.
  - destruct (Z.eqb_spec r 0) as [->|Hne]; [reflexivity|].
    destruct (Z.compare_spec (2 * r) D); cbn; lia.
  - destruct (Z.eqb_spec r 0) as [->|Hne]; [reflexivity|].
    assert (Hodd : Z.odd D = true) by (rewrite <- Z.negb_even, Ev; reflexivity).
    apply Z.odd_spec in Hodd. destruct Hodd as [c Hc].
    destruct (Z.compare_spec (2 * r + 1) D); cbn; lia.
Qed.

Lemma shr_record_of_loc_m (m : Z) (l : location) : shr_m (shr_record_of_loc m l) = m.
Proof. destruct l as [|[]]; reflexivity. Qed.

Lemma loc_of_shr_record_of_loc (m : Z) (l : location) :
  loc_of_shr_record (shr_record_of_loc m l) = l.
Proof. destruct l as [|[]]; reflexivity. Qed.

(** The second normalisation step of [binary_round_aux]: at most one
    more shift, when rounding carried into bit 54. *)
Lemma renormalise (m1 e : Z) :
  2 ^ 52 <= m1 <= 2 ^ 53 -> -1074 <= e <= 960 ->
  exists (m : positive) (k : Z),
    shr_fexp prec emax m1 e loc_Exact
    = ({| shr_m := Zpos m; shr_r := false; shr_s := false |}, e + k)
    /\ 0 <= k <= 1 /\ Zpos m * 2 ^ k = m1 /\ 2 ^ 52 <= Zpos m < 2 ^ 53.
Proof.
  intros Hm He. destruct m1 as [|p|p]; try lia.
  unfold shr_fexp. cbn [Zdigits2 shr_record_of_loc].
  destruct (Z.eq_dec (Zpos p) (2 ^ 53)) as [Heq|Hne].
  - assert (Hd : Zpos (digits2_pos p) = 54) by (apply digits2_unique; rewrite Heq; split; [reflexivity|reflexivity]).
    rewrite Hd.
    assert (Hf : fexp prec emax (54 + e) - e = 1)
      by (unfold fexp, SpecFloat.emin, prec, emax; lia).
    rewrite Hf. cbn [shr iter_pos].
    injection Heq as ->. cbn [shr_1 orb].
    eexists _, 1. split; [reflexivity|]. repeat split; try lia; reflexivity.
  - assert (Hd : Zpos (digits2_pos p) = 53) by (apply digits2_unique; change (53 - 1) with 52; lia).
    rewrite Hd.
    assert (Hf : fexp prec emax (53 + e) - e = 0)
      by (unfold fexp, SpecFloat.emin, prec, emax; lia).
    rewrite Hf. cbn [shr].
    exists p, 0. rewrite Z.add_0_r. repeat split; try lia.
Qed.

Lemma round_nearest_even_step (m : Z) (l : location) :
  round_nearest_even m l = m \/ round_nearest_even m l = m + 1.
Proof.
  destruct l as [|[]]; cbn; auto. destruct (Z.even m); auto.
Qed.

Lemma round_nearest_even_error (q r D : Z) (l : location) :
  0 < D -> 0 <= r < D -> loc_ok l r D ->
  Z.abs (2 * (round_nearest_even q l * D - (q * D + r))) <= D.
Proof.
  intros HD Hr Hl. destruct l as [|[]]; cbn in Hl |- *.
  - subst r. replace (2 * (q * D - (q * D + 0))) with 0 by ring. cbn. lia.
  - destruct (Z.even q).
    + replace (2 * (q * D - (q * D + r))) with (- (2 * r)) by ring. lia.
    + replace (2 * ((q + 1) * D - (q * D + r))) with (2 * D - 2 * r) by ring. lia.
  - replace (2 * (q * D - (q * D + r))) with (- (2 * r)) by ring. lia.
  - replace (2 * ((q + 1) * D - (q * D + r))) with (2 * D - 2 * r) by ring. lia.
Qed.

(** After one shift: the bit shifted out and the old location give the
    new location, and rounding on it errs by at most [D] in units of the
    old last place, that is half a unit of the new one. *)
Lemma shifted_round_error (h : positive) (b : bool) (r D : Z) (l : location) :
  0 < D -> 0 <= r < D -> loc_ok l r D ->
  let q := if b then Zpos h~1 else Zpos h~0 in
  let mrs := shr_1 (shr_record_of_loc q l) in
  shr_m mrs = Zpos h
  /\ Z.abs (2 * (round_nearest_even (shr_m mrs) (loc_of_shr_record mrs) * 2 * D
                 - (q * D + r))) <= 2 * D.
Proof.
  intros HD Hr Hl. cbn zeta.
  destruct b; destruct l as [|[]]; cbn in Hl |- *; (split; [reflexivity|]);
    try change (Zpos h~1) with (2 * Zpos h + 1);
    try change (Zpos h~0) with (2 * Zpos h);
    repeat match goal with |- context [if ?c then _ else _] => destruct c end;
    apply Z.abs_le; split; nia.
Qed.

(** Rounding a quotient [q + r / D] of 53 or 54 bits: the result has a
    53-bit mantissa and misses the quotient by at most half a unit in its
    last place. *)
Lemma round_quotient (s : bool) (q r D e : Z) (l : location) :
  2 ^ 52 <= q < 2 ^ 54 -> 0 < D -> 0 <= r < D -> loc_ok l r D ->
  -1074 <= e <= 900 ->
  exists (m : positive) (k : Z),
    binary_round_aux prec emax s q e l = S754_finite s m (e + k)
    /\ 0 <= k <= 2
    /\ Z.abs (2 * (Zpos m * 2 ^ k * D - (q * D + r))) <= 2 ^ k * D.
Proof.
  intros Hq HD Hr Hl He. destruct q as [|p|p]; try lia.
  unfold binary_round_aux.
  assert (Hfin : forall (m1 e1 k0 : Z),
             2 ^ 52 <= m1 <= 2 ^ 53 -> e1 = e + k0 -> 0 <= k0 <= 1 ->
             Z.abs (2 * (m1 * 2 ^ k0 * D - (Zpos p * D + r))) <= 2 ^ k0 * D ->
             exists (m : positive) (k : Z),
               (let '(mrs'', e'') := shr_fexp prec emax m1 e1 loc_Exact in
                match shr_m mrs'' with
                | 0 => S754_zero s
                | Zpos m => if e'' <=? emax - prec then S754_finite s m e''
                            else S754_infinity s
                | Zneg _ => S754_nan
                end) = S754_finite s m (e + k)
               /\ 0 <= k <= 2
               /\ Z.abs (2 * (Zpos m * 2 ^ k * D - (Zpos p * D + r))) <= 2 ^ k * D).
  { intros m1 e1 k0 Hm1 -> Hk0 Hb.
    destruct (renormalise m1 (e + k0) Hm1 ltac:(lia)) as (m & k1 & Hs & Hk1 & Hv & Hm).
    rewrite Hs. cbn [shr_m].
    assert (Hle : (e + k0 + k1 <=? emax - prec) = true)
      by (apply Z.leb_le; unfold emax, prec; lia).
    rewrite Hle. exists m, (k0 + k1). split; [f_equal; lia|]. split; [lia|].
    rewrite Z.pow_add_r by lia.
    replace (Zpos m * (2 ^ k0 * 2 ^ k1) * D) with (Zpos m * 2 ^ k1 * 2 ^ k0 * D) by ring.
    rewrite Hv.
    assert (0 < 2 ^ k1) by (apply Z.pow_pos_nonneg; lia).
    assert (0 < 2 ^ k0) by (apply Z.pow_pos_nonneg; lia).
    nia. }
  destruct (Z.lt_ge_cases (Zpos p) (2 ^ 53)) as [Hlt|Hge].
  - (* 53 bits: no shift *)
    assert (Hd : Zpos (digits2_pos p) = 53)
      by (apply digits2_unique; change (53 - 1) with 52; lia).
    unfold shr_fexp at 1. cbn [Zdigits2]. rewrite Hd.
    assert (Hf : fexp prec emax (53 + e) - e = 0)
      by (unfold fexp, SpecFloat.emin, prec, emax; lia).
    rewrite Hf. cbn [shr].
    rewrite shr_record_of_loc_m, loc_of_shr_record_of_loc.
    apply (Hfin (round_nearest_even (Zpos p) l) e 0); [|lia|lia|].
    + destruct (round_nearest_even_step (Zpos p) l) as [-> | ->]; lia.
    + pose proof (round_nearest_even_error (Zpos p) r D l HD Hr Hl).
      change (2 ^ 0) with 1. rewrite !Z.mul_1_r, Z.mul_1_l. exact H.
  - (* 54 bits: one shift *)
    assert (Hd : Zpos (digits2_pos p) = 54)
      by (apply digits2_unique; change (54 - 1) with 53; lia).
    unfold shr_fexp at 1. cbn [Zdigits2]. rewrite Hd.
    assert (Hf : fexp prec emax (54 + e) - e = 1)
      by (unfold fexp, SpecFloat.emin, prec, emax; lia).
    rewrite Hf. cbn [shr iter_pos].
    assert (Hp : exists (h : positive) (b : bool), p = (if b then h~1 else h~0)%positive).
    { destruct p as [h|h|]; [exists h, true|exists h, false|]; try reflexivity.
      exfalso. cbn in Hge. lia. }
    destruct Hp as (h & b & ->).
    pose proof (shifted_round_error h b r D l HD Hr Hl) as Hsh. cbn zeta in Hsh.
    replace (if b then Zpos h~1 else Zpos h~0)
      with (Zpos (if b then h~1 else h~0)%positive) in Hsh by (destruct b; reflexivity).
    destruct Hsh as [Hm Herr].
    set (mrs := shr_1 (shr_record_of_loc (Zpos (if b then h~1 else h~0)%positive) l)) in *.
    apply (Hfin (round_nearest_even (shr_m mrs) (loc_of_shr_record mrs)) (e + 1) 1);
      [|reflexivity|lia|].
    + rewrite Hm.
      assert (2 ^ 52 <= Zpos h < 2 ^ 53).
      { destruct b; [change (Zpos h~1) with (2 * Zpos h + 1) in *
                    |change (Zpos h~0) with (2 * Zpos h) in *];
          change (2 ^ 54) with (2 * 2 ^ 53) in *; change (2 ^ 53) with (2 * 2 ^ 52) in *; lia. }
      destruct (round_nearest_even_step (Zpos h) (loc_of_shr_record mrs))
        as [-> | ->]; lia.
    + change (2 ^ 1) with 2. exact Herr.
Qed.

(** Division of two normal doubles of moderate exponent: the result is
    normal and within half a unit in the last place of the quotient. *)
Lemma SFdiv_normal (sx sy : bool) (mx my : positive) (ex ey : Z) :
  Zpos (digits2_pos mx) = 53 -> Zpos (digits2_pos my) = 53 ->
  -100 <= ex <= 0 -> -100 <= ey <= 0 ->
  exists (m : positive) (k : Z),
    SFdiv prec emax (S754_finite sx mx ex) (S754_finite sy my ey)
    = S754_finite (xorb sx sy) m (ex - ey - 53 + k)
    /\ 0 <= k <= 2
    /\ Z.abs (2 * (Zpos m * 2 ^ k * Zpos my - Zpos mx * 2 ^ 53)) <= 2 ^ k * Zpos my.
Proof.
  intros Hdx Hdy Hex Hey.
  pose proof (digits2_bounds mx) as Hbx. rewrite Hdx in Hbx. change (53 - 1) with 52 in Hbx.
  pose proof (digits2_bounds my) as Hby. rewrite Hdy in Hby. change (53 - 1) with 52 in Hby.
  cbn [SFdiv]. unfold SFdiv_core_binary. cbn [Zdigits2]. rewrite Hdx, Hdy.
  assert (He' : Z.min (fexp prec emax (53 + ex - (53 + ey))) (ex - ey) = ex - ey - 53)
    by (unfold fexp, SpecFloat.emin, prec, emax; lia).
  rewrite He'. replace (ex - ey - (ex - ey - 53)) with 53 by lia.
  rewrite Z.shiftl_mul_pow2 by lia.
  pose proof (Z.div_eucl_eq (Zpos mx * 2 ^ 53) (Zpos my) ltac:(lia)) as Heq.
  pose proof (Z.mod_pos_bound (Zpos mx * 2 ^ 53) (Zpos my) ltac:(lia)) as Hrem.
  unfold Z.modulo in Hrem.
  destruct (Z.div_eucl (Zpos mx * 2 ^ 53) (Zpos my)) as [q r].
  assert (Hq : 2 ^ 52 <= q < 2 ^ 54).
  { change (2 ^ 54) with (2 * (2 * 2 ^ 52)) in *.
    change (2 ^ 53) with (2 * 2 ^ 52) in *.
    assert (HS : 0 < 2 ^ 52) by reflexivity.
    generalize dependent (2 ^ 52). intros S Hbx Hby Heq HS.
    split.
    - destruct (Z.le_gt_cases S q) as [|Hlt]; [assumption|exfalso].
      assert (Zpos my * (q + 1) <= Zpos my * S)
        by (apply Z.mul_le_mono_nonneg_l; lia).
      assert (Zpos my * S < 2 * S * S) by (apply Z.mul_lt_mono_pos_r; lia).
      assert (S * (2 * S) <= Zpos mx * (2 * S))
        by (apply Z.mul_le_mono_nonneg_r; lia).
      lia.
    - destruct (Z.lt_ge_cases q (2 * (2 * S))) as [|Hge]; [assumption|exfalso].
      assert (Zpos my * (2 * (2 * S)) <= Zpos my * q)
        by (apply Z.mul_le_mono_nonneg_l; lia).
      assert (S * (2 * (2 * S)) <= Zpos my * (2 * (2 * S)))
        by (apply Z.mul_le_mono_nonneg_r; lia).
      assert (Zpos mx * (2 * S) < 2 * S * (2 * S))
        by (apply Z.mul_lt_mono_pos_r; lia).
      lia. }
  destruct (round_quotient (xorb sx sy) q r (Zpos my) (ex - ey - 53)
              (new_location (Zpos my) r) Hq ltac:(lia) Hrem
              (new_location_ok (Zpos my) r ltac:(lia) Hrem) ltac:(lia))
    as (m & k & Hres & Hk & Hb).
  exists m, k. split; [exact Hres|]. split; [exact Hk|].
  rewrite Heq. replace (Zpos my * q + r) with (q * Zpos my + r) by ring. exact Hb.
Qed.

(** The arithmetic heart: a mantissa [m] over [2 * H2] that is within
    half a unit of [A / B] rounds, half away from zero, to the same
    integer as [A / B] itself, as long as the unit is finer than [1 / B]. *)
Lemma nearest_integer_agrees (A B m H2 : Z) :
  0 <= A -> 0 < B -> 0 < H2 -> B < 2 * H2 ->
  Z.abs (2 * m * B - 2 * A * (2 * H2)) <= B ->
  (m + H2) / (2 * H2) = (2 * A + B) / (2 * B).
Proof.
  intros HA HB HH HBH Hb.
  set (K := (2 * A + B) / (2 * B)).
  assert (HK : 2 * B * K <= 2 * A + B < 2 * B * K + 2 * B).
  { pose proof (Z.div_mod (2 * A + B) (2 * B) ltac:(lia)) as E.
    pose proof (Z.mod_pos_bound (2 * A + B) (2 * B) ltac:(lia)) as R.
    fold K in E. lia. }
  symmetry. apply Z.div_unique with (r := m + H2 - 2 * H2 * K); [|lia].
  left. apply Z.abs_le in Hb. destruct Hb as [Hlo Hhi].
  split.
  - (* lower: (2K - 1) * H2 <= m *)
    assert (H1 : (2 * K - 1) * B * (2 * H2) <= 2 * A * (2 * H2))
      by (apply Z.mul_le_mono_nonneg_r; lia).
    assert (H2' : B * ((2 * K - 1) * (2 * H2) - 1) <= B * (2 * m)) by lia.
    apply Z.mul_le_mono_pos_l in H2'; lia.
  - (* upper: m < (2K + 1) * H2 *)
    assert (H1 : 2 * A * (2 * H2) <= ((2 * K + 1) * B - 1) * (2 * H2))
      by (apply Z.mul_le_mono_nonneg_r; lia).
    assert (H2' : B * (2 * m) < B * ((2 * K + 1) * (2 * H2))) by lia.
    apply Z.mul_lt_mono_pos_l in H2'; lia.
Qed.

Lemma Prim2SF_of_Z_nonzero (a : Z) :
  a <> 0 -> Z.abs a < 2 ^ 53 ->
  exists (m : positive) (d : Z),
    Prim2SF (F64.of_Z a) = S754_finite (a <? 0) m (d - 53)
    /\ Zpos (digits2_pos m) = 53
    /\ 2 ^ (d - 1) <= Z.abs a < 2 ^ d
    /\ Zpos m = Z.abs a * 2 ^ (53 - d).
Proof.
  intros Ha Hlt. destruct a as [|p|p]; [contradiction| |].
  - destruct (Prim2SF_of_pos p Hlt) as (m & Hm & Hd & Hv).
    exists m, (Zpos (digits2_pos p)). repeat split; try assumption;
      apply (digits2_bounds p).
  - destruct (Prim2SF_of_pos p Hlt) as (m & Hm & Hd & Hv).
    exists m, (Zpos (digits2_pos p)).
    change (F64.of_Z (Zneg p)) with (PrimFloat.opp (F64.of_Z (Zpos p))).
    rewrite FloatAxioms.opp_spec, Hm.
    repeat split; try assumption; apply (digits2_bounds p).
Qed.

Lemma trunc_signed (s : bool) (K : Z) :
  0 <= K < 2 ^ 53 ->
  F64.trunc (if s then PrimFloat.opp (F64.of_Z K) else F64.of_Z K)
  = Some (if s then - K else K).
Proof.
  intros HK. unfold F64.trunc.
  destruct (Z.eq_dec K 0) as [->|Hne].
  - destruct s; reflexivity.
  - destruct (Prim2SF_of_Z_nonzero K Hne ltac:(lia)) as (m & d & Hm & Hd & Hb & Hv).
    assert (Hs : (K <? 0) = false) by (apply Z.ltb_ge; lia). rewrite Hs in Hm.
    rewrite Z.abs_eq in Hb, Hv by lia.
    assert (Hd53 : 1 <= d <= 53).
    { split.
      - destruct (Z.le_gt_cases 1 d); [assumption|].
        assert (2 ^ d <= 2 ^ 0) by (apply Z.pow_le_mono_r; lia).
        change (2 ^ 0) with 1 in *. lia.
      - destruct (Z.le_gt_cases d 53); [assumption|].
        assert (2 ^ 53 <= 2 ^ (d - 1)) by (apply Z.pow_le_mono_r; lia). lia. }
    assert (Hmag : (if 0 <=? d - 53 then Zpos m * 2 ^ (d - 53)
                    else Zpos m / 2 ^ (- (d - 53))) = K).
    { destruct (Z.leb_spec 0 (d - 53)).
      - replace (d - 53) with 0 by lia. rewrite Hv. replace (53 - d) with 0 by lia.
        change (2 ^ 0) with 1. lia.
      - rewrite Hv. replace (- (d - 53)) with (53 - d) by lia.
        apply Z.div_mul. apply Z.pow_nonzero; lia. }
    destruct s.
    + rewrite FloatAxioms.opp_spec, Hm. cbn [SFopp negb]. now rewrite Hmag.
    + rewrite Hm. now rewrite Hmag.
Qed.

Lemma digits_range (a d hi : Z) :
  1 <= Z.abs a < 2 ^ hi -> 0 <= hi -> 2 ^ (d - 1) <= Z.abs a < 2 ^ d -> 1 <= d <= hi.
Proof.
  intros Ha Hhi Hd. split.
  - destruct (Z.le_gt_cases 1 d); [assumption|].
    assert (2 ^ d <= 2 ^ 0) by (apply Z.pow_le_mono_r; lia).
    change (2 ^ 0) with 1 in *. lia.
  - destruct (Z.le_gt_cases d hi); [assumption|].
    assert (2 ^ hi <= 2 ^ (d - 1)) by (apply Z.pow_le_mono_r; lia). lia.
Qed.

(** Dividing two integers of at most 32 bits in doubles, then
    [std::round], then the cast to [i32], gives the integer nearest to
    the exact quotient, halfway cases away from zero. *)
Lemma round_of_quotient (a b : Z) :
  a <> 0 -> b <> 0 -> Z.abs a < 2 ^ 31 -> Z.abs b < 2 ^ 32 ->
  F64.to_i32 (F64.round (F64.of_Z a / F64.of_Z b)%float)
  = Some (round_half_away a b).
Proof.
  intros Ha Hb HA HB.
  destruct (Prim2SF_of_Z_nonzero a Ha) as (mx & dA & Hmx & Hdx & HbA & Hvx).
  { apply Z.lt_trans with (2 ^ 31); [assumption|reflexivity]. }
  destruct (Prim2SF_of_Z_nonzero b Hb) as (my & dB & Hmy & Hdy & HbB & Hvy).
  { apply Z.lt_trans with (2 ^ 32); [assumption|reflexivity]. }
  set (A := Z.abs a) in *. set (B := Z.abs b) in *.
  assert (HdA : 1 <= dA <= 31) by (apply (digits_range a); [fold A|lia|assumption]; lia).
  assert (HdB : 1 <= dB <= 32) by (apply (digits_range b); [fold B|lia|assumption]; lia).
  destruct (SFdiv_normal (a <? 0) (b <? 0) mx my (dA - 53) (dB - 53) Hdx Hdy
              ltac:(lia) ltac:(lia)) as (m & k & Hdiv & Hk & Hbound).
  set (E := dA - 53 - (dB - 53) - 53 + k) in *.
  assert (HE : E < 0) by (subst E; lia).
  set (H2 := 2 ^ (- E - 1)).
  assert (HH2 : 0 < H2) by (apply Z.pow_pos_nonneg; lia).
  assert (HH : 2 ^ (- E) = 2 * H2).
  { subst H2. replace (- E) with (Z.succ (- E - 1)) at 1 by lia.
    apply Z.pow_succ_r. lia. }
  set (K := (2 * A + B) / (2 * B)).
  assert (HK : (Zpos m + H2) / 2 ^ (- E) = K).
  { rewrite HH. apply nearest_integer_agrees; try lia.
    - (* the unit is finer than 1 / B *)
      rewrite <- HH.
      apply Z.lt_le_trans with (2 ^ dB); [lia|].
      apply Z.pow_le_mono_r; subst E; lia.
    - (* the error bound, freed of the common power of two *)
      rewrite <- HH. rewrite Hvx, Hvy in Hbound.
      set (P := 2 ^ (53 - dB)) in *. set (Q := 2 ^ (53 - dA)) in *.
      set (Pk := 2 ^ k) in *. set (Hh := 2 ^ (- E)) in *.
      assert (Hid : Hh * (Pk * P) = Q * 2 ^ 53).
      { subst Hh Pk P Q E. rewrite <- !Z.pow_add_r by lia. f_equal. lia. }
      assert (Hc : 0 < Pk * P).
      { apply Z.mul_pos_pos; apply Z.pow_pos_nonneg; lia. }
      set (X := 2 * Zpos m * B - 2 * A * Hh).
      assert (Hx : 2 * (Zpos m * Pk * (B * P) - A * Q * 2 ^ 53) = Pk * P * X).
      { replace (A * Q * 2 ^ 53) with (A * (Q * 2 ^ 53)) by ring.
        rewrite <- Hid. subst X. ring. }
      rewrite Hx in Hbound.
      replace (Pk * (B * P)) with (Pk * P * B) in Hbound by ring.
      rewrite Z.abs_mul, (Z.abs_eq (Pk * P)) in Hbound by lia.
      apply Z.mul_le_mono_pos_l in Hbound; assumption. }
  (* the program, step by step *)
  unfold F64.round.
  rewrite FloatAxioms.div_spec, Hmx, Hmy. unfold SF64div. rewrite Hdiv.
  fold E. destruct (Z.leb_spec 0 E) as [Hge|_]; [lia|].
  fold H2. rewrite HK.
  assert (HKA : 0 <= K <= A).
  { subst K. split.
    - apply Z.div_pos; lia.
    - assert ((2 * A + B) / (2 * B) < A + 1); [|lia].
      apply Z.div_lt_upper_bound; [lia|]. nia. }
  unfold F64.to_i32. rewrite trunc_signed.
  2:{ split; [lia|]. apply Z.le_lt_trans with A; [lia|].
      apply Z.lt_trans with (2 ^ 31); [assumption|reflexivity]. }
  assert (Hval : (if xorb (a <? 0) (b <? 0) then - K else K) = round_half_away a b).
  { unfold round_half_away. fold A B K.
    destruct (Z.ltb_spec a 0), (Z.ltb_spec b 0); cbn [xorb];
      rewrite ?(Z.sgn_neg a), ?(Z.sgn_pos a), ?(Z.sgn_neg b), ?(Z.sgn_pos b) by lia; lia. }
  rewrite Hval.
  assert (Hin : F64.in_i32 (round_half_away a b) = true).
  { rewrite <- Hval. unfold F64.in_i32. apply andb_true_intro.
    change (2 ^ 31) with 2147483648 in *.
    split; [apply Z.leb_le|apply Z.leb_le]; destruct (xorb _ _); lia. }
  now rewrite Hin.
Qed.

(* ===================================================================== *)
(** * Properties of the orchestrator *)
(* ===================================================================== *)

(** ** Heatmap normalisation *)

Lemma all_from_spec (n : nat) :
  forall z p, all_from n z p = true ->
  forall x, z <= x < z + Z.of_nat n -> p x = true.
Proof.
  induction n as [|n IH]; intros z p H x Hx; [lia|].
  cbn [all_from] in H. apply andb_prop in H as [H1 H2].
  destruct (Z.eq_dec x z) as [->|Hne]; [exact H1|].
  apply (IH (z + 1) p H2). lia.
Qed.

(** Every byte range with [z_min < z_max], and every cell inside it,
    checked by running the normalisation. *)
Lemma all_cells_ok :
  all_from 256 0 (fun z_min =>
    all_from (Z.to_nat (255 - z_min)) (z_min + 1) (fun z_max =>
      all_from (Z.to_nat (z_max - z_min + 1)) z_min (fun u =>
        cell_ok z_min z_max u))) = true.
Proof. vm_compute. reflexivity. Qed.

Lemma cell_in_unit (z_min z_max u : Z) :
  is_u8 z_min -> is_u8 z_max -> z_min < z_max -> z_min <= u <= z_max ->
  cell_ok z_min z_max u = true.
Proof.
  unfold is_u8. intros Hmin Hmax Hlt Hu.
  pose proof all_cells_ok as H.
  apply all_from_spec with (x := z_min) in H; [|lia].
  apply all_from_spec with (x := z_max) in H; [|lia].
  apply all_from_spec with (x := u) in H; [exact H|lia].
Qed.

Lemma lookup_map {A B : Type} (f : A -> B) (l : list A) (i : nat) :
  List.map f l !! i = f <$> (l !! i).
Proof.
  revert i. induction l as [|a l IH]; intros [|i]; simpl; auto.
Qed.

(** C1 (as amended). For a frame with [z_min < z_max], cell [i] of the
    normalised heatmap is [1 - (u - z_min) / (z_max - z_min)] computed in
    doubles from the raw cell [u], with no clamping step; the result lies
    in [0, 1] whenever the raw cell lies in [z_min, z_max]. *)
Theorem normalize_cell_formula_and_range (h : Heatmap) (i : nat) (u : Z) :
  is_u8 (dim_z_min (hm_dim h)) ->
  is_u8 (dim_z_max (hm_dim h)) ->
  dim_z_min (hm_dim h) < dim_z_max (hm_dim h) ->
  firstn (Z.to_nat (dim_height (hm_dim h) * dim_width (hm_dim h))) (hm_data h) !! i
    = Some u ->
  img_cells (normalize h) !! i
    = Some (1 - (F64.of_Z u - F64.of_Z (dim_z_min (hm_dim h)))
                / (F64.of_Z (dim_z_max (hm_dim h)) - F64.of_Z (dim_z_min (hm_dim h))))%float
  /\ (dim_z_min (hm_dim h) <= u <= dim_z_max (hm_dim h) ->
      forall n, img_cells (normalize h) !! i = Some n -> F64.in_unit n = true).
Proof.
  intros Hmin Hmax Hlt Hu.
  assert (Hcell : img_cells (normalize h) !! i
                  = Some (normalize_cell (F64.of_Z (dim_z_min (hm_dim h)))
                            (F64.of_Z (dim_z_max (hm_dim h))) u)).
  { unfold normalize. cbn [img_cells]. rewrite lookup_map, Hu. reflexivity. }
  split; [exact Hcell|].
  intros Hin n Hn. rewrite Hcell in Hn. injection Hn as <-.
  apply cell_in_unit; assumption.
Qed.

Lemma normalize_cell_formula_and_range_witness :
  img_cells (normalize Fixture.frame) !! 2%nat
    = Some (1 - (F64.of_Z 32 - F64.of_Z 0) / (F64.of_Z 255 - F64.of_Z 0))%float
  /\ (0 <= 32 <= 255 ->
      forall n, img_cells (normalize Fixture.frame) !! 2%nat = Some n ->
                F64.in_unit n = true).
Proof.
  apply (normalize_cell_formula_and_range Fixture.frame 2 32).
  - unfold is_u8. simpl. lia.
  - unfold is_u8. simpl. lia.
  - simpl. lia.
  - reflexivity.
Defined.

(** C1, as stated, fails: nothing clamps a cell that lies outside the
    range of the frame. With [z_min = 10], [z_max = 20] and a raw cell of
    30 the normalised cell is [1 - 20 / 10 = -1]. *)
Lemma normalize_does_not_clamp :
  ~ (cells_in_unit frame_out_of_range /\ zero_on_empty_range frame_out_of_range).
Proof.
  intros [H _].
  specialize (H (-1)%float (or_introl eq_refl)).
  vm_compute in H. discriminate H.
Qed.

(** With [z_max = z_min] the division is by zero: the cells are NaN or
    infinite, not zero. *)
Example normalize_flat_range :
  img_cells (normalize frame_flat_range) = [nan; neg_infinity].
Proof. reflexivity. Qed.

(** ** The palm rejection pass, the stylus path and the frame order *)

Section OrchestratorFacts.

Context {ContactsConfig Metadata DeviceInfo DftWindow : Type}.
Context {Cone Finder Dft : Type}.
Context `{!ConeOps Cone}.
Context `{!FinderOps ContactsConfig Finder}.
Context `{!DftOps ContactsConfig Metadata DftWindow Dft}.

Variable IPTS_MAX_X IPTS_MAX_Y : Z.
Variable read_record : list Z -> Record_ (DftWindow := DftWindow).

Abbreviation App := (Application (ContactsConfig := ContactsConfig)
                   (Metadata := Metadata) (DeviceInfo := DeviceInfo)
                   (Cone := Cone) (Finder := Finder) (Dft := Dft)).

Lemma valid_or_true_known_false (c : Contact) :
  valid_or_true c = negb (known_false c).
Proof.
  unfold valid_or_true, known_false. destruct (ct_valid c) as [[|]|]; reflexivity.
Qed.

Lemma feed_palms_spec (cfg : Config ContactsConfig) (cs : list Contact) :
  forall cone,
    feed_palms cfg cs cone
    = (cone_after_palms cfg cs cone,
       List.map (fun p => ConeUpdateDirection (fst (contact_phys cfg p))
                            (snd (contact_phys cfg p)))
         (List.filter known_false cs)).
Proof.
  unfold cone_after_palms.
  induction cs as [|c cs IH]; intros cone; [reflexivity|].
  cbn [feed_palms List.filter]. rewrite valid_or_true_known_false.
  destruct (known_false c); cbn [negb].
  - destruct (contact_phys cfg c) as [x y] eqn:E. rewrite IH.
    cbn [fold_left List.map fst snd]. rewrite E. reflexivity.
  - apply IH.
Qed.

Lemma mark_palms_spec (cfg : Config ContactsConfig) (cone : Cone) (cs : list Contact) :
  mark_palms cfg cone cs = List.map (judged cfg cone) cs.
Proof.
  induction cs as [|c cs IH]; [reflexivity|].
  cbn [mark_palms List.map]. rewrite valid_or_true_known_false, negb_involutive.
  unfold judged at 1. destruct (known_false c).
  - now rewrite IH.
  - destruct (contact_phys cfg c) as [x y]. now rewrite IH.
Qed.

Lemma run_frames_app (fs1 fs2 : list Frame) :
  forall app : App,
    run_frames IPTS_MAX_X IPTS_MAX_Y app (fs1 ++ fs2)
    = (fst (run_frames IPTS_MAX_X IPTS_MAX_Y
              (fst (run_frames IPTS_MAX_X IPTS_MAX_Y app fs1)) fs2),
       snd (run_frames IPTS_MAX_X IPTS_MAX_Y app fs1)
       ++ snd (run_frames IPTS_MAX_X IPTS_MAX_Y
                 (fst (run_frames IPTS_MAX_X IPTS_MAX_Y app fs1)) fs2)).
Proof.
  induction fs1 as [|f fs1 IH]; intros app.
  - cbn. now destruct (run_frames _ _ app fs2).
  - cbn [List.app run_frames].
    destruct (dispatch IPTS_MAX_X IPTS_MAX_Y app f) as [app1 evs1].
    rewrite IH.
    destruct (run_frames _ _ app1 fs1) as [app2 evs2]. cbn [fst snd].
    destruct (run_frames _ _ app2 fs2) as [app3 evs3]. cbn [fst snd].
    now rewrite <- List.app_assoc.
Qed.

Lemma parse_frames_of (fuel : nat) :
  forall (buf : list Z) (app : App),
    parse IPTS_MAX_X IPTS_MAX_Y read_record fuel buf app
    = (run_frames IPTS_MAX_X IPTS_MAX_Y app (fst (frames_of read_record fuel buf)),
       snd (frames_of read_record fuel buf)).
Proof.
  induction fuel as [|fuel IH]; intros buf app; [reflexivity|].
  cbn [parse frames_of]. destruct buf as [|b buf]; [reflexivity|].
  destruct (read_record (b :: buf)) as [f rest|rest|].
  - destruct (dispatch _ _ app f) as [app1 evs1] eqn:Ed.
    rewrite IH. destruct (frames_of read_record fuel rest) as [fs err].
    cbn [fst snd run_frames]. rewrite Ed.
    now destruct (run_frames _ _ app1 fs).
  - apply IH.
  - reflexivity.
Qed.

(** C2, the core half. The constructor of the application throws exactly
    when the configured width or height compares equal to zero. *)
Lemma Application_new_throws_iff (config : Config ContactsConfig)
    (info : DeviceInfo) (metadata : option Metadata) :
  (exists e, Application_new config info metadata = inl e)
  <-> (PrimFloat.eqb (width config) PrimFloat.zero = true
       \/ PrimFloat.eqb (height config) PrimFloat.zero = true).
Proof.
  unfold Application_new.
  destruct (PrimFloat.eqb (width config) PrimFloat.zero);
    destruct (PrimFloat.eqb (height config) PrimFloat.zero); cbn [orb];
    split; intros Hx; eauto;
    try (destruct Hx as [e He]; discriminate He);
    destruct Hx as [Hx|Hx]; discriminate Hx.
Qed.

(** C3. When the cone is not alive, or not active, or [touch_check_cone]
    is off, a heatmap frame delivers to [on_contacts] exactly the contacts
    the finder returned, validity fields included, and the cone is left
    as it was. *)
Theorem palm_pass_skipped (app : App) (data : Heatmap) :
  cone_alive (m_cone app) = false
  \/ cone_active (m_cone app) = false
  \/ touch_check_cone (m_config app) = false ->
  snd (process_heatmap app data) = [OnContacts (found_in app data)]
  /\ m_cone (fst (process_heatmap app data)) = m_cone app
  /\ List.map ct_valid (m_contacts (fst (process_heatmap app data)))
     = List.map ct_valid (found_in app data).
Proof.
  intros Hgate. unfold process_heatmap, found_in.
  destruct (finder_find (m_finder app) (normalize data) (m_contacts app))
    as [finder' found].
  unfold update_touch_cone. cbn [with_found m_cone m_config m_contacts snd].
  destruct (cone_alive (m_cone app)); cbn [negb];
    [|cbn; auto].
  destruct (cone_active (m_cone app)); cbn [negb];
    [|cbn; auto].
  destruct (touch_check_cone (m_config app)); cbn [negb];
    [|cbn; auto].
  destruct Hgate as [Hg|[Hg|Hg]]; discriminate Hg.
Qed.

(** C4. When the pass runs, the cone is first shown the physical position
    of every contact whose validity is known-false, in list order, and of
    no other contact; then every other contact gets the verdict of the
    updated cone at its physical position, known-false contacts staying
    as they are. *)
Theorem palm_pass_two_passes (app : App) (data : Heatmap) :
  cone_alive (m_cone app) = true ->
  cone_active (m_cone app) = true ->
  touch_check_cone (m_config app) = true ->
  snd (process_heatmap app data)
  = List.map (fun p => ConeUpdateDirection
                         (ct_mean_x p * width (m_config app))
                         (ct_mean_y p * height (m_config app)))
      (List.filter known_false (found_in app data))
    ++ [OnContacts
          (List.map (judged (m_config app)
                       (cone_after_palms (m_config app) (found_in app data) (m_cone app)))
             (found_in app data))]
  /\ m_cone (fst (process_heatmap app data))
     = cone_after_palms (m_config app) (found_in app data) (m_cone app).
Proof.
  intros Ha Hb Hc. unfold process_heatmap, found_in.
  destruct (finder_find (m_finder app) (normalize data) (m_contacts app))
    as [finder' found].
  unfold update_touch_cone. cbn [with_found m_cone m_config m_contacts snd].
  rewrite Ha, Hb, Hc. cbn [negb].
  rewrite feed_palms_spec, mark_palms_spec.
  cbn [with_contacts with_cone m_contacts m_cone fst snd].
  split; reflexivity.
Qed.

(** C5. A stylus frame moves the cone to
    [(x / IPTS_MAX_X * width, y / IPTS_MAX_Y * height)] and then hands the
    sample, as received, to [on_stylus]. *)
Theorem stylus_updates_cone_then_delivers (app : App) (data : StylusData) :
  let x := (F64.of_Z (st_x data) / F64.of_Z IPTS_MAX_X * width (m_config app))%float in
  let y := (F64.of_Z (st_y data) / F64.of_Z IPTS_MAX_Y * height (m_config app))%float in
  snd (process_stylus IPTS_MAX_X IPTS_MAX_Y app data)
  = [ConeUpdatePosition x y; OnStylus data]
  /\ m_cone (fst (process_stylus IPTS_MAX_X IPTS_MAX_Y app data))
     = cone_update_position (m_cone app) x y.
Proof.
  cbn zeta. unfold process_stylus, stylus_phys. cbn. split; reflexivity.
Qed.

(** C6. A DFT window is first given to the DFT stylus; the sample it then
    reports goes through [process_stylus] like a legacy stylus frame, so
    the cone moves to that sample and [on_stylus] receives it. *)
Theorem dft_goes_through_stylus_path (app : App) (data : DftWindow) :
  let dft' := dft_input (m_dft app) data in
  let sample := dft_get_stylus dft' in
  process_dft IPTS_MAX_X IPTS_MAX_Y app data
  = process_stylus IPTS_MAX_X IPTS_MAX_Y (with_dft app dft') sample
  /\ m_dft (fst (process_dft IPTS_MAX_X IPTS_MAX_Y app data)) = dft'
  /\ snd (process_dft IPTS_MAX_X IPTS_MAX_Y app data)
     = [ConeUpdatePosition
          (fst (stylus_phys IPTS_MAX_X IPTS_MAX_Y (m_config app) sample))
          (snd (stylus_phys IPTS_MAX_X IPTS_MAX_Y (m_config app) sample));
        OnStylus sample]
  /\ m_cone (fst (process_dft IPTS_MAX_X IPTS_MAX_Y app data))
     = cone_update_position (m_cone app)
         (fst (stylus_phys IPTS_MAX_X IPTS_MAX_Y (m_config app) sample))
         (snd (stylus_phys IPTS_MAX_X IPTS_MAX_Y (m_config app) sample)).
Proof.
  cbn zeta. unfold process_dft, process_stylus. cbn [with_dft m_config m_cone].
  destruct (stylus_phys _ _ (m_config app) _) as [x y].
  cbn. repeat split; reflexivity.
Qed.

(** C7. [process] handles the sub-frames of a buffer one after the other
    in buffer order, each on the state the previous ones left. So a
    heatmap frame that follows a stylus frame runs its palm pass on a cone
    that already holds that stylus position, and nothing that comes later
    in the buffer has touched the cone by then. *)
Theorem frames_handled_in_buffer_order :
  (forall (app : App) (data : list Z),
      process IPTS_MAX_X IPTS_MAX_Y read_record app data
      = (run_frames IPTS_MAX_X IPTS_MAX_Y app
           (fst (frames_of read_record (List.length data) data)),
         snd (frames_of read_record (List.length data) data)))
  /\ (forall (app : App) (pre post : list Frame) (f : Frame),
         let before := fst (run_frames IPTS_MAX_X IPTS_MAX_Y app pre) in
         let at_f := dispatch IPTS_MAX_X IPTS_MAX_Y before f in
         run_frames IPTS_MAX_X IPTS_MAX_Y app (pre ++ f :: post)
         = (fst (run_frames IPTS_MAX_X IPTS_MAX_Y (fst at_f) post),
            snd (run_frames IPTS_MAX_X IPTS_MAX_Y app pre)
            ++ snd at_f
            ++ snd (run_frames IPTS_MAX_X IPTS_MAX_Y (fst at_f) post)))
  /\ (forall (app : App) (pre post : list Frame) (s : StylusData) (h : Heatmap),
         let before := fst (run_frames IPTS_MAX_X IPTS_MAX_Y app pre) in
         let moved := fst (process_stylus IPTS_MAX_X IPTS_MAX_Y before s) in
         m_cone moved
         = cone_update_position (m_cone before)
             (fst (stylus_phys IPTS_MAX_X IPTS_MAX_Y (m_config before) s))
             (snd (stylus_phys IPTS_MAX_X IPTS_MAX_Y (m_config before) s))
         /\ run_frames IPTS_MAX_X IPTS_MAX_Y app (pre ++ FStylus s :: FHeatmap h :: post)
            = (fst (run_frames IPTS_MAX_X IPTS_MAX_Y (fst (process_heatmap moved h)) post),
               snd (run_frames IPTS_MAX_X IPTS_MAX_Y app pre)
               ++ snd (process_stylus IPTS_MAX_X IPTS_MAX_Y before s)
               ++ snd (process_heatmap moved h)
               ++ snd (run_frames IPTS_MAX_X IPTS_MAX_Y (fst (process_heatmap moved h)) post))).
Proof.
  split; [|split].
  - intros app data. unfold process, on_data. apply parse_frames_of.
  - intros app pre post f. cbn zeta. rewrite run_frames_app.
    cbn [run_frames].
    destruct (dispatch _ _ (fst (run_frames _ _ app pre)) f) as [a2 e2].
    cbn [fst snd]. now destruct (run_frames _ _ a2 post).
  - intros app pre post s h. cbn zeta. split.
    + unfold process_stylus.
      destruct (stylus_phys _ _ _ s) as [x y]. reflexivity.
    + rewrite run_frames_app. cbn [run_frames dispatch].
      destruct (process_stylus _ _ (fst (run_frames _ _ app pre)) s) as [a2 e2].
      cbn [fst snd].
      destruct (process_heatmap a2 h) as [a3 e3]. cbn [fst snd].
      destruct (run_frames _ _ a3 post) as [a4 e4]. reflexivity.
Qed.

End OrchestratorFacts.

(** ** Witnesses for the palm pass *)

Lemma palm_pass_skipped_witness :
  snd (process_heatmap (Fixture.app false) Fixture.frame)
  = [OnContacts (found_in (Fixture.app false) Fixture.frame)]
  /\ m_cone (fst (process_heatmap (Fixture.app false) Fixture.frame))
     = m_cone (Fixture.app false)
  /\ List.map ct_valid (m_contacts (fst (process_heatmap (Fixture.app false) Fixture.frame)))
     = List.map ct_valid (found_in (Fixture.app false) Fixture.frame).
Proof.
  apply (palm_pass_skipped (Fixture.app false) Fixture.frame).
  right. right. reflexivity.
Defined.

Lemma palm_pass_two_passes_witness :
  snd (process_heatmap (Fixture.app true) Fixture.frame)
  = [ConeUpdateDirection 93.75 125;
     OnContacts [Fixture.contact 0.0625 0.125 (Some false);
                 Fixture.contact 0.09375 0.25 (Some false);
                 Fixture.contact 0.5 0.75 (Some true)]].
Proof.
  pose proof (palm_pass_two_passes (Fixture.app true) Fixture.frame
                eq_refl eq_refl eq_refl) as [H _].
  rewrite H. reflexivity.
Defined.

(* ===================================================================== *)
(** * Properties of the device manager *)
(* ===================================================================== *)

Section DeviceManagerFacts.

Import Daemon.

Variable IPTS_MAX_X IPTS_MAX_Y IPTS_DIAGONAL : Z.
Context {TouchManager : Type}.
Variable TouchManager_new : IptsdConfig -> TouchManager.

Abbreviation Manager := (DeviceManager (TouchManager := TouchManager)).
Abbreviation switch := (switch_stylus IPTS_MAX_X IPTS_MAX_Y (TouchManager := TouchManager)).

Lemma find_serial_Some (l : list StylusDevice) (v : Z) :
  forall i j, find_serial l v i = Some j ->
  exists k s, j = (i + k)%nat /\ l !! k = Some s /\ serial s = v.
Proof.
  induction l as [|s l IH]; intros i j H; [discriminate H|].
  cbn [find_serial] in H. destruct (serial s =? v) eqn:E.
  - injection H as <-. exists 0%nat, s. repeat split; [lia|].
    now apply Z.eqb_eq.
  - destruct (IH _ _ H) as (k & s' & -> & Hk & Hs).
    exists (S k), s'. repeat split; [lia|exact Hk|exact Hs].
Qed.

Lemma find_serial_None (l : list StylusDevice) (v : Z) :
  forall i, find_serial l v i = None <-> (forall s, s ∈ l -> serial s <> v).
Proof.
  induction l as [|s l IH]; intros i; cbn [find_serial].
  - split; [|reflexivity]. intros _ s Hs. inversion Hs.
  - destruct (serial s =? v) eqn:E.
    + split; [discriminate|]. intros H. exfalso.
      apply (H s); [left|now apply Z.eqb_eq].
    + rewrite IH. apply Z.eqb_neq in E. split.
      * intros H s' Hs'. inversion Hs'; subst; auto.
      * intros H s' Hs'. apply H. now right.
Qed.

(** C10. After [switch_stylus serial] there is an active stylus and its
    serial is the argument. When a stylus with that serial exists already
    it becomes the active one and the vector of devices is unchanged.
    Otherwise, when the current active stylus has serial 0, that device is
    given the new serial, stays active, and no device is added. *)
Theorem switch_stylus_selects (m : Manager) (v : Z) :
  active_in_range m ->
  (exists a, active (switch m v) = Some a /\ serial a = v)
  /\ active_in_range (switch m v)
  /\ ((exists s, s ∈ styli m /\ serial s = v) ->
      styli (switch m v) = styli m)
  /\ ((forall s, s ∈ styli m -> serial s <> v) ->
      forall a, active m = Some a -> serial a = 0 ->
        styli (switch m v) = <[active_stylus m := set_serial a v]> (styli m)
        /\ active_stylus (switch m v) = active_stylus m
        /\ List.length (styli (switch m v)) = List.length (styli m)).
Proof.
  intros Hwf. unfold active_in_range, switch_stylus, active.
  destruct (find_serial (styli m) v 0) as [i|] eqn:Ef.
  - destruct (find_serial_Some _ _ _ _ Ef) as (k & s & -> & Hk & Hs).
    assert (Hin : s ∈ styli m) by now apply list_elem_of_lookup_2 with k.
    cbn [styli active_stylus]. split; [|split; [|split]].
    + exists s. now split.
    + right. apply lookup_lt_is_Some. now exists s.
    + reflexivity.
    + intros Hnone. exfalso. now apply (Hnone s).
  - assert (Hnone : forall s, s ∈ styli m -> serial s <> v)
      by now apply (find_serial_None _ _ 0%nat).
    assert (Hnew : forall l : list StylusDevice,
               (l ++ [set_serial (StylusDevice_new IPTS_MAX_X IPTS_MAX_Y (conf m)) v])
                 !! List.length l
               = Some (set_serial (StylusDevice_new IPTS_MAX_X IPTS_MAX_Y (conf m)) v)).
    { intros l. now apply list_lookup_middle. }
    destruct (styli m !! active_stylus m) as [a|] eqn:Ea.
    + assert (Hlt : (active_stylus m < List.length (styli m))%nat)
        by (apply lookup_lt_is_Some; now exists a).
      assert (Hpos : (0 <? Z.of_nat (List.length (styli m))) = true)
        by (apply Z.ltb_lt; lia).
      rewrite Hpos. cbn [andb]. destruct (serial a =? 0) eqn:Ez.
      * cbn [styli active_stylus]. split; [|split; [|split]].
        -- exists (set_serial a v). split; [|reflexivity].
           rewrite list_lookup_alter_eq, Ea. reflexivity.
        -- right. now rewrite length_alter.
        -- intros (s & Hs & Hv). exfalso. now apply (Hnone s).
        -- intros _ a' Ha' _. injection Ha' as <-.
           split; [|split; [reflexivity|apply length_alter]].
           apply list_eq. intros j. rewrite list_lookup_alter, list_lookup_insert.
           destruct (decide (active_stylus m = j)) as [<-|Hne].
           ++ rewrite Ea. cbn. destruct (decide _) as [|Hn]; [reflexivity|].
              exfalso. apply Hn. split; [reflexivity|exact Hlt].
           ++ destruct (decide _) as [[Heq _]|]; [contradiction|reflexivity].
      * cbn [styli active_stylus]. split; [|split; [|split]].
        -- eexists. split; [apply Hnew|reflexivity].
        -- right. rewrite length_app. cbn. lia.
        -- intros (s & Hs & Hv). exfalso. now apply (Hnone s).
        -- intros _ a' Ha' Hz. injection Ha' as <-.
           apply Z.eqb_neq in Ez. contradiction.
    + rewrite andb_false_r. cbn [styli active_stylus]. split; [|split; [|split]].
      * eexists. split; [apply Hnew|reflexivity].
      * right. rewrite length_app. cbn. lia.
      * intros (s & Hs & Hv). exfalso. now apply (Hnone s).
      * intros _ a' Ha'. discriminate Ha'.
Qed.

(** C2, the daemon half. The constructor of the device manager throws
    exactly when the configured width or height is zero. *)
Lemma DeviceManager_new_throws_iff (c : IptsdConfig) :
  (exists e, DeviceManager_new IPTS_MAX_X IPTS_MAX_Y IPTS_DIAGONAL TouchManager_new c = inl e)
  <-> (width c = 0 \/ height c = 0).
Proof.
  unfold DeviceManager_new.
  destruct (width c =? 0) eqn:Ew; destruct (height c =? 0) eqn:Eh; cbn [orb];
    rewrite ?Z.eqb_eq, ?Z.eqb_neq in *; split; intros Hx; eauto;
    try (destruct Hx as [e He]; discriminate He);
    destruct Hx as [Hx|Hx]; contradiction.
Qed.

End DeviceManagerFacts.

(** ** Resolution of the axes *)

Section DeviceFacts.

Import Daemon.

Variable IPTS_MAX_X IPTS_MAX_Y IPTS_DIAGONAL : Z.
Context {TouchManager : Type}.
Variable TouchManager_new : IptsdConfig -> TouchManager.

(** The X and Y axes of the stylus device carry [res] of the device range
    and the physical size. *)
Lemma stylus_axes_resolution (c : IptsdConfig) :
  let d := stylus_dev (StylusDevice_new IPTS_MAX_X IPTS_MAX_Y c) in
  absinfo_of d ABS_X
  = Some {| abs_axis := ABS_X; abs_min := 0; abs_max := IPTS_MAX_X;
            abs_res := res IPTS_MAX_X (width c) |}
  /\ absinfo_of d ABS_Y
     = Some {| abs_axis := ABS_Y; abs_min := 0; abs_max := IPTS_MAX_Y;
               abs_res := res IPTS_MAX_Y (height c) |}.
Proof. split; reflexivity. Qed.

(** Every X axis the touch device registers carries [res IPTS_MAX_X width]
    and every Y axis [res IPTS_MAX_Y height]. *)
Lemma touch_axes_resolution (c : IptsdConfig) :
  let d := touch_dev (TouchDevice_new IPTS_MAX_X IPTS_MAX_Y IPTS_DIAGONAL
                        TouchManager_new c) in
  (forall axis, In axis [ABS_X; ABS_MT_POSITION_X; ABS_MT_TOOL_X] ->
     absinfo_of d axis
     = Some {| abs_axis := axis; abs_min := 0; abs_max := IPTS_MAX_X;
               abs_res := res IPTS_MAX_X (width c) |})
  /\ (forall axis, In axis [ABS_Y; ABS_MT_POSITION_Y] ->
        absinfo_of d axis
        = Some {| abs_axis := axis; abs_min := 0; abs_max := IPTS_MAX_Y;
                  abs_res := res IPTS_MAX_Y (height c) |}).
Proof.
  split; intros axis Hin; cbn in Hin;
    repeat (destruct Hin as [<-|Hin]; [reflexivity|]); contradiction.
Qed.

(** The second tool axis is never registered: the constructor names
    [ABS_MT_TOOL_X] twice. *)
Example touch_tool_y_not_registered (c : IptsdConfig) :
  absinfo_of (touch_dev (TouchDevice_new IPTS_MAX_X IPTS_MAX_Y IPTS_DIAGONAL
                           TouchManager_new c)) ABS_MT_TOOL_Y = None.
Proof. reflexivity. Qed.

End DeviceFacts.

(** [round_half_away a b] is an integer nearest to [a / b]. *)
Lemma round_half_away_nearest (a b : Z) :
  b <> 0 -> 2 * Z.abs (round_half_away a b * b - a) <= Z.abs b.
Proof.
  intros Hb. unfold round_half_away.
  set (A := Z.abs a). set (B := Z.abs b).
  assert (HB : 0 < B) by (subst B; lia).
  set (K := (2 * A + B) / (2 * B)).
  assert (HK : 2 * B * K <= 2 * A + B < 2 * B * K + 2 * B).
  { pose proof (Z.div_mod (2 * A + B) (2 * B) ltac:(lia)) as E.
    pose proof (Z.mod_pos_bound (2 * A + B) (2 * B) ltac:(lia)) as R.
    fold K in E. lia. }
  assert (Hab : Z.sgn a * Z.sgn b * K * b - a = Z.sgn a * (K * B - A)).
  { clearbody K. subst A B.
    destruct (Z.lt_trichotomy a 0) as [Ha|[Ha|Ha]];
      destruct (Z.lt_trichotomy b 0) as [Hb'|[Hb'|Hb']]; try lia;
      rewrite ?(Z.sgn_neg a), ?(Z.sgn_pos a), ?(Z.sgn_neg b), ?(Z.sgn_pos b),
        ?(Z.abs_neq a), ?(Z.abs_eq a), ?(Z.abs_neq b), ?(Z.abs_eq b) by lia;
      try lia; subst a; cbn; lia. }
  rewrite Hab, Z.abs_mul.
  destruct (Z.eq_dec a 0) as [Ha|Ha].
  - subst A. rewrite Ha in *. cbn [Z.sgn Z.abs Z.mul]. lia.
  - replace (Z.abs (Z.sgn a)) with 1 by (destruct a; cbn; lia). lia.
Qed.

(** In a tie the result is the one further from zero. *)
Example round_half_away_ties :
  round_half_away 5 2 = 3 /\ round_half_away (-5) 2 = -3
  /\ round_half_away 5 (-2) = -3 /\ round_half_away 7 2 = 4.
Proof. repeat split; reflexivity. Qed.

(** C8. For a virtual range [virt] and a non-zero physical extent [phys]
    (both [i32], the product [virt * 10] within [i32]), [res] returns the
    exact quotient [virt * 10 / phys] rounded to the nearest integer,
    halfway cases away from zero. The X axes of the stylus and touch
    devices carry [res IPTS_MAX_X width] and their Y axes
    [res IPTS_MAX_Y height]. *)
Theorem resolution_is_rounded_quotient (virt phys : Z) :
  phys <> 0 ->
  F64.in_i32 (virt * 10) = true ->
  F64.in_i32 phys = true ->
  Daemon.res virt phys = Some (round_half_away (virt * 10) phys)
  /\ 2 * Z.abs (round_half_away (virt * 10) phys * phys - virt * 10) <= Z.abs phys
  /\ (forall (IPTS_MAX_X IPTS_MAX_Y IPTS_DIAGONAL : Z) (TouchManager : Type)
             (TouchManager_new : Daemon.IptsdConfig -> TouchManager)
             (c : Daemon.IptsdConfig),
         let stylus := Daemon.stylus_dev (Daemon.StylusDevice_new IPTS_MAX_X IPTS_MAX_Y c) in
         let touch := Daemon.touch_dev
                        (Daemon.TouchDevice_new IPTS_MAX_X IPTS_MAX_Y IPTS_DIAGONAL
                           TouchManager_new c) in
         Daemon.abs_res <$> Daemon.absinfo_of stylus Daemon.ABS_X
         = Some (Daemon.res IPTS_MAX_X (Daemon.width c))
         /\ Daemon.abs_res <$> Daemon.absinfo_of stylus Daemon.ABS_Y
            = Some (Daemon.res IPTS_MAX_Y (Daemon.height c))
         /\ (forall axis,
                In axis [Daemon.ABS_X; Daemon.ABS_MT_POSITION_X; Daemon.ABS_MT_TOOL_X] ->
                Daemon.abs_res <$> Daemon.absinfo_of touch axis
                = Some (Daemon.res IPTS_MAX_X (Daemon.width c)))
         /\ (forall axis,
                In axis [Daemon.ABS_Y; Daemon.ABS_MT_POSITION_Y] ->
                Daemon.abs_res <$> Daemon.absinfo_of touch axis
                = Some (Daemon.res IPTS_MAX_Y (Daemon.height c)))).
Proof.
  intros Hphys Hv Hp. split; [|split].
  - unfold Daemon.res, i32_checked. rewrite Hv.
    unfold F64.in_i32 in Hv, Hp.
    apply andb_prop in Hv as [Hv1 Hv2]. apply andb_prop in Hp as [Hp1 Hp2].
    apply Z.leb_le in Hv1, Hv2, Hp1, Hp2.
    change (2 ^ 31) with 2147483648 in *.
    destruct (Z.eq_dec virt 0) as [->|Hne].
    + (* a zero numerator: the quotient is a zero *)
      change (0 * 10) with 0.
      destruct (Prim2SF_of_Z_nonzero phys Hphys) as (m & d & Hm & _).
      { apply Z.lt_trans with (2 ^ 32); [change (2 ^ 32) with 4294967296; lia|reflexivity]. }
      assert (Hx : Prim2SF (F64.of_Z 0 / F64.of_Z phys)%float = S754_zero (phys <? 0)).
      { rewrite FloatAxioms.div_spec, Hm. reflexivity. }
      unfold F64.to_i32, F64.round. rewrite Hx.
      unfold F64.trunc. rewrite Hx. reflexivity.
    + apply round_of_quotient; lia.
  - now apply round_half_away_nearest.
  - intros X Y D TM TMnew c. cbn zeta.
    destruct (stylus_axes_resolution X Y c) as [Hx Hy]. cbn zeta in Hx, Hy.
    destruct (touch_axes_resolution X Y D TMnew c) as [Htx Hty]. cbn zeta in Htx, Hty.
    rewrite Hx, Hy. repeat split; try reflexivity.
    + intros axis Hin. now rewrite (Htx axis Hin).
    + intros axis Hin. now rewrite (Hty axis Hin).
Qed.

Lemma resolution_is_rounded_quotient_witness :
  Daemon.res 9600 2599 = Some 37.
Proof.
  destruct (resolution_is_rounded_quotient 9600 2599) as [H _].
  - discriminate.
  - reflexivity.
  - reflexivity.
  - exact H.
Defined.

(** ** Construction *)

(** C2. Constructing the application, and constructing the device manager,
    throws if and only if the configured width or the configured height is
    zero. *)
Theorem construction_throws_iff_zero_size :
  (forall (ContactsConfig Metadata DeviceInfo DftWindow Cone Finder Dft : Type)
          (cone_ops : ConeOps Cone)
          (finder_ops : FinderOps ContactsConfig Finder)
          (dft_ops : DftOps ContactsConfig Metadata DftWindow Dft)
          (config : Config ContactsConfig) (info : DeviceInfo)
          (metadata : option Metadata),
      (exists e, Application_new (DftWindow := DftWindow) config info metadata = inl e)
      <-> (PrimFloat.eqb (width config) PrimFloat.zero = true
           \/ PrimFloat.eqb (height config) PrimFloat.zero = true))
  /\ (forall (IPTS_MAX_X IPTS_MAX_Y IPTS_DIAGONAL : Z) (TouchManager : Type)
             (TouchManager_new : Daemon.IptsdConfig -> TouchManager)
             (c : Daemon.IptsdConfig),
         (exists e, Daemon.DeviceManager_new IPTS_MAX_X IPTS_MAX_Y IPTS_DIAGONAL
                      TouchManager_new c = inl e)
         <-> (Daemon.width c = 0 \/ Daemon.height c = 0)).
Proof.
  split.
  - intros. apply Application_new_throws_iff.
  - intros. apply DeviceManager_new_throws_iff.
Qed.

(** Both constructors at work: a zero height is refused, a proper size is
    accepted. *)
Example construction_examples :
  (exists e, Application_new (DeviceInfo := unit) (DftWindow := StylusData)
               {| width := 1000; height := 0; cone_angle := 1; cone_distance := 100;
                  touch_check_cone := true; contacts := tt |} tt None = inl e)
  /\ (exists a, Application_new (DeviceInfo := unit) (DftWindow := StylusData)
                  Fixture.config tt None = inr a).
Proof. split; eexists; reflexivity. Qed.

(** ** The active stylus *)

Example fresh_manager_constructed :
  Daemon.DeviceManager_new 9600 7200 12000 (fun _ => tt) display = inr fresh_manager.
Proof. reflexivity. Qed.

Lemma switch_stylus_selects_witness :
  (exists a, Daemon.active (Daemon.switch_stylus 9600 7200 fresh_manager 77) = Some a
             /\ Daemon.serial a = 77)
  /\ List.length (Daemon.styli (Daemon.switch_stylus 9600 7200 fresh_manager 77)) = 1%nat.
Proof.
  destruct (switch_stylus_selects 9600 7200 fresh_manager 77) as (Ha & _ & _ & Hz).
  - right. simpl. lia.
  - split; [exact Ha|].
    destruct (Hz (fun s Hs => ltac:(apply list_elem_of_singleton in Hs; subst s; discriminate))
                (Daemon.StylusDevice_new 9600 7200 display) eq_refl eq_refl)
      as (_ & _ & Hlen).
    exact Hlen.
Defined.

(** A serial-0 stylus that is active while another serial is known is not
    renamed: the known device is selected. *)
Example switch_prefers_known_serial :
  let m := Daemon.switch_stylus 9600 7200
             (Daemon.switch_stylus 9600 7200 fresh_manager 5) 0 in
  List.map Daemon.serial (Daemon.styli m) = [5; 0]
  /\ Daemon.active_stylus m = 1%nat
  /\ List.map Daemon.serial (Daemon.styli (Daemon.switch_stylus 9600 7200 m 5)) = [5; 0]
  /\ Daemon.active_stylus (Daemon.switch_stylus 9600 7200 m 5) = 0%nat.
Proof. repeat split; reflexivity. Qed.

(* ===================================================================== *)
(** * The read loop of the calibration tool *)
(* ===================================================================== *)

Import Calibrate.

(** C9. On [interrupted_failures] the loop aborts although no 50
    iterations in a row raised: the iteration without touch data
    completed without an exception and left the counter at 49, so the
    next failure brought it to 50. *)
Theorem loop_aborts_without_fifty_consecutive_errors :
  run 0 0 interrupted_failures = Aborted 51
  /\ longest_failing_run 0 0 interrupted_failures = 49%nat
  /\ errors_after (repeat ReadThrows 49) = 49
  /\ errors_after (repeat ReadThrows 49 ++ [NotTouchData]) = 49
  /\ errors_after (repeat ReadThrows 49 ++ [NotTouchData; ReadThrows]) = 50.
Proof. repeat split; reflexivity. Qed.

Lemma errors_count_trailing_failures (its : list Iteration) :
  Forall (fun it => it <> NotTouchData) its ->
  forall acc, fold_left step its acc = trailing_failures its acc.
Proof.
  induction 1 as [|it its Hit _ IH]; intros acc; [reflexivity|].
  cbn [fold_left trailing_failures]. rewrite IH.
  destruct it; try reflexivity. contradiction.
Qed.

(* ===================================================================== *)
(** * More on the read loop of the calibration tool *)
(* ===================================================================== *)

Import CalibrateMain.

Lemma fold_step_split (its : list Iteration) :
  forall acc,
    fold_left step its acc
    = if existsb parsed its then failures (after_last_parsed its)
      else acc + failures its.
Proof.
  unfold failures.
  induction its as [|it its IH]; intros acc; cbn [fold_left existsb after_last_parsed].
  - cbn. lia.
  - rewrite IH. destruct (existsb parsed its) eqn:E.
    + now rewrite orb_true_r.
    + rewrite orb_false_r. destruct it; cbn [parsed step List.filter raises List.length]; lia.
Qed.

(** X1. The counter at the head of the loop is the number of iterations that
    raised since the last report that was parsed (since the start when
    none was): reports without touch data neither count nor reset. *)
Theorem counter_counts_failures_since_last_parse (its : list Iteration) :
  errors_after its = failures (after_last_parsed its).
Proof.
  unfold errors_after. rewrite fold_step_split.
  destruct (existsb parsed its) eqn:E; [reflexivity|].
  assert (H : after_last_parsed its = its).
  { clear -E. induction its as [|it its IH]; [reflexivity|].
    cbn [existsb] in E. apply orb_false_elim in E as [E1 E2].
    cbn [after_last_parsed]. now rewrite E2, E1. }
  rewrite H. lia.
Qed.

Lemma step_bounds (e : Z) (it : Iteration) :
  0 <= e < 50 -> 0 <= step e it <= 50.
Proof. destruct it; cbn; lia. Qed.

(** X2. The counter stays within 0 and 50, so [errors++] cannot overflow: when
    the loop is stopped from outside the counter is what the iterations
    left, at most 50; when the loop aborts, it does so at the head of the
    first iteration that finds the counter at exactly 50. *)
Theorem counter_never_exceeds_fifty (its : list Iteration) (e : Z) (n : nat) :
  0 <= e <= 50 ->
  match run e n its with
  | Aborted r => exists k, (k < List.length its)%nat /\ r = (n + k)%nat
                           /\ fold_left step (firstn k its) e = 50
  | Stopped c => c = fold_left step its e /\ 0 <= c <= 50
  end.
Proof.
  revert e n. induction its as [|it its IH]; intros e n He; cbn [run].
  - cbn. lia.
  - destruct (Z.leb_spec 50 e).
    + exists 0%nat. cbn. repeat split; lia.
    + specialize (IH (step e it) (S n) (step_bounds e it ltac:(lia))).
      destruct (run (step e it) (S n) its) as [r|c].
      * destruct IH as (k & Hk & -> & Hf). exists (S k). cbn. repeat split; [lia|lia|exact Hf].
      * cbn [fold_left]. exact IH.
Qed.

Lemma counter_never_exceeds_fifty_witness :
  exists k, (k < List.length interrupted_failures)%nat /\ 51%nat = (0 + k)%nat
            /\ fold_left step (firstn k interrupted_failures) 0 = 50.
Proof.
  exact (counter_never_exceeds_fifty interrupted_failures 0 0
           (conj (Z.le_refl 0) (Zle_bool_imp_le 0 50 eq_refl))).
Defined.

Lemma failures_cons (it : Iteration) (its : list Iteration) :
  failures (it :: its) = (if raises it then 1 else 0) + failures its.
Proof. unfold failures. cbn [List.filter]. destruct (raises it); cbn [List.length]; lia. Qed.

Lemma failures_nonneg (its : list Iteration) : 0 <= failures its.
Proof. unfold failures. lia. Qed.

(** X3. With fewer than 50 failures in all, spread in any way, the loop is
    never aborted. *)
Theorem no_abort_below_fifty_failures (its : list Iteration) (e : Z) (n : nat) :
  0 <= e -> e + failures its < 50 ->
  run e n its = Stopped (fold_left step its e).
Proof.
  revert e n.
  induction its as [|it its IH]; intros e n He Hf; cbn [run fold_left]; [reflexivity|].
  rewrite failures_cons in Hf. pose proof (failures_nonneg its).
  destruct (Z.leb_spec 50 e); [destruct (raises it); lia|].
  apply IH; destruct it; cbn [step raises] in *; lia.
Qed.

Lemma no_abort_below_fifty_failures_witness :
  run 0 0 (repeat ReadThrows 48 ++ [NotTouchData; Parsed; ParseThrows]) = Stopped 1.
Proof.
  apply (no_abort_below_fifty_failures
           (repeat ReadThrows 48 ++ [NotTouchData; Parsed; ParseThrows]) 0 0).
  - lia.
  - vm_compute. reflexivity.
Defined.

Lemma run_all_failing (mid rest : list Iteration) :
  forall e n, Forall (fun it => raises it = true) mid ->
  0 <= e -> 50 <= e + Z.of_nat (List.length mid) -> rest <> [] ->
  exists r, run e n (mid ++ rest) = Aborted r /\ (n <= r <= n + List.length mid)%nat.
Proof.
  induction mid as [|it mid IH]; intros e n Hall He Hlen Hrest.
  - cbn [List.app]. destruct rest as [|it rest]; [contradiction|].
    cbn [run]. cbn in Hlen. destruct (Z.leb_spec 50 e); [|lia].
    exists n. split; [reflexivity|cbn; lia].
  - cbn [List.app run]. destruct (Z.leb_spec 50 e).
    + exists n. split; [reflexivity|cbn; lia].
    + inversion Hall as [|? ? Hit Hmid]; subst.
      assert (Hs : step e it = e + 1) by (destruct it; cbn in *; congruence).
      rewrite Hs. destruct (IH (e + 1) (S n) Hmid ltac:(lia)
                              ltac:(cbn [List.length] in Hlen; lia) Hrest)
        as (r & Hr & Hb).
      exists r. split; [exact Hr|cbn [List.length]; lia].
Qed.

Lemma run_prefix (pre rest : list Iteration) :
  forall e n,
    run e n (pre ++ rest) = run (fold_left step pre e) (n + List.length pre)%nat rest
    \/ exists r, run e n (pre ++ rest) = Aborted r /\ (r < n + List.length pre)%nat.
Proof.
  induction pre as [|it pre IH]; intros e n.
  - left. cbn. f_equal. lia.
  - cbn [List.app run fold_left List.length]. destruct (Z.leb_spec 50 e).
    + right. exists n. split; [reflexivity|lia].
    + destruct (IH (step e it) (S n)) as [H1|(r & Hr & Hb)].
      * left. rewrite H1. f_equal. lia.
      * right. exists r. split; [exact Hr|lia].
Qed.

Lemma fold_step_nonneg (its : list Iteration) :
  forall e, 0 <= e -> 0 <= fold_left step its e.
Proof.
  induction its as [|it its IH]; intros e He; [exact He|].
  cbn [fold_left]. apply IH. destruct it; cbn; lia.
Qed.

(** X4. Fifty iterations in a row that raise always abort the loop, whatever
    came before: at the latest at the head of the iteration after them. *)
Theorem fifty_failures_in_a_row_abort (pre mid post : list Iteration) :
  Forall (fun it => raises it = true) mid ->
  List.length mid = 50%nat -> post <> [] ->
  exists r, run 0 0 (pre ++ mid ++ post) = Aborted r
            /\ (r <= List.length pre + 50)%nat.
Proof.
  intros Hall Hlen Hpost.
  destruct (run_prefix pre (mid ++ post) 0 0) as [H|(r & Hr & Hb)].
  - rewrite H.
    destruct (run_all_failing mid post (fold_left step pre 0) (0 + List.length pre)%nat
                Hall (fold_step_nonneg pre 0 ltac:(lia))
                ltac:(pose proof (fold_step_nonneg pre 0 ltac:(lia)); lia) Hpost)
      as (r & Hr & Hb).
    exists r. split; [exact Hr|lia].
  - exists r. split; [exact Hr|lia].
Qed.

Lemma fifty_failures_in_a_row_abort_witness :
  exists r, run 0 0 ([ReadThrows; Parsed] ++ repeat ParseThrows 50 ++ [Parsed]) = Aborted r
            /\ (r <= 2 + 50)%nat.
Proof.
  apply (fifty_failures_in_a_row_abort [ReadThrows; Parsed] (repeat ParseThrows 50) [Parsed]).
  - apply List.Forall_forall. intros it Hit. apply repeat_spec in Hit. now subst it.
  - reflexivity.
  - discriminate.
Defined.




(* ===================================================================== *)
(** * Invariants of the device manager *)
(* ===================================================================== *)

Section ManagerInvariants.

Import Daemon.

Variable IPTS_MAX_X IPTS_MAX_Y IPTS_DIAGONAL : Z.
Context {TouchManager : Type}.
Variable TouchManager_new : IptsdConfig -> TouchManager.

Local Abbreviation Mgr := (DeviceManager (TouchManager := TouchManager)).
Local Abbreviation sw := (switch_stylus IPTS_MAX_X IPTS_MAX_Y (TouchManager := TouchManager)).

Lemma find_serial_first (l : list StylusDevice) (v : Z) :
  forall i j, find_serial l v i = Some j ->
  exists k s, j = (i + k)%nat /\ l !! k = Some s /\ serial s = v
              /\ forall k' s', (k' < k)%nat -> l !! k' = Some s' -> serial s' <> v.
Proof.
  induction l as [|s l IH]; intros i j H; [discriminate H|].
  cbn [find_serial] in H. destruct (serial s =? v) eqn:E.
  - injection H as <-. exists 0%nat, s. repeat split; [lia|now apply Z.eqb_eq|].
    intros k' s' Hk'. lia.
  - destruct (IH _ _ H) as (k & s' & -> & Hk & Hs & Hfirst).
    exists (S k), s'. repeat split; [lia|exact Hk|exact Hs|].
    intros [|k'] s'' Hlt Hl.
    + cbn in Hl. injection Hl as <-. now apply Z.eqb_neq.
    + cbn in Hl. apply (Hfirst k' s''); [lia|exact Hl].
Qed.

Lemma find_serial_found (l : list StylusDevice) (v : Z) (k : nat) (s : StylusDevice) :
  l !! k = Some s -> serial s = v ->
  (forall k' s', (k' < k)%nat -> l !! k' = Some s' -> serial s' <> v) ->
  forall i, find_serial l v i = Some (i + k)%nat.
Proof.
  revert k. induction l as [|a l IH]; intros k Hk Hs Hfirst i; [discriminate Hk|].
  cbn [find_serial]. destruct k as [|k].
  - cbn in Hk. injection Hk as ->. apply Z.eqb_eq in Hs. rewrite Hs. f_equal. lia.
  - assert (Ha : serial a <> v) by (apply (Hfirst 0%nat a); [lia|reflexivity]).
    apply Z.eqb_neq in Ha. rewrite Ha.
    rewrite (IH k Hk Hs); [f_equal; lia|].
    intros k' s' Hlt Hl. apply (Hfirst (S k') s'); [lia|exact Hl].
Qed.

(** After [switch_stylus v] the active pointer is at the first device
    whose serial is [v]. *)
Lemma switch_stylus_active_first (m : Mgr) (v : Z) :
  exists s, styli (sw m v) !! active_stylus (sw m v) = Some s /\ serial s = v
            /\ forall k' s', (k' < active_stylus (sw m v))%nat ->
                 styli (sw m v) !! k' = Some s' -> serial s' <> v.
Proof.
  unfold switch_stylus, active.
  destruct (find_serial (styli m) v 0) as [i|] eqn:Ef.
  - destruct (find_serial_first _ _ _ _ Ef) as (k & s & -> & Hk & Hs & Hfirst).
    cbn [styli active_stylus Nat.add]. exists s. repeat split; assumption.
  - assert (Hnone : forall s, s ∈ styli m -> serial s <> v).
    { clear -Ef. revert Ef. generalize 0%nat. induction (styli m) as [|a l IH]; intros i Ef s Hs.
      - inversion Hs.
      - cbn [find_serial] in Ef. destruct (serial a =? v) eqn:E; [discriminate|].
        inversion Hs; subst; [now apply Z.eqb_neq|]. eapply IH; eauto. }
    assert (Hnew : forall l : list StylusDevice,
               (l ++ [set_serial (StylusDevice_new IPTS_MAX_X IPTS_MAX_Y (conf m)) v])
                 !! List.length l
               = Some (set_serial (StylusDevice_new IPTS_MAX_X IPTS_MAX_Y (conf m)) v)).
    { intros l. now apply list_lookup_middle. }
    destruct ((0 <? Z.of_nat (List.length (styli m)))
              && match styli m !! active_stylus m with
                 | Some a => serial a =? 0
                 | None => false
                 end) eqn:Eb.
    + cbn [styli active_stylus].
      apply andb_prop in Eb as [_ Eb].
      destruct (styli m !! active_stylus m) as [a|] eqn:Ea; [|discriminate].
      exists (set_serial a v). split; [|split; [reflexivity|]].
      * rewrite list_lookup_alter_eq, Ea. reflexivity.
      * intros k' s' Hlt Hl. rewrite list_lookup_alter_ne in Hl by lia.
        apply Hnone. now apply list_elem_of_lookup_2 with k'.
    + cbn [styli active_stylus]. eexists. split; [apply Hnew|split; [reflexivity|]].
      intros k' s' Hlt Hl. rewrite lookup_app_l in Hl by exact Hlt.
      apply Hnone. now apply list_elem_of_lookup_2 with k'.
Qed.

(** X6. Asking again for the serial that has just been selected changes
    nothing: neither the devices nor the active pointer. *)
Theorem switch_stylus_idempotent (m : Mgr) (v : Z) :
  active_in_range m -> sw (sw m v) v = sw m v.
Proof.
  intros _.
  destruct (switch_stylus_active_first m v) as (s & Hs & Hv & Hfirst).
  generalize dependent (sw m v). intros m' Hs Hfirst.
  unfold switch_stylus.
  rewrite (find_serial_found _ _ _ _ Hs Hv Hfirst 0%nat). cbn [Nat.add].
  now destruct m'.
Qed.

Lemma find_serial_None' (l : list StylusDevice) (v : Z) :
  forall i, find_serial l v i = None -> forall s, s ∈ l -> serial s <> v.
Proof.
  induction l as [|a l IH]; intros i Ef s Hs.
  - inversion Hs.
  - cbn [find_serial] in Ef. destruct (serial a =? v) eqn:E; [discriminate|].
    inversion Hs; subst; [now apply Z.eqb_neq|]. eapply IH; eauto.
Qed.

Lemma map_alter_serial (l : list StylusDevice) (i : nat) (v : Z) :
  List.map serial (alter (fun a => set_serial a v) i l)
  = alter (fun _ => v) i (List.map serial l).
Proof.
  revert i. induction l as [|a l IH]; intros [|i]; cbn; try reflexivity.
  f_equal. apply IH.
Qed.

Lemma NoDup_alter_fresh (l : list Z) (i : nat) (v : Z) :
  NoDup l -> v ∉ l -> NoDup (alter (fun _ => v) i l).
Proof.
  intros Hnd. revert i. induction Hnd as [|x l Hx Hnd IH]; intros i Hv.
  - destruct i; constructor.
  - apply not_elem_of_cons in Hv as [Hvx Hvl]. destruct i as [|i]; cbn.
    + constructor; assumption.
    + constructor; [|now apply IH].
      intros Hin. apply list_elem_of_lookup in Hin as [j Hj].
      destruct (decide (i = j)) as [->|Hne].
      * rewrite list_lookup_alter_eq in Hj.
        destruct (l !! j); cbn in Hj; [|discriminate]. injection Hj as ->. contradiction.
      * rewrite list_lookup_alter_ne in Hj by exact Hne.
        apply Hx. now apply list_elem_of_lookup_2 with j.
Qed.

Lemma switch_stylus_serials_NoDup (m : Mgr) (v : Z) :
  NoDup (serials m) -> NoDup (serials (sw m v)).
Proof.
  intros Hnd. unfold serials, switch_stylus, active in *.
  destruct (find_serial (styli m) v 0) as [i|] eqn:Ef; [exact Hnd|].
  assert (Hfresh : v ∉ List.map serial (styli m)).
  { intros Hin. apply list_elem_of_fmap in Hin as (s & -> & Hs).
    now apply (find_serial_None' _ _ _ Ef s Hs). }
  destruct (_ && _); cbn [styli].
  - rewrite map_alter_serial. now apply NoDup_alter_fresh.
  - rewrite List.map_app. cbn [List.map serial set_serial].
    apply NoDup_app. repeat split; [exact Hnd| |apply NoDup_singleton].
    intros x Hx Hx'. apply list_elem_of_singleton in Hx'. subst x. contradiction.
Qed.

(** X7. [switch_stylus] never makes two devices share a serial: when the
    serials were pairwise distinct before the call, they are after it. *)
Theorem switch_stylus_keeps_serials_distinct (m : Mgr) (v : Z) :
  active_in_range m -> NoDup (serials m) -> NoDup (serials (sw m v)).
Proof.
  intros _ Hnd. unfold serials, switch_stylus, active in *.
  destruct (find_serial (styli m) v 0) as [i|] eqn:Ef; [exact Hnd|].
  assert (Hfresh : v ∉ List.map serial (styli m)).
  { intros Hin. apply list_elem_of_fmap in Hin as (s & -> & Hs).
    now apply (find_serial_None' _ _ _ Ef s Hs). }
  destruct (_ && _); cbn [styli].
  - rewrite map_alter_serial. now apply NoDup_alter_fresh.
  - rewrite List.map_app. cbn [List.map serial set_serial].
    apply NoDup_app. repeat split; [exact Hnd| |apply NoDup_singleton].
    intros x Hx Hx'. apply list_elem_of_singleton in Hx'. subst x. contradiction.
Qed.

(** X8. [switch_stylus] never destroys or moves a device: each keeps its
    place in the vector and its uinput device; the only serial that can
    change is that of an active stylus with serial 0, which takes the
    serial asked for; the vector grows by at most one. *)
Theorem switch_stylus_keeps_devices (m : Mgr) (v : Z) (i : nat) (d : StylusDevice) :
  active_in_range m ->
  styli m !! i = Some d ->
  (exists d', styli (sw m v) !! i = Some d'
              /\ stylus_dev d' = stylus_dev d
              /\ (serial d' = serial d
                  \/ (serial d = 0 /\ i = active_stylus m /\ serial d' = v)))
  /\ (List.length (styli m) <= List.length (styli (sw m v)) <= S (List.length (styli m)))%nat.
Proof.
  intros _ Hd. unfold switch_stylus, active.
  destruct (find_serial (styli m) v 0) as [j|] eqn:Ef.
  - cbn [styli]. split; [|lia]. exists d. auto.
  - destruct (styli m !! active_stylus m) as [a|] eqn:Ea.
    + destruct (serial a =? 0) eqn:Ez; rewrite ?andb_true_r, ?andb_false_r.
      * destruct (0 <? Z.of_nat (List.length (styli m))); cbn [styli].
        -- rewrite length_alter. split; [|lia].
           destruct (decide (active_stylus m = i)) as [Heq|Hne].
           ++ subst i. rewrite Hd in Ea. injection Ea as <-.
              exists (set_serial d v). rewrite list_lookup_alter_eq, Hd.
              repeat split. right. apply Z.eqb_eq in Ez. auto.
           ++ exists d. rewrite list_lookup_alter_ne by exact Hne. auto.
        -- rewrite length_app. cbn. split; [|lia].
           exists d. split; [now apply lookup_app_l_Some|auto].
      * cbn [styli]. rewrite length_app. cbn. split; [|lia].
        exists d. split; [now apply lookup_app_l_Some|auto].
    + rewrite andb_false_r. cbn [styli]. rewrite length_app. cbn. split; [|lia].
      exists d. split; [now apply lookup_app_l_Some|auto].
Qed.

(** X9. [switch_stylus] creates a device exactly when no device has the
    serial asked for and the active stylus, if there is one, has a serial
    other than 0. *)
Theorem switch_stylus_creates_iff (m : Mgr) (v : Z) :
  active_in_range m ->
  List.length (styli (sw m v)) = S (List.length (styli m))
  <-> ((forall s, s ∈ styli m -> serial s <> v)
       /\ forall a, active m = Some a -> serial a <> 0).
Proof.
  intros Hwf. unfold switch_stylus, active.
  destruct (find_serial (styli m) v 0) as [j|] eqn:Ef.
  - cbn [styli]. split; [lia|]. intros [Hnone _]. exfalso.
    destruct (find_serial_first _ _ _ _ Ef) as (k & s & _ & Hk & Hs & _).
    apply (Hnone s); [now apply list_elem_of_lookup_2 with k|exact Hs].
  - pose proof (find_serial_None' _ _ _ Ef) as Hnone.
    destruct (styli m !! active_stylus m) as [a|] eqn:Ea.
    + assert (Hpos : (0 <? Z.of_nat (List.length (styli m))) = true).
      { apply Z.ltb_lt. assert (active_stylus m < List.length (styli m))%nat
          by (apply lookup_lt_is_Some; eauto). lia. }
      rewrite Hpos. cbn [andb]. destruct (serial a =? 0) eqn:Ez; cbn [styli].
      * rewrite length_alter. split; [lia|]. intros [_ Ha]. exfalso.
        apply (Ha a eq_refl). now apply Z.eqb_eq.
      * rewrite length_app. cbn. split; [|lia]. intros _. split; [exact Hnone|].
        intros a' Ha'. injection Ha' as <-. now apply Z.eqb_neq.
    + rewrite andb_false_r. cbn [styli]. rewrite length_app. cbn. split; [|lia].
      intros _. split; [exact Hnone|]. intros a' Ha'. discriminate Ha'.
Qed.

Lemma last_cons (v d : Z) (vs : list Z) : List.last (v :: vs) d = List.last vs v.
Proof.
  revert v d. induction vs as [|w vs IH]; intros v d; [reflexivity|].
  change (List.last (v :: w :: vs) d) with (List.last (w :: vs) d).
  rewrite (IH w d), (IH w v). reflexivity.
Qed.

Lemma switch_stylus_conf (m : Mgr) (v : Z) :
  conf (sw m v) = conf m /\ touch (sw m v) = touch m.
Proof.
  unfold switch_stylus. destruct (find_serial _ _ _); [split; reflexivity|].
  destruct (_ && _); split; reflexivity.
Qed.

(** X10. Every manager that the constructor and later [switch_stylus] calls
    can produce has at least one stylus, an active pointer inside the
    vector, pairwise distinct serials, the configuration and touch device
    it was built with, and never more devices than one plus the number of
    switches. The active stylus has the serial asked for last (0 when
    nothing was asked for). *)
Theorem manager_invariant (c : IptsdConfig) (m0 : Mgr) (vs : list Z) :
  DeviceManager_new IPTS_MAX_X IPTS_MAX_Y IPTS_DIAGONAL TouchManager_new c = inr m0 ->
  let m := fold_left sw vs m0 in
  styli m <> []
  /\ active_in_range m
  /\ NoDup (serials m)
  /\ (exists a, active m = Some a /\ serial a = List.last vs 0)
  /\ conf m = c
  /\ touch m = TouchDevice_new IPTS_MAX_X IPTS_MAX_Y IPTS_DIAGONAL TouchManager_new c
  /\ (1 <= List.length (styli m) <= 1 + List.length vs)%nat.
Proof.
  intros Hnew. cbn zeta.
  unfold DeviceManager_new in Hnew.
  destruct ((width c =? 0) || (height c =? 0)); [discriminate Hnew|].
  injection Hnew as <-.
  set (m0 := switch_stylus IPTS_MAX_X IPTS_MAX_Y
               {| conf := c;
                  touch := TouchDevice_new IPTS_MAX_X IPTS_MAX_Y IPTS_DIAGONAL
                             TouchManager_new c;
                  styli := []; active_stylus := 0 |} 0).
  assert (Hinv : forall (vs : list Z) (m : Mgr) (v0 : Z),
             active_in_range m -> NoDup (serials m) ->
             (exists a, active m = Some a /\ serial a = v0) ->
             let m' := fold_left sw vs m in
             active_in_range m' /\ NoDup (serials m')
             /\ (exists a, active m' = Some a /\ serial a = List.last vs v0)
             /\ conf m' = conf m /\ touch m' = touch m
             /\ (List.length (styli m) <= List.length (styli m')
                 <= List.length (styli m) + List.length vs)%nat).
  { clear. induction vs as [|v vs IH]; intros m v0 Hwf Hnd Hact; cbn zeta.
    - cbn. repeat split; try assumption; lia.
    - cbn [fold_left].
      destruct (switch_stylus_active_first m v) as (s & Hs & Hv & _).
      assert (Hwf' : active_in_range (sw m v)).
      { right. apply lookup_lt_is_Some. eauto. }
      destruct (IH (sw m v) v Hwf' (switch_stylus_serials_NoDup m v Hnd)
                  ltac:(exists s; split; assumption))
        as (H1 & H2 & H3 & H4 & H5 & H6).
      destruct (switch_stylus_conf m v) as [Hc Ht].
      repeat split; try assumption.
      + destruct H3 as (a & Ha & Hl). exists a. split; [exact Ha|].
        rewrite Hl. symmetry. apply last_cons.
      + congruence.
      + congruence.
      + assert (Hlen : (List.length (styli m) <= List.length (styli (sw m v))
                        <= S (List.length (styli m)))%nat).
        { unfold switch_stylus. destruct (find_serial _ _ _); cbn [styli]; [lia|].
          destruct (_ && _); cbn [styli]; rewrite ?length_alter, ?length_app; cbn; lia. }
        lia.
      + assert (Hlen : (List.length (styli m) <= List.length (styli (sw m v))
                        <= S (List.length (styli m)))%nat).
        { unfold switch_stylus. destruct (find_serial _ _ _); cbn [styli]; [lia|].
          destruct (_ && _); cbn [styli]; rewrite ?length_alter, ?length_app; cbn; lia. }
        cbn [List.length]. lia. }
  assert (Hm0 : styli m0 = [set_serial (StylusDevice_new IPTS_MAX_X IPTS_MAX_Y c) 0]
                /\ active_stylus m0 = 0%nat /\ conf m0 = c
                /\ touch m0 = TouchDevice_new IPTS_MAX_X IPTS_MAX_Y IPTS_DIAGONAL
                                 TouchManager_new c)
    by (repeat split; reflexivity).
  destruct Hm0 as (Hst & Hac & Hco & Hto).
  destruct (Hinv vs m0 0) as (H1 & H2 & H3 & H4 & H5 & H6).
  - right. rewrite Hst, Hac. cbn. lia.
  - unfold serials. rewrite Hst. cbn. apply NoDup_singleton.
  - unfold active. rewrite Hst, Hac. eexists. split; reflexivity.
  - rewrite Hst in H6. cbn [List.length] in H6.
    repeat split; try assumption; try congruence; try lia.
    intros Hnil. rewrite Hnil in H6. cbn in H6. lia.
Qed.

End ManagerInvariants.

Lemma switch_stylus_idempotent_witness :
  Daemon.switch_stylus 9600 7200 (Daemon.switch_stylus 9600 7200 fresh_manager 77) 77
  = Daemon.switch_stylus 9600 7200 fresh_manager 77.
Proof.
  apply (switch_stylus_idempotent 9600 7200 fresh_manager 77).
  right. simpl. lia.
Defined.

Lemma switch_stylus_keeps_serials_distinct_witness :
  NoDup (serials (Daemon.switch_stylus 9600 7200
                    (Daemon.switch_stylus 9600 7200 fresh_manager 5) 9)).
Proof.
  apply (switch_stylus_keeps_serials_distinct 9600 7200
           (Daemon.switch_stylus 9600 7200 fresh_manager 5) 9).
  - right. simpl. lia.
  - apply NoDup_singleton.
Defined.

Lemma switch_stylus_keeps_devices_witness :
  exists d', Daemon.styli (Daemon.switch_stylus 9600 7200 fresh_manager 77) !! 0%nat = Some d'
             /\ Daemon.stylus_dev d'
                = Daemon.stylus_dev (Daemon.StylusDevice_new 9600 7200 display).
Proof.
  destruct (switch_stylus_keeps_devices 9600 7200 fresh_manager 77 0
              (Daemon.StylusDevice_new 9600 7200 display)) as [(d' & Hd' & Hdev & _) _].
  - right. simpl. lia.
  - reflexivity.
  - exists d'. split; [exact Hd'|exact Hdev].
Defined.

Lemma switch_stylus_creates_iff_witness :
  List.length (Daemon.styli (Daemon.switch_stylus 9600 7200
                               (Daemon.switch_stylus 9600 7200 fresh_manager 5) 9))
  = 2%nat.
Proof.
  apply (switch_stylus_creates_iff 9600 7200
           (Daemon.switch_stylus 9600 7200 fresh_manager 5) 9).
  - right. simpl. lia.
  - split.
    + intros s Hs. apply list_elem_of_singleton in Hs. subst s. discriminate.
    + intros a Ha. injection Ha as <-. discriminate.
Defined.

Lemma manager_invariant_witness :
  exists a,
    Daemon.active (fold_left (Daemon.switch_stylus 9600 7200) [5; 0; 5] fresh_manager)
    = Some a /\ Daemon.serial a = 5.
Proof.
  destruct (manager_invariant 9600 7200 12000 (fun _ => tt) display fresh_manager [5; 0; 5])
    as (_ & _ & _ & Ha & _).
  - reflexivity.
  - exact Ha.
Defined.

(* ===================================================================== *)
(** * More on the resolution of the axes *)
(* ===================================================================== *)

Lemma in_i32_bounds (z : Z) : F64.in_i32 z = true -> - 2147483648 <= z <= 2147483647.
Proof.
  unfold F64.in_i32. intros H. apply andb_prop in H as [H1 H2].
  apply Z.leb_le in H1, H2. change (2 ^ 31) with 2147483648 in *. lia.
Qed.

(** With a physical extent of zero the quotient is an infinity or NaN and
    the cast to [i32] has no defined value. *)
Lemma res_zero_phys (virt : Z) : Daemon.res virt 0 = None.
Proof.
  unfold Daemon.res, i32_checked.
  destruct (F64.in_i32 (virt * 10)) eqn:Hin; [|reflexivity].
  apply in_i32_bounds in Hin.
  unfold F64.to_i32, F64.round, F64.trunc.
  destruct (Z.eq_dec (virt * 10) 0) as [->|Hne].
  - reflexivity.
  - destruct (Prim2SF_of_Z_nonzero (virt * 10) Hne) as (m & d & Hm & _).
    { apply Z.lt_trans with (2 ^ 32); [change (2 ^ 32) with 4294967296; lia|reflexivity]. }
    assert (Hx : Prim2SF (F64.of_Z (virt * 10) / F64.of_Z 0)%float
                 = S754_infinity (virt * 10 <? 0)).
    { rewrite FloatAxioms.div_spec, Hm. cbn. now rewrite xorb_false_r. }
    rewrite Hx. now rewrite Hx.
Qed.

Lemma res_rounds (virt phys : Z) :
  phys <> 0 -> F64.in_i32 (virt * 10) = true -> F64.in_i32 phys = true ->
  Daemon.res virt phys = Some (round_half_away (virt * 10) phys).
Proof.
  intros Hphys Hv Hp. unfold Daemon.res, i32_checked. rewrite Hv.
  apply in_i32_bounds in Hv, Hp.
  destruct (Z.eq_dec virt 0) as [->|Hne].
  - change (0 * 10) with 0.
    destruct (Prim2SF_of_Z_nonzero phys Hphys) as (m & d & Hm & _).
    { apply Z.lt_trans with (2 ^ 32); [change (2 ^ 32) with 4294967296; lia|reflexivity]. }
    assert (Hx : Prim2SF (F64.of_Z 0 / F64.of_Z phys)%float = S754_zero (phys <? 0)).
    { rewrite FloatAxioms.div_spec, Hm. reflexivity. }
    unfold F64.to_i32, F64.round. rewrite Hx.
    unfold F64.trunc. rewrite Hx. reflexivity.
  - apply round_of_quotient; lia.
Qed.

Lemma round_half_away_nonneg (a b : Z) :
  0 <= a -> 0 < b -> round_half_away a b = (2 * a + b) / (2 * b).
Proof.
  intros Ha Hb. unfold round_half_away.
  rewrite (Z.abs_eq a), (Z.abs_eq b) by lia. rewrite (Z.sgn_pos b) by lia.
  destruct (Z.eq_dec a 0) as [->|Hne].
  - cbn [Z.sgn Z.mul]. symmetry. apply Z.div_small. lia.
  - rewrite (Z.sgn_pos a) by lia. lia.
Qed.

(** X11. For a non-negative range and a positive extent the resolution is
    defined, lies between 0 and [virt * 10], and does not decrease when
    the range grows or the extent shrinks. *)
Theorem res_monotone (virt virt' phys phys' : Z) :
  0 <= virt <= virt' -> 0 < phys' <= phys ->
  F64.in_i32 (virt' * 10) = true -> F64.in_i32 phys = true ->
  exists r r', Daemon.res virt phys = Some r /\ Daemon.res virt' phys' = Some r'
               /\ 0 <= r <= r' /\ r' <= virt' * 10.
Proof.
  intros Hv Hp Hin Hinp.
  pose proof (in_i32_bounds _ Hin) as Hb. pose proof (in_i32_bounds _ Hinp) as Hbp.
  assert (Hin1 : F64.in_i32 (virt * 10) = true).
  { unfold F64.in_i32. change (2 ^ 31) with 2147483648.
    apply andb_true_intro. split; apply Z.leb_le; lia. }
  assert (Hin2 : F64.in_i32 phys' = true).
  { unfold F64.in_i32. change (2 ^ 31) with 2147483648.
    apply andb_true_intro. split; apply Z.leb_le; lia. }
  rewrite (res_rounds virt phys), (res_rounds virt' phys') by (assumption || lia).
  rewrite !round_half_away_nonneg by lia.
  set (A := virt * 10). set (A' := virt' * 10).
  assert (HA : 0 <= A <= A') by (subst A A'; lia).
  clearbody A A'. clear - HA Hp.
  do 2 eexists. split; [reflexivity|]. split; [reflexivity|].
  set (K := (2 * A + phys) / (2 * phys)).
  assert (HK : 2 * phys * K <= 2 * A + phys < 2 * phys * K + 2 * phys).
  { pose proof (Z.div_mod (2 * A + phys) (2 * phys) ltac:(lia)) as E.
    pose proof (Z.mod_pos_bound (2 * A + phys) (2 * phys) ltac:(lia)) as R.
    fold K in E. lia. }
  assert (HK0 : 0 <= K) by (subst K; apply Z.div_pos; lia).
  split; [split; [exact HK0|]|].
  - apply Z.div_le_lower_bound; [lia|].
    destruct (Z.eq_dec K 0) as [->|HKne]; [lia|].
    assert ((2 * K - 1) * phys' <= (2 * K - 1) * phys)
      by (apply Z.mul_le_mono_nonneg_l; lia).
    lia.
  - assert ((2 * A' + phys') / (2 * phys') < A' + 1); [|lia].
    apply Z.div_lt_upper_bound; [lia|]. nia.
Qed.

Lemma res_monotone_witness :
  exists r r', Daemon.res 7200 2599 = Some r /\ Daemon.res 9600 1728 = Some r'
               /\ 0 <= r <= r' /\ r' <= 9600 * 10.
Proof.
  apply (res_monotone 7200 9600 2599 1728).
  - lia.
  - lia.
  - reflexivity.
  - reflexivity.
Defined.

Section DeviceEdgeCases.

Import Daemon.

Variable IPTS_MAX_X IPTS_MAX_Y IPTS_DIAGONAL : Z.
Context {TouchManager : Type}.
Variable TouchManager_new : IptsdConfig -> TouchManager.

(** X12. The size check of the device manager comes after its touch device has
    been built. With a width of zero the constructor throws, but by then
    the touch device has asked [res] for the resolution of its X axes with
    an extent of zero, whose cast to [i32] has no defined value; the same
    holds for the height and the Y axes. [res] has no defined value for an
    extent of zero whatever the range. *)
Theorem zero_size_resolution_is_undefined :
  (forall virt, res virt 0 = None)
  /\ forall c : IptsdConfig,
       let d := touch_dev (TouchDevice_new IPTS_MAX_X IPTS_MAX_Y IPTS_DIAGONAL
                             TouchManager_new c) in
       (width c = 0 ->
          (exists e, DeviceManager_new IPTS_MAX_X IPTS_MAX_Y IPTS_DIAGONAL
                       TouchManager_new c = inl e)
          /\ forall axis, In axis [ABS_X; ABS_MT_POSITION_X; ABS_MT_TOOL_X] ->
               abs_res <$> absinfo_of d axis = Some None)
       /\ (height c = 0 ->
             (exists e, DeviceManager_new IPTS_MAX_X IPTS_MAX_Y IPTS_DIAGONAL
                          TouchManager_new c = inl e)
             /\ forall axis, In axis [ABS_Y; ABS_MT_POSITION_Y] ->
                  abs_res <$> absinfo_of d axis = Some None).
Proof.
  split; [exact res_zero_phys|]. intros c. cbn zeta.
  destruct (touch_axes_resolution IPTS_MAX_X IPTS_MAX_Y IPTS_DIAGONAL TouchManager_new c)
    as [Hx Hy]. cbn zeta in Hx, Hy.
  split; intros Hz; (split;
    [apply DeviceManager_new_throws_iff; auto|]); intros axis Hin.
  - rewrite (Hx axis Hin), Hz. cbn. now rewrite res_zero_phys.
  - rewrite (Hy axis Hin), Hz. cbn. now rewrite res_zero_phys.
Qed.

(** X13. The touch device never registers [ABS_MT_TOOL_Y]: the constructor makes
    twelve [set_absinfo] calls for eleven axes, naming [ABS_MT_TOOL_X]
    twice with the same settings. Every other multi-touch axis it names,
    and the two pointer axes, end up registered, and the device is
    created. *)
Theorem touch_device_never_registers_tool_y (c : IptsdConfig) :
  let d := touch_dev (TouchDevice_new IPTS_MAX_X IPTS_MAX_Y IPTS_DIAGONAL
                        TouchManager_new c) in
  ~ In ABS_MT_TOOL_Y (axes_of d)
  /\ absinfo_of d ABS_MT_TOOL_Y = None
  /\ List.length (absinfo d) = 12%nat
  /\ List.filter (fun a => AbsAxis_eqb (abs_axis a) ABS_MT_TOOL_X) (absinfo d)
     = [ {| abs_axis := ABS_MT_TOOL_X; abs_min := 0; abs_max := IPTS_MAX_X;
            abs_res := res IPTS_MAX_X (width c) |};
         {| abs_axis := ABS_MT_TOOL_X; abs_min := 0; abs_max := IPTS_MAX_X;
            abs_res := res IPTS_MAX_X (width c) |} ]
  /\ Forall (fun axis => exists a, absinfo_of d axis = Some a /\ abs_axis a = axis)
       [ABS_MT_SLOT; ABS_MT_TRACKING_ID; ABS_MT_POSITION_X; ABS_MT_POSITION_Y;
        ABS_MT_TOOL_TYPE; ABS_MT_TOOL_X; ABS_MT_ORIENTATION; ABS_MT_TOUCH_MAJOR;
        ABS_MT_TOUCH_MINOR; ABS_X; ABS_Y]
  /\ created d = true.
Proof.
  cbn zeta. split; [|split; [|split; [|split; [|split]]]]; try reflexivity.
  - cbn. intros H. repeat (destruct H as [H|H]; [discriminate H|]). exact H.
  - repeat constructor; eexists; split; reflexivity.
Qed.

End DeviceEdgeCases.

Lemma zero_size_resolution_is_undefined_witness :
  Daemon.abs_res
    <$> Daemon.absinfo_of
          (Daemon.touch_dev
             (Daemon.TouchDevice_new 9600 7200 12000 (fun _ => tt)
                {| Daemon.info := Daemon.info display; Daemon.width := 0;
                   Daemon.height := 1728 |}))
          Daemon.ABS_MT_POSITION_X
  = Some None.
Proof.
  destruct (zero_size_resolution_is_undefined 9600 7200 12000 (fun _ => tt)) as [_ H].
  destruct (H {| Daemon.info := Daemon.info display; Daemon.width := 0;
                 Daemon.height := 1728 |}) as [[_ Hx] _].
  - reflexivity.
  - apply Hx. right. left. reflexivity.
Defined.

(* ===================================================================== *)
(** * Invariants of the orchestrator *)
(* ===================================================================== *)

Section OrchestratorInvariants.
Context {ContactsConfig Metadata DeviceInfo DftWindow : Type}.
Context {Cone Finder Dft : Type}.
Context `{!ConeOps Cone}.
Context `{!FinderOps ContactsConfig Finder}.
Context `{!DftOps ContactsConfig Metadata DftWindow Dft}.

Variable IPTS_MAX_X IPTS_MAX_Y : Z.

Local Abbreviation App := (Application (ContactsConfig := ContactsConfig)
                   (Metadata := Metadata) (DeviceInfo := DeviceInfo)
                   (Cone := Cone) (Finder := Finder) (Dft := Dft)).
Local Abbreviation disp := (dispatch IPTS_MAX_X IPTS_MAX_Y (DftWindow := DftWindow)).
Local Abbreviation runf := (run_frames IPTS_MAX_X IPTS_MAX_Y (DftWindow := DftWindow)).

Lemma update_touch_cone_shape (app : App) :
  let r := update_touch_cone app in
  m_config (fst r) = m_config app
  /\ m_info (fst r) = m_info app
  /\ m_metadata (fst r) = m_metadata app
  /\ m_finder (fst r) = m_finder app
  /\ m_dft (fst r) = m_dft app
  /\ m_heatmap (fst r) = m_heatmap app
  /\ List.map geometry (m_contacts (fst r)) = List.map geometry (m_contacts app)
  /\ Forall2 (fun c c' => known_false c = true -> c' = c)
       (m_contacts app) (m_contacts (fst r))
  /\ Forall (fun e => is_cone_direction e = true) (snd r).
Proof.
  cbn zeta. unfold update_touch_cone.
  assert (Hid : Forall2 (fun c c' : Contact => known_false c = true -> c' = c)
                  (m_contacts app) (m_contacts app)).
  { induction (m_contacts app); constructor; auto. }
  destruct (cone_alive (m_cone app)); cbn [negb]; [|repeat split; auto].
  destruct (cone_active (m_cone app)); cbn [negb]; [|repeat split; auto].
  destruct (touch_check_cone (m_config app)); cbn [negb]; [|repeat split; auto].
  rewrite feed_palms_spec, mark_palms_spec. cbn. clear Hid.
  generalize (cone_after_palms (m_config app) (m_contacts app) (m_cone app)).
  intros cone. repeat split.
  - induction (m_contacts app) as [|c cs IH]; [reflexivity|].
    cbn [List.map]. f_equal; [|exact IH].
    unfold judged. destruct (known_false c); reflexivity.
  - induction (m_contacts app) as [|c cs IH]; constructor; [|exact IH].
    intros Hk. unfold judged. now rewrite Hk.
  - apply List.Forall_forall. intros e He. apply in_map_iff in He as (p & <- & _). reflexivity.
Qed.

Lemma process_heatmap_events (app : App) (data : Heatmap) :
  exists rotations,
    snd (process_heatmap app data)
    = rotations ++ [OnContacts (m_contacts (fst (process_heatmap app data)))]
    /\ Forall (fun e => is_cone_direction e = true) rotations.
Proof.
  unfold process_heatmap.
  destruct (finder_find (m_finder app) (normalize data) (m_contacts app))
    as [finder' found].
  pose proof (update_touch_cone_shape (with_found app (normalize data) finder' found)) as Hs.
  cbn zeta in Hs.
  destruct (update_touch_cone (with_found app (normalize data) finder' found))
    as [app2 evs]. cbn [fst snd] in *.
  exists evs. split; [reflexivity|]. apply Hs.
Qed.

(** X14. The palm pass only writes verdicts: whatever the state of the cone,
    the contacts handed to [on_contacts] are the finder's contacts, in
    the same order and with the same geometry and stability; a contact
    that the finder flagged as a palm is handed on unchanged; and
    [on_contacts] is the last thing that happens, once, after the cone
    has been rotated. *)
Theorem heatmap_delivers_finder_contacts (app : App) (data : Heatmap) :
  let app' := fst (process_heatmap app data) in
  List.map geometry (m_contacts app') = List.map geometry (found_in app data)
  /\ Forall2 (fun c c' => known_false c = true -> c' = c)
       (found_in app data) (m_contacts app')
  /\ exists rotations,
       snd (process_heatmap app data) = rotations ++ [OnContacts (m_contacts app')]
       /\ Forall (fun e => is_cone_direction e = true) rotations.
Proof.
  cbn zeta. unfold process_heatmap, found_in.
  destruct (finder_find (m_finder app) (normalize data) (m_contacts app))
    as [finder' found] eqn:Ef. cbn [snd].
  pose proof (update_touch_cone_shape (with_found app (normalize data) finder' found)) as Hs.
  cbn zeta in Hs.
  destruct (update_touch_cone (with_found app (normalize data) finder' found))
    as [app2 evs]. cbn [fst snd with_found m_contacts] in *.
  destruct Hs as (_ & _ & _ & _ & _ & _ & Hg & Hk & He).
  repeat split; [exact Hg|exact Hk|].
  exists evs. split; [reflexivity|exact He].
Qed.

(** X15. When the palm pass runs (cone alive and active, check enabled), no
    contact is handed on without a verdict, and the cone is rotated once
    per contact that the finder flagged as a palm. *)
Theorem active_pass_classifies_every_contact (app : App) (data : Heatmap) :
  cone_alive (m_cone app) = true ->
  cone_active (m_cone app) = true ->
  touch_check_cone (m_config app) = true ->
  Forall (fun c => ct_valid c <> None) (m_contacts (fst (process_heatmap app data)))
  /\ List.length (List.filter is_cone_direction (snd (process_heatmap app data)))
     = List.length (List.filter known_false (found_in app data)).
Proof.
  intros Ha Hb Hc. unfold process_heatmap, found_in.
  destruct (finder_find (m_finder app) (normalize data) (m_contacts app))
    as [finder' found]. cbn [snd].
  unfold update_touch_cone. cbn [with_found m_cone m_config m_contacts].
  rewrite Ha, Hb, Hc. cbn [negb].
  rewrite feed_palms_spec, mark_palms_spec.
  cbn [with_contacts with_cone m_contacts fst snd]. split.
  - apply List.Forall_forall. intros c Hc'. apply in_map_iff in Hc' as (c0 & <- & _).
    unfold judged, known_false.
    destruct (ct_valid c0) as [[|]|] eqn:E; cbn; rewrite ?E; discriminate.
  - rewrite List.filter_app. cbn [List.filter is_cone_direction].
    rewrite List.app_nil_r.
    induction (List.filter known_false found) as [|p ps IH]; [reflexivity|].
    cbn [List.map List.filter is_cone_direction List.length]. now rewrite IH.
Qed.

Lemma dispatch_keeps_config (app : App) (f : Frame) :
  m_config (fst (disp app f)) = m_config app
  /\ m_info (fst (disp app f)) = m_info app
  /\ m_metadata (fst (disp app f)) = m_metadata app.
Proof.
  destruct f as [data|data|data]; cbn [dispatch].
  - unfold process_heatmap.
    destruct (finder_find _ _ _) as [finder' found].
    pose proof (update_touch_cone_shape (with_found app (normalize data) finder' found)) as Hs.
    cbn zeta in Hs.
    destruct (update_touch_cone _) as [app2 evs]. cbn [fst snd with_found] in *.
    destruct Hs as (H1 & H2 & H3 & _). auto.
  - unfold process_stylus. destruct (stylus_phys _ _ _ _). cbn. auto.
  - unfold process_dft, process_stylus. destruct (stylus_phys _ _ _ _). cbn. auto.
Qed.

Lemma run_frames_keeps_config (fs : list Frame) :
  forall app : App,
    m_config (fst (runf app fs)) = m_config app
    /\ m_info (fst (runf app fs)) = m_info app
    /\ m_metadata (fst (runf app fs)) = m_metadata app.
Proof.
  induction fs as [|f fs IH]; intros app; [cbn; auto|].
  cbn [run_frames]. pose proof (dispatch_keeps_config app f) as Hd.
  destruct (disp app f) as [app1 evs1]. cbn [fst] in Hd.
  specialize (IH app1). destruct (runf app1 fs) as [app2 evs2]. cbn [fst] in *.
  destruct Hd as (H1 & H2 & H3). destruct IH as (I1 & I2 & I3).
  repeat split; congruence.
Qed.

(** X16. The configuration checked by the constructor is never replaced: after
    any frames the application still holds it, with a screen size that is
    not zero. *)
Theorem screen_size_stays_nonzero (config : Config ContactsConfig)
    (info : DeviceInfo) (metadata : option Metadata) (app : App) (fs : list Frame) :
  Application_new (DftWindow := DftWindow) config info metadata = inr app ->
  let app' := fst (runf app fs) in
  m_config app' = config /\ m_info app' = info /\ m_metadata app' = metadata
  /\ PrimFloat.eqb (width (m_config app')) PrimFloat.zero = false
  /\ PrimFloat.eqb (height (m_config app')) PrimFloat.zero = false.
Proof.
  intros Hnew. cbn zeta.
  destruct (run_frames_keeps_config fs app) as (-> & -> & ->).
  unfold Application_new in Hnew.
  destruct (PrimFloat.eqb (width config) PrimFloat.zero) eqn:Ew; [discriminate Hnew|].
  destruct (PrimFloat.eqb (height config) PrimFloat.zero) eqn:Eh; [discriminate Hnew|].
  cbn [orb] in Hnew. injection Hnew as <-. cbn. auto.
Qed.

Lemma dispatch_event_counts (app : App) (f : Frame) :
  let evs := snd (disp app f) in
  List.length (List.filter is_on_contacts evs) = (if is_heatmap f then 1 else 0)%nat
  /\ List.length (List.filter is_on_stylus evs) = (if is_heatmap f then 0 else 1)%nat
  /\ List.length (List.filter is_cone_position evs) = (if is_heatmap f then 0 else 1)%nat.
Proof.
  cbn zeta. destruct f as [data|data|data]; cbn [dispatch is_heatmap].
  - destruct (process_heatmap_events app data) as (rot & -> & Hrot).
    rewrite !List.filter_app, !length_app. cbn.
    assert (H0 : forall p, (forall e, is_cone_direction e = true -> p e = false) ->
                 List.length (List.filter p rot) = 0%nat).
    { intros p Hp. induction Hrot as [|e rot He _ IH]; [reflexivity|].
      cbn [List.filter]. now rewrite (Hp e He). }
    rewrite !H0 by (intros [] He; (discriminate He || reflexivity)). auto.
  - unfold process_stylus. destruct (stylus_phys _ _ _ _). cbn. auto.
  - unfold process_dft, process_stylus. destruct (stylus_phys _ _ _ _). cbn. auto.
Qed.

(** X17. Every heatmap frame reaches [on_contacts] exactly once, every stylus
    or DFT frame reaches [on_stylus] exactly once and moves the cone
    exactly once; nothing else calls the hooks. *)
Theorem one_delivery_per_frame (fs : list Frame) (app : App) :
  let evs := snd (runf app fs) in
  List.length (List.filter is_on_contacts evs)
  = List.length (List.filter is_heatmap fs)
  /\ List.length (List.filter is_on_stylus evs)
     = List.length (List.filter (fun f => negb (is_heatmap f)) fs)
  /\ List.length (List.filter is_cone_position evs)
     = List.length (List.filter (fun f => negb (is_heatmap f)) fs).
Proof.
  cbn zeta. revert app. induction fs as [|f fs IH]; intros app; [cbn; auto|].
  cbn [run_frames]. pose proof (dispatch_event_counts app f) as Hd. cbn zeta in Hd.
  destruct (disp app f) as [app1 evs1]. cbn [snd] in Hd.
  specialize (IH app1). destruct (runf app1 fs) as [app2 evs2]. cbn [snd] in *.
  rewrite !List.filter_app, !length_app. cbn [List.filter].
  destruct Hd as (-> & -> & ->). destruct IH as (-> & -> & ->).
  destruct (is_heatmap f); cbn; auto.
Qed.

End OrchestratorInvariants.

Lemma active_pass_classifies_every_contact_witness :
  Forall (fun c => ct_valid c <> None)
    (m_contacts (fst (process_heatmap (Fixture.app true) Fixture.frame)))
  /\ List.length (List.filter is_cone_direction
                    (snd (process_heatmap (Fixture.app true) Fixture.frame)))
     = List.length (List.filter known_false (found_in (Fixture.app true) Fixture.frame)).
Proof.
  apply (active_pass_classifies_every_contact (Fixture.app true) Fixture.frame);
    reflexivity.
Defined.

Lemma screen_size_stays_nonzero_witness :
  exists app,
    Application_new (DeviceInfo := unit) (DftWindow := StylusData) Fixture.config tt None
    = inr app
    /\ m_config (fst (run_frames 9600 7200 app
                        [FHeatmap Fixture.frame; FStylus Fixture.sample;
                         FHeatmap Fixture.frame]))
       = Fixture.config.
Proof.
  eexists. split; [reflexivity|].
  apply (screen_size_stays_nonzero 9600 7200 Fixture.config tt None).
  reflexivity.
Defined.

(* ===================================================================== *)
(** * More on the normalisation of heatmaps *)
(* ===================================================================== *)

Lemma sub_u8_checked :
  all_from 256 0 (fun u => all_from 256 0 (fun z =>
    PrimFloat.Leibniz.eqb (F64.of_Z u - F64.of_Z z)%float (F64.of_Z (u - z)))) = true.
Proof. vm_compute. reflexivity. Qed.

(** Differences of bytes are exact in doubles. *)
Lemma sub_u8_exact (u z : Z) :
  is_u8 u -> is_u8 z -> (F64.of_Z u - F64.of_Z z)%float = F64.of_Z (u - z).
Proof.
  unfold is_u8. intros Hu Hz. pose proof sub_u8_checked as H.
  apply all_from_spec with (x := u) in H; [|lia].
  apply all_from_spec with (x := z) in H; [|lia].
  now apply FloatAxioms.Leibniz.eqb_spec.
Qed.

Lemma normalize_cell_ratio (z_min z_max u : Z) :
  is_u8 z_min -> is_u8 z_max -> is_u8 u ->
  normalize_cell (F64.of_Z z_min) (F64.of_Z z_max) u
  = inverted_ratio (u - z_min) (z_max - z_min).
Proof.
  intros Hmin Hmax Hu. unfold normalize_cell, inverted_ratio.
  now rewrite !sub_u8_exact by assumption.
Qed.

Lemma ratio_steps_checked :
  all_from 255 1 (fun d => all_from 510 (-255) (fun a =>
    PrimFloat.leb (inverted_ratio (a + 1) d) (inverted_ratio a d)
    && PrimFloat.leb (inverted_ratio a d) (inverted_ratio a d)
    && PrimFloat.leb (inverted_ratio (a + 1) d) (inverted_ratio (a + 1) d))) = true.
Proof. vm_compute. reflexivity. Qed.

Lemma ratio_ends_checked :
  all_from 255 1 (fun d =>
    PrimFloat.Leibniz.eqb (inverted_ratio 0 d) 1%float
    && PrimFloat.Leibniz.eqb (inverted_ratio d d) 0%float) = true.
Proof. vm_compute. reflexivity. Qed.

Lemma ratio_flat_checked :
  all_from 511 (-255) (fun a =>
    PrimFloat.Leibniz.eqb (inverted_ratio a 0)
      (if a =? 0 then nan else if 0 <? a then neg_infinity else infinity)) = true.
Proof. vm_compute. reflexivity. Qed.

Lemma SFleb_trans (x y z : spec_float) :
  SFleb x y = true -> SFleb y z = true -> SFleb x z = true.
Proof.
  unfold SFleb.
  destruct x as [sx|sx| |sx mx ex], y as [sy|sy| |sy my ey], z as [sz|sz| |sz mz ez];
    try destruct sx; try destruct sy; try destruct sz;
    cbn; try (intros; discriminate); try (intros; reflexivity);
    repeat match goal with
    | |- context [PosDef.Pos.compare_cont Eq ?a ?b] =>
        change (PosDef.Pos.compare_cont Eq a b) with (Pos.compare a b)
    end;
    repeat match goal with
    | |- context [Z.compare ?a ?b] => destruct (Z.compare_spec a b)
    | |- context [Pos.compare ?a ?b] => destruct (Pos.compare_spec a b)
    end; cbv [CompOpp]; intros;
    first [reflexivity | discriminate | exfalso; lia].
Qed.

Lemma leb_trans (x y z : float) :
  PrimFloat.leb x y = true -> PrimFloat.leb y z = true -> PrimFloat.leb x z = true.
Proof. rewrite !FloatAxioms.leb_spec. apply SFleb_trans. Qed.

Lemma ratio_antitone (d a a' : Z) :
  1 <= d <= 255 -> -255 <= a -> a <= a' -> a' <= 255 ->
  PrimFloat.leb (inverted_ratio a' d) (inverted_ratio a d) = true.
Proof.
  intros Hd Ha Hle Ha'.
  assert (Hstep : forall b, -255 <= b < 255 ->
             PrimFloat.leb (inverted_ratio (b + 1) d) (inverted_ratio b d) = true
             /\ PrimFloat.leb (inverted_ratio b d) (inverted_ratio b d) = true
             /\ PrimFloat.leb (inverted_ratio (b + 1) d) (inverted_ratio (b + 1) d) = true).
  { intros b Hb. pose proof ratio_steps_checked as H.
    apply all_from_spec with (x := d) in H; [|lia].
    apply all_from_spec with (x := b) in H; [|lia].
    apply andb_prop in H as [H H3]. apply andb_prop in H as [H1 H2]. auto. }
  assert (Hrefl : forall b, -255 <= b <= 255 ->
             PrimFloat.leb (inverted_ratio b d) (inverted_ratio b d) = true).
  { intros b Hb. destruct (Z.eq_dec b 255) as [->|Hne].
    - destruct (Hstep 254 ltac:(lia)) as (_ & _ & H). exact H.
    - destruct (Hstep b ltac:(lia)) as (_ & H & _). exact H. }
  replace a' with (a + Z.of_nat (Z.to_nat (a' - a))) in * by lia.
  induction (Z.to_nat (a' - a)) as [|n IH].
  - rewrite Z.add_0_r. apply Hrefl. lia.
  - rewrite Nat2Z.inj_succ in *.
    apply leb_trans with (inverted_ratio (a + Z.of_nat n) d); [|apply IH; lia].
    replace (a + Z.succ (Z.of_nat n)) with (a + Z.of_nat n + 1) by lia.
    apply Hstep. lia.
Qed.

(** X18. Normalisation reverses the order of the raw values: of two cells of a
    frame with [z_min < z_max], the one with the lower raw value (the
    stronger contact) never gets the lower normalised value. This holds
    for cells outside the range of the frame as well. *)
Theorem normalize_reverses_order (z_min z_max u u' : Z) :
  is_u8 z_min -> is_u8 z_max -> is_u8 u -> is_u8 u' ->
  z_min < z_max -> u <= u' ->
  PrimFloat.leb (normalize_cell (F64.of_Z z_min) (F64.of_Z z_max) u')
                (normalize_cell (F64.of_Z z_min) (F64.of_Z z_max) u) = true.
Proof.
  intros Hmin Hmax Hu Hu' Hlt Hle.
  rewrite !normalize_cell_ratio by assumption.
  unfold is_u8 in *. apply ratio_antitone; lia.
Qed.

(** X19. The ends of the range are hit exactly: a raw cell equal to [z_min]
    normalises to 1.0 and one equal to [z_max] to 0.0. *)
Theorem normalize_range_ends (z_min z_max : Z) :
  is_u8 z_min -> is_u8 z_max -> z_min < z_max ->
  normalize_cell (F64.of_Z z_min) (F64.of_Z z_max) z_min = 1%float
  /\ normalize_cell (F64.of_Z z_min) (F64.of_Z z_max) z_max = 0%float.
Proof.
  intros Hmin Hmax Hlt.
  rewrite !normalize_cell_ratio by assumption.
  unfold is_u8 in *. pose proof ratio_ends_checked as H.
  apply all_from_spec with (x := z_max - z_min) in H; [|lia].
  apply andb_prop in H as [H1 H2].
  apply FloatAxioms.Leibniz.eqb_spec in H1, H2.
  replace (z_min - z_min) with 0 by lia. auto.
Qed.

(** X20. A frame whose range is a single value divides by zero: a cell equal
    to that value becomes NaN, a larger one minus infinity, a smaller one
    plus infinity. No cell lands in [0, 1]. *)
Theorem normalize_flat_range_cells (z u : Z) :
  is_u8 z -> is_u8 u ->
  normalize_cell (F64.of_Z z) (F64.of_Z z) u
  = (if u =? z then nan else if z <? u then neg_infinity else infinity)
  /\ F64.in_unit (normalize_cell (F64.of_Z z) (F64.of_Z z) u) = false.
Proof.
  intros Hz Hu. rewrite normalize_cell_ratio by assumption.
  unfold is_u8 in *. pose proof ratio_flat_checked as H.
  apply all_from_spec with (x := u - z) in H; [|lia].
  apply FloatAxioms.Leibniz.eqb_spec in H.
  replace (z - z) with 0 by lia. rewrite H.
  replace (u - z =? 0) with (u =? z)
    by (destruct (Z.eqb_spec u z), (Z.eqb_spec (u - z) 0); lia || reflexivity).
  replace (0 <? u - z) with (z <? u)
    by (destruct (Z.ltb_spec z u), (Z.ltb_spec 0 (u - z)); lia || reflexivity).
  split; [reflexivity|].
  destruct (u =? z); [reflexivity|]. destruct (z <? u); reflexivity.
Qed.

Lemma normalize_reverses_order_witness :
  PrimFloat.leb (normalize_cell (F64.of_Z 10) (F64.of_Z 20) 30)
                (normalize_cell (F64.of_Z 10) (F64.of_Z 20) 12) = true.
Proof.
  apply (normalize_reverses_order 10 20 12 30); unfold is_u8; lia.
Defined.

Lemma normalize_range_ends_witness :
  normalize_cell (F64.of_Z 0) (F64.of_Z 255) 0 = 1%float
  /\ normalize_cell (F64.of_Z 0) (F64.of_Z 255) 255 = 0%float.
Proof.
  apply (normalize_range_ends 0 255); unfold is_u8; lia.
Defined.

Lemma normalize_flat_range_cells_witness :
  normalize_cell (F64.of_Z 10) (F64.of_Z 10) 30 = neg_infinity
  /\ F64.in_unit (normalize_cell (F64.of_Z 10) (F64.of_Z 10) 30) = false.
Proof.
  apply (normalize_flat_range_cells 10 30); unfold is_u8; lia.
Defined.

(* ===================================================================== *)
(** * Scaling of stylus samples to the screen *)
(* ===================================================================== *)

Lemma valid_finite (s : bool) (m : positive) (e : Z) :
  valid_binary (S754_finite s m e) = true ->
  fexp prec emax (Zpos (digits2_pos m) + e) = e /\ e <= emax - prec.
Proof.
  cbn [SpecFloat.valid_binary]. unfold bounded, canonical_mantissa.
  intros H. apply andb_prop in H as [H1 H2].
  apply Z.eqb_eq in H1. apply Z.leb_le in H2. auto.
Qed.

(** Multiplying by 1.0 returns the other factor. *)
Lemma mul_one_l (w : float) : (1 * w)%float = w.
Proof.
  apply Prim2SF_inj. rewrite FloatAxioms.mul_spec.
  pose proof (Prim2SF_valid w) as Hv.
  change (Prim2SF 1) with (S754_finite false 4503599627370496 (-52)).
  destruct (Prim2SF w) as [s|s| |s m e]; try reflexivity.
  apply valid_finite in Hv as [Hcan Hle].
  unfold SF64mul, SFmul. cbn [xorb].
  unfold binary_round_aux.
  assert (Hm : Zpos (4503599627370496 * m) = 2 ^ 52 * Zpos m) by (rewrite Pos2Z.inj_mul; reflexivity).
  pose proof (digits2_bounds m) as [Hlo Hhi].
  set (d := Zpos (digits2_pos m)) in *.
  assert (Hd : Zpos (digits2_pos (4503599627370496 * m)) = 52 + d).
  { apply digits2_unique. rewrite Hm.
    replace (52 + d - 1) with (52 + (d - 1)) by lia.
    rewrite !Z.pow_add_r by (subst d; lia).
    assert (0 < 2 ^ 52) by reflexivity. split; nia. }
  unfold shr_fexp at 1. cbn [Zdigits2]. rewrite Hd.
  replace (52 + d + (-52 + e)) with (d + e) by lia. rewrite Hcan.
  replace (e - (-52 + e)) with 52 by lia.
  cbn [shr shr_record_of_loc]. 
  replace (-52 + e + 52) with e by lia.
  assert (Hshift : SpecFloat.iter_pos shr_1 52 {| shr_m := Zpos (4503599627370496 * m); shr_r := false; shr_s := false |}
                   = {| shr_m := Zpos m; shr_r := false; shr_s := false |}) by reflexivity.
  rewrite Hshift. cbn [shr_m loc_of_shr_record round_nearest_even].
  unfold shr_fexp. cbn [Zdigits2]. fold d. rewrite Hcan, Z.sub_diag.
  cbn [shr shr_record_of_loc shr_m].
  apply Z.leb_le in Hle. now rewrite Hle.
Qed.

(** A non-zero integer divided by itself is 1.0. *)
Lemma div_self (n : Z) :
  n <> 0 -> Z.abs n < 2 ^ 53 -> (F64.of_Z n / F64.of_Z n)%float = 1%float.
Proof.
  intros Hn Hlt. apply Prim2SF_inj.
  pose proof (Prim2SF_valid (F64.of_Z n / F64.of_Z n)%float) as Hv.
  rewrite FloatAxioms.div_spec in *.
  destruct (Prim2SF_of_Z_nonzero n Hn Hlt) as (m & d & Hm & Hd & Hb & Hval).
  rewrite Hm in *. unfold SF64div in *.
  assert (Hdr : 1 <= d <= 53) by (apply (digits_range n); [lia|lia|assumption]).
  destruct (SFdiv_normal (n <? 0) (n <? 0) m m (d - 53) (d - 53) Hd Hd
              ltac:(lia) ltac:(lia)) as (m' & k & Hdiv & Hk & Hbound).
  rewrite Hdiv in *. rewrite xorb_nilpotent.
  apply valid_finite in Hv as [Hcan _].
  pose proof (digits2_bounds m') as [Hlo Hhi].
  assert (Hd' : Zpos (digits2_pos m') = 53).
  { unfold fexp, SpecFloat.emin, prec, emax in Hcan. lia. }
  rewrite Hd' in Hlo, Hhi. change (53 - 1) with 52 in Hlo.
  assert (Hb' : Z.abs (2 * (Zpos m' * 2 ^ k - 2 ^ 53)) <= 2 ^ k).
  { replace (2 * (Zpos m' * 2 ^ k * Zpos m - Zpos m * 2 ^ 53))
      with (Zpos m * (2 * (Zpos m' * 2 ^ k - 2 ^ 53))) in Hbound by ring.
    rewrite Z.abs_mul, (Z.abs_eq (Zpos m)) in Hbound by lia.
    rewrite (Z.mul_comm (2 ^ k)) in Hbound.
    apply Z.mul_le_mono_pos_l in Hbound; lia. }
  change (2 ^ 53) with 9007199254740992 in *. change (2 ^ 52) with 4503599627370496 in *.
  assert (Hk1 : k = 1 /\ Zpos m' = 4503599627370496).
  { assert (Hcase : k = 0 \/ k = 1 \/ k = 2) by lia.
    destruct Hcase as [Hk0|[Hk0|Hk0]]; subst k; cbn in Hb'; lia. }
  destruct Hk1 as [-> Hm'].
  replace m' with 4503599627370496%positive by lia.
  replace (d - 53 - (d - 53) - 53 + 1) with (-52) by lia. reflexivity.
Qed.

Lemma Prim2SF_finite_cases (w : float) :
  PrimFloat.is_finite w = true ->
  (exists s, Prim2SF w = S754_zero s) \/ (exists s m e, Prim2SF w = S754_finite s m e).
Proof.
  unfold PrimFloat.is_finite. intros H.
  apply negb_true_iff, orb_false_elim in H as [Hnan Hinf].
  pose proof (Prim2SF_valid w) as Hv.
  destruct (Prim2SF w) as [s|s| |s m e] eqn:E; eauto; exfalso.
  - unfold Prim2SF in E. rewrite Hnan, Hinf in E.
    destruct (is_zero w); [discriminate|].
    destruct (Z.frexp w) as [r ex]. destruct (shr_fexp _ _ _ _ _) as [sh e'].
    destruct (shr_m sh); discriminate.
  - unfold Prim2SF in E. rewrite Hnan, Hinf in E.
    destruct (is_zero w); [discriminate|].
    destruct (Z.frexp w) as [r ex]. destruct (shr_fexp _ _ _ _ _) as [sh e'].
    destruct (shr_m sh); discriminate.
Qed.

Section Scaling.

Context {ContactsConfig : Type}.
Variable IPTS_MAX_X IPTS_MAX_Y : Z.

(** X21. A stylus at the far corner of the device range is placed exactly on
    the far corner of the screen, and one at the origin of the device
    range on the origin of the screen. *)
Theorem stylus_corners_map_to_screen_corners
    (cfg : Config ContactsConfig) (data : StylusData) :
  IPTS_MAX_X <> 0 -> IPTS_MAX_Y <> 0 ->
  Z.abs IPTS_MAX_X < 2 ^ 53 -> Z.abs IPTS_MAX_Y < 2 ^ 53 ->
  (st_x data = IPTS_MAX_X -> fst (stylus_phys IPTS_MAX_X IPTS_MAX_Y cfg data) = width cfg)
  /\ (st_y data = IPTS_MAX_Y -> snd (stylus_phys IPTS_MAX_X IPTS_MAX_Y cfg data) = height cfg)
  /\ (st_x data = 0 -> PrimFloat.is_finite (width cfg) = true ->
      PrimFloat.eqb (fst (stylus_phys IPTS_MAX_X IPTS_MAX_Y cfg data)) 0 = true)
  /\ (st_y data = 0 -> PrimFloat.is_finite (height cfg) = true ->
      PrimFloat.eqb (snd (stylus_phys IPTS_MAX_X IPTS_MAX_Y cfg data)) 0 = true).
Proof.
  intros HX HY HXb HYb.
  assert (Hzero : forall n w, n <> 0 -> Z.abs n < 2 ^ 53 -> PrimFloat.is_finite w = true ->
             PrimFloat.eqb (F64.of_Z 0 / F64.of_Z n * w) 0 = true).
  { intros n w Hn Hb Hfin.
    destruct (Prim2SF_of_Z_nonzero n Hn Hb) as (m & d & Hm & _).
    rewrite FloatAxioms.eqb_spec, FloatAxioms.mul_spec, FloatAxioms.div_spec, Hm.
    destruct (Prim2SF_finite_cases w Hfin) as [[s ->]|(s & mw & ew & ->)]; reflexivity. }
  unfold stylus_phys. cbn [fst snd]. repeat split.
  - intros ->. now rewrite div_self, mul_one_l.
  - intros ->. now rewrite div_self, mul_one_l.
  - intros ->. now apply Hzero.
  - intros ->. now apply Hzero.
Qed.

End Scaling.

Lemma stylus_corners_map_to_screen_corners_witness :
  fst (stylus_phys 9600 7200 Fixture.config
         {| st_x := 9600; st_y := 7200; st_pressure := 0; st_tilt_x := 0;
            st_tilt_y := 0; st_buttons := 0; st_serial := 0 |})
  = width Fixture.config.
Proof.
  destruct (stylus_corners_map_to_screen_corners 9600 7200 Fixture.config
              {| st_x := 9600; st_y := 7200; st_pressure := 0; st_tilt_x := 0;
                 st_tilt_y := 0; st_buttons := 0; st_serial := 0 |}) as [H _].
  - discriminate.
  - discriminate.
  - reflexivity.
  - reflexivity.
  - apply H. reflexivity.
Defined.

(* ===================================================================== *)
(** * The statistics of the calibration tool *)
(* ===================================================================== *)

Import CalibrateInput.

(** ** Shifting a mantissa to the right *)

Lemma iter_pos_nat {A : Type} (f : A -> A) (p : positive) :
  forall x, SpecFloat.iter_pos f p x = Nat.iter (Pos.to_nat p) f x.
Proof.
  induction p as [p IH|p IH|]; intros x; cbn [SpecFloat.iter_pos].
  - rewrite !IH, Pos2Nat.inj_xI.
    replace (S (2 * Pos.to_nat p)) with (Pos.to_nat p + (Pos.to_nat p + 1))%nat by lia.
    rewrite !Nat.iter_add. reflexivity.
  - rewrite !IH, Pos2Nat.inj_xO.
    replace (2 * Pos.to_nat p)%nat with (Pos.to_nat p + Pos.to_nat p)%nat by lia.
    now rewrite Nat.iter_add.
  - reflexivity.
Qed.

Lemma shr_1_m (mrs : shr_record) :
  0 <= shr_m mrs -> shr_m (shr_1 mrs) = shr_m mrs / 2.
Proof.
  destruct mrs as [m r s]. cbn [shr_m]. intros Hm.
  destruct m as [|[p|p|]|p]; cbn [shr_1 shr_m].
  - reflexivity.
  - rewrite Pos2Z.inj_xI. apply Z.div_unique with 1; lia.
  - rewrite Pos2Z.inj_xO. apply Z.div_unique with 0; lia.
  - reflexivity.
  - lia.
Qed.

Lemma shr_iter_m (k : nat) (mrs : shr_record) :
  0 <= shr_m mrs ->
  shr_m (Nat.iter k shr_1 mrs) = shr_m mrs / 2 ^ Z.of_nat k.
Proof.
  intros Hm. induction k as [|k IH].
  - cbn. now rewrite Z.div_1_r.
  - rewrite Nat.iter_succ, shr_1_m.
    + rewrite IH, Nat2Z.inj_succ, Z.pow_succ_r by lia.
      rewrite Z.div_div by lia. f_equal. lia.
    + rewrite IH. apply Z.div_pos; lia.
Qed.

(** Shifting out zeros only leaves an exact location. *)
Lemma shr_iter_exact (k : nat) (m : Z) :
  0 <= m ->
  Nat.iter k shr_1 {| shr_m := m * 2 ^ Z.of_nat k; shr_r := false; shr_s := false |}
  = {| shr_m := m; shr_r := false; shr_s := false |}.
Proof.
  intros Hm. revert m Hm. induction k as [|k IH]; intros m Hm.
  - cbn. now rewrite Z.mul_1_r.
  - rewrite Nat2Z.inj_succ, Z.pow_succ_r by lia.
    rewrite Nat.iter_succ_r.
    replace (m * (2 * 2 ^ Z.of_nat k)) with (2 * (m * 2 ^ Z.of_nat k)) by ring.
    assert (H2 : forall q, 0 <= q ->
               shr_1 {| shr_m := 2 * q; shr_r := false; shr_s := false |}
               = {| shr_m := q; shr_r := false; shr_s := false |}).
    { intros [|p|p] Hq; try lia; reflexivity. }
    rewrite H2 by (apply Z.mul_nonneg_nonneg; lia). now apply IH.
Qed.

(** The product of a positive double [x] of moderate size and a positive
    double [q] below one, rounded, does not exceed [x]. *)
Lemma SFmul_below (mx mq : positive) (ex eq : Z) :
  Zpos (digits2_pos mx) = 53 -> Zpos (digits2_pos mq) = 53 ->
  -200 <= ex <= 0 -> -200 <= eq <= -53 ->
  exists (m : positive) (e : Z),
    SFmul prec emax (S754_finite false mx ex) (S754_finite false mq eq)
    = S754_finite false m e
    /\ 2 ^ 52 <= Zpos m < 2 ^ 53
    /\ ex + eq <= e
    /\ Zpos m * 2 ^ (e - (ex + eq)) <= Zpos mx * 2 ^ (- eq).
Proof.
  intros Hdx Hdq Hex Heq.
  pose proof (digits2_bounds mx) as Hbx. rewrite Hdx in Hbx. change (53 - 1) with 52 in Hbx.
  pose proof (digits2_bounds mq) as Hbq. rewrite Hdq in Hbq. change (53 - 1) with 52 in Hbq.
  cbn [SFmul xorb]. unfold binary_round_aux.
  set (E := ex + eq).
  assert (HM : Zpos (mx * mq) = Zpos mx * Zpos mq) by apply Pos2Z.inj_mul.
  assert (HMb : 2 ^ 104 <= Zpos (mx * mq) < 2 ^ 106).
  { rewrite HM. change (2 ^ 104) with (2 ^ 52 * 2 ^ 52). change (2 ^ 106) with (2 ^ 53 * 2 ^ 53).
    split.
    - apply Z.mul_le_mono_nonneg; lia.
    - apply Z.mul_lt_mono_nonneg; lia. }
  (* the number of bits shifted out *)
  assert (Hs : exists s, (s = 52 \/ s = 53)
                 /\ 2 ^ (52 + s) <= Zpos (mx * mq) < 2 ^ (53 + s)).
  { destruct (Z.lt_ge_cases (Zpos (mx * mq)) (2 ^ 105)).
    - exists 52. split; [auto|]. change (52 + 52) with 104. change (53 + 52) with 105. lia.
    - exists 53. split; [auto|]. change (52 + 53) with 105. change (53 + 53) with 106. lia. }
  destruct Hs as (s & Hs & HMs).
  assert (Hd : Zpos (digits2_pos (mx * mq)) = 53 + s).
  { apply digits2_unique. replace (53 + s - 1) with (52 + s) by lia. exact HMs. }
  unfold shr_fexp at 1. cbn [Zdigits2]. rewrite Hd.
  assert (Hf : fexp prec emax (53 + s + E) - E = s).
  { unfold fexp, SpecFloat.emin, prec, emax. subst E. lia. }
  rewrite Hf.
  destruct s as [|p|p]; try lia.
  cbn [shr shr_record_of_loc]. rewrite iter_pos_nat.
  set (mrs := Nat.iter (Pos.to_nat p) shr_1
                {| shr_m := Zpos (mx * mq); shr_r := false; shr_s := false |}).
  assert (Hm' : shr_m mrs = Zpos (mx * mq) / 2 ^ Zpos p).
  { subst mrs. rewrite shr_iter_m by (cbn; lia). cbn [shr_m]. now rewrite positive_nat_Z. }
  set (P := 2 ^ Zpos p) in *.
  assert (HP : 0 < P) by (subst P; apply Z.pow_pos_nonneg; lia).
  assert (HP52 : 2 ^ (52 + Zpos p) = 2 ^ 52 * P) by (subst P; apply Z.pow_add_r; lia).
  assert (HP53 : 2 ^ (53 + Zpos p) = 2 ^ 53 * P) by (subst P; apply Z.pow_add_r; lia).
  rewrite HP52, HP53 in HMs.
  set (m' := Zpos (mx * mq) / P) in *.
  assert (Hdiv : m' * P <= Zpos (mx * mq) < m' * P + P).
  { subst m'. pose proof (Z.div_mod (Zpos (mx * mq)) P ltac:(lia)) as Hdm.
    pose proof (Z.mod_pos_bound (Zpos (mx * mq)) P HP). lia. }
  assert (Hm'b : 2 ^ 52 <= m' < 2 ^ 53).
  { split.
    - destruct (Z.le_gt_cases (2 ^ 52) m') as [|Hlt]; [assumption|exfalso].
      assert ((m' + 1) * P <= 2 ^ 52 * P) by (apply Z.mul_le_mono_nonneg_r; lia). lia.
    - destruct (Z.lt_ge_cases m' (2 ^ 53)) as [|Hge]; [assumption|exfalso].
      assert (2 ^ 53 * P <= m' * P) by (apply Z.mul_le_mono_nonneg_r; lia). lia. }
  set (m1 := round_nearest_even (shr_m mrs) (loc_of_shr_record mrs)).
  assert (Hm1 : m' <= m1 <= m' + 1).
  { subst m1. rewrite Hm'.
    destruct (round_nearest_even_step m' (loc_of_shr_record mrs)) as [-> | ->]; lia. }
  destruct (renormalise m1 (E + Zpos p) ltac:(lia) ltac:(subst E; lia))
    as (m & k & Hsh & Hk & Hv & Hmb).
  rewrite Hsh. cbn [shr_m].
  assert (Hle : (E + Zpos p + k <=? emax - prec) = true)
    by (apply Z.leb_le; unfold emax, prec; subst E; lia).
  rewrite Hle. exists m, (E + Zpos p + k).
  split; [reflexivity|]. split; [exact Hmb|]. split; [lia|].
  replace (E + Zpos p + k - E) with (k + Zpos p) by lia.
  rewrite Z.pow_add_r by lia. fold P.
  rewrite Z.mul_assoc, Hv.
  (* (m' + 1) * P <= mx * 2 ^ 53 <= mx * 2 ^ (- eq) *)
  assert (H53 : 2 ^ 53 <= 2 ^ (- eq)) by (apply Z.pow_le_mono_r; lia).
  assert (Hmx : (m' + 1) * P <= Zpos mx * 2 ^ 53).
  { assert (HMlt : Zpos (mx * mq) < Zpos mx * 2 ^ 53).
    { rewrite HM. apply Z.mul_lt_mono_pos_l; lia. }
    destruct Hs as [Hs|Hs]; injection Hs as ->; subst P.
    - change (2 ^ 53) with (2 * 2 ^ 52) in *. 
      change (2 ^ Zpos 52) with (2 ^ 52) in *.
      generalize dependent (2 ^ 52). intros S. intros.
      assert (m' < 2 * Zpos mx).
      { destruct (Z.lt_ge_cases m' (2 * Zpos mx)) as [|Hge]; [assumption|exfalso].
        assert (2 * Zpos mx * S <= m' * S) by (apply Z.mul_le_mono_nonneg_r; lia). lia. }
      assert ((m' + 1) * S <= 2 * Zpos mx * S) by (apply Z.mul_le_mono_nonneg_r; lia).
      lia.
    - change (2 ^ Zpos 53) with (2 ^ 53) in *.
      generalize dependent (2 ^ 53). intros S. intros.
      assert (m' < Zpos mx).
      { destruct (Z.lt_ge_cases m' (Zpos mx)) as [|Hge]; [assumption|exfalso].
        assert (Zpos mx * S <= m' * S) by (apply Z.mul_le_mono_nonneg_r; lia). lia. }
      assert ((m' + 1) * S <= Zpos mx * S) by (apply Z.mul_le_mono_nonneg_r; lia).
      lia. }
  apply Z.le_trans with ((m' + 1) * P).
  - apply Z.mul_le_mono_nonneg_r; lia.
  - apply Z.le_trans with (Zpos mx * 2 ^ 53); [exact Hmx|].
    apply Z.mul_le_mono_nonneg_l; lia.
Qed.

(** A 53-bit mantissa followed by zeros is rounded to itself. *)
Lemma binary_round_aux_shifted (s : bool) (P m : positive) (k e : Z) :
  Zpos (digits2_pos m) = 53 -> 0 <= k -> Zpos P = Zpos m * 2 ^ k ->
  -1074 <= e + k <= 971 ->
  binary_round_aux prec emax s (Zpos P) e loc_Exact = S754_finite s m (e + k).
Proof.
  intros Hd Hk HP He.
  pose proof (digits2_bounds m) as Hb. rewrite Hd in Hb. change (53 - 1) with 52 in Hb.
  assert (H2k : 0 < 2 ^ k) by (apply Z.pow_pos_nonneg; lia).
  assert (HdP : Zpos (digits2_pos P) = 53 + k).
  { apply digits2_unique. rewrite HP.
    replace (53 + k - 1) with (52 + k) by lia. rewrite !Z.pow_add_r by lia.
    split; [apply Z.mul_le_mono_nonneg_r; lia|apply Z.mul_lt_mono_pos_r; lia]. }
  unfold binary_round_aux. unfold shr_fexp at 1. cbn [Zdigits2]. rewrite HdP.
  assert (Hf : fexp prec emax (53 + k + e) - e = k)
    by (unfold fexp, SpecFloat.emin, prec, emax; lia).
  rewrite Hf. cbn [shr_record_of_loc].
  assert (Hshr : shr {| shr_m := Zpos P; shr_r := false; shr_s := false |} e k
                 = ({| shr_m := Zpos m; shr_r := false; shr_s := false |}, e + k)).
  { destruct k as [|p|p]; try lia.
    - cbn [shr]. rewrite Z.add_0_r. change (2 ^ 0) with 1 in HP. rewrite Z.mul_1_r in HP.
      now rewrite HP.
    - cbn [shr]. rewrite iter_pos_nat, HP. rewrite <- (positive_nat_Z p) at 1.
      rewrite shr_iter_exact by lia. reflexivity. }
  rewrite Hshr. cbn [shr_m loc_of_shr_record round_nearest_even].
  unfold shr_fexp. cbn [Zdigits2]. rewrite Hd.
  assert (Hf' : fexp prec emax (53 + (e + k)) - (e + k) = 0)
    by (unfold fexp, SpecFloat.emin, prec, emax; lia).
  rewrite Hf'. cbn [shr shr_record_of_loc shr_m].
  assert (Hle : (e + k <=? emax - prec) = true) by (apply Z.leb_le; unfold emax, prec; lia).
  now rewrite Hle.
Qed.

(** Subtracting one from a positive integer below [2 ^ 53] is exact. *)
Lemma sub_one_exact (n : Z) :
  1 <= n < 2 ^ 53 -> (F64.of_Z n - 1)%float = F64.of_Z (n - 1).
Proof.
  intros Hn. destruct (Z.eq_dec n 1) as [->|Hne]; [reflexivity|].
  apply Prim2SF_inj. rewrite sub_spec.
  destruct n as [|pn|pn]; try lia.
  destruct (Prim2SF_of_pos pn ltac:(lia)) as (mx & Hmx & Hdx & Hvx).
  assert (Hn1 : exists p1, Zpos pn - 1 = Zpos p1).
  { destruct (Zpos pn - 1) as [|p1|p1] eqn:E; try lia. eauto. }
  destruct Hn1 as (p1 & Hp1). rewrite Hp1.
  destruct (Prim2SF_of_pos p1 ltac:(lia)) as (m1 & Hm1 & Hd1 & Hv1).
  rewrite Hmx, Hm1.
  change (Prim2SF 1) with (S754_finite false 4503599627370496 (-52)).
  pose proof (digits2_bounds pn) as Hbn. pose proof (digits2_bounds p1) as Hb1.
  set (dn := Zpos (digits2_pos pn)) in *. set (d1 := Zpos (digits2_pos p1)) in *.
  assert (Hdn : 2 <= dn <= 53).
  { split.
    - destruct (Z.le_gt_cases 2 dn); [assumption|exfalso].
      assert (2 ^ dn <= 2 ^ 1) by (apply Z.pow_le_mono_r; lia). change (2 ^ 1) with 2 in *. lia.
    - destruct (Z.le_gt_cases dn 53); [assumption|exfalso].
      assert (2 ^ 53 <= 2 ^ (dn - 1)) by (apply Z.pow_le_mono_r; lia). lia. }
  assert (Hd1r : 1 <= d1 <= 53).
  { split; [subst d1; lia|].
    destruct (Z.le_gt_cases d1 53); [assumption|exfalso].
    assert (2 ^ 53 <= 2 ^ (d1 - 1)) by (apply Z.pow_le_mono_r; lia). lia. }
  unfold SF64sub. cbn [SFsub].
  replace (Z.min (dn - 53) (-52)) with (-52) by lia.
  assert (Hax : fst (shl_align mx (dn - 53) (-52)) = Pos.iter xO mx (Z.to_pos (dn - 1))).
  { unfold shl_align. destruct (-52 - (dn - 53)) as [|k|k] eqn:Ek; try lia.
    cbn [fst]. f_equal. lia. }
  assert (Hay : fst (shl_align 4503599627370496 (-52) (-52)) = 4503599627370496%positive)
    by reflexivity.
  rewrite Hax, Hay. cbn [cond_Zopp].
  rewrite iter_xO_value, Hvx. rewrite Z2Pos.id by lia.
  assert (Hprod : Zpos pn * 2 ^ (53 - dn) * 2 ^ (dn - 1) = Zpos pn * 2 ^ 52).
  { rewrite <- Z.mul_assoc, <- Z.pow_add_r by lia. do 2 f_equal. lia. }
  rewrite Hprod.
  assert (Hdiff : Zpos pn * 2 ^ 52 - 4503599627370496 = Zpos p1 * 2 ^ 52).
  { rewrite <- Hp1. change 4503599627370496 with (2 ^ 52). ring. }
  rewrite Hdiff.
  assert (HP : exists P, Zpos p1 * 2 ^ 52 = Zpos P).
  { destruct (Zpos p1 * 2 ^ 52) as [|P|P] eqn:E; try lia. eauto. }
  destruct HP as (P & HP). rewrite HP. cbn [binary_normalize]. unfold binary_round.
  assert (HPm : Zpos P = Zpos m1 * 2 ^ (d1 - 1)).
  { rewrite <- HP, Hv1, <- Z.mul_assoc, <- Z.pow_add_r by lia. do 2 f_equal. lia. }
  assert (HdP : Zpos (digits2_pos P) = 52 + d1).
  { apply digits2_unique. rewrite <- HP.
    replace (52 + d1 - 1) with (d1 - 1 + 52) by lia. replace (52 + d1) with (d1 + 52) by lia.
    rewrite !Z.pow_add_r by lia.
    assert (0 < 2 ^ 52) by reflexivity.
    split; [apply Z.mul_le_mono_nonneg_r; lia|apply Z.mul_lt_mono_pos_r; lia]. }
  rewrite HdP.
  assert (Hal : shl_align P (-52) (fexp prec emax (52 + d1 + -52)) = (P, -52)).
  { unfold shl_align.
    destruct (fexp prec emax (52 + d1 + -52) - -52) as [|k|k] eqn:Ek; try reflexivity.
    exfalso. unfold fexp, SpecFloat.emin, prec, emax in Ek. lia. }
  rewrite Hal.
  rewrite (binary_round_aux_shifted false P m1 (d1 - 1) (-52) Hd1 ltac:(lia) HPm ltac:(lia)).
  f_equal. lia.
Qed.

Lemma f64_of_size_small (z : Z) :
  0 <= z < 2 ^ 63 -> f64_of_size z = F64.of_Z z.
Proof.
  intros Hz. destruct z as [|p|p]; [reflexivity| |lia].
  unfold f64_of_size, F64.of_Z.
  rewrite <- (SF2Prim_Prim2SF (of_uint63 (Uint63.of_Z (Zpos p)))).
  rewrite of_uint63_spec, Uint63.of_Z_spec.
  rewrite Z.mod_small by (change Uint63.wB with (2 ^ 63); lia).
  reflexivity.
Qed.

(** A double that is zero or positive equals itself and is not below
    zero. *)
Lemma nonneg_double_compare (x : float) :
  (Prim2SF x = S754_zero false \/ exists m e, Prim2SF x = S754_finite false m e) ->
  PrimFloat.eqb x x = true /\ PrimFloat.ltb x PrimFloat.zero = false.
Proof.
  intros H. rewrite FloatAxioms.eqb_spec, FloatAxioms.ltb_spec.
  destruct H as [->|(m & e & ->)]; [split; reflexivity|].
  split; [|reflexivity].
  unfold SFeqb. cbn [SFcompare]. rewrite Z.compare_refl.
  change (PosDef.Pos.compare_cont Eq m m) with (Pos.compare m m).
  now rewrite Pos.compare_refl.
Qed.

Lemma Prim2SF_of_nonneg (k : Z) :
  0 <= k < 2 ^ 53 ->
  Prim2SF (F64.of_Z k) = S754_zero false
  \/ exists m e, Prim2SF (F64.of_Z k) = S754_finite false m e.
Proof.
  intros Hk. destruct k as [|p|p]; [left; reflexivity| |lia].
  right. destruct (Prim2SF_of_pos p ltac:(lia)) as (m & Hm & _). eauto.
Qed.

Lemma narrow_f64_small (n : nat) :
  Z.of_nat n < 2 ^ 53 -> narrow_f64 n = Value (F64.of_Z (Z.of_nat n)).
Proof.
  intros Hn. unfold narrow_f64.
  rewrite f64_of_size_small by (split; [lia|]; apply Z.lt_trans with (2 ^ 53); [lia|reflexivity]).
  rewrite (trunc_signed false) by lia.
  assert (H64 : (Z.of_nat n <? 2 ^ 64) = true).
  { apply Z.ltb_lt. apply Z.lt_trans with (2 ^ 53); [lia|reflexivity]. }
  now rewrite H64, Z.eqb_refl.
Qed.

Lemma narrow_size_of_nonneg (k : Z) :
  0 <= k < 2 ^ 53 -> narrow_size (F64.of_Z k) = Value (Z.to_nat k).
Proof.
  intros Hk. unfold narrow_size.
  rewrite (trunc_signed false) by lia.
  assert (Hr : (0 <=? k) && (k <? 2 ^ 64) = true).
  { apply andb_true_intro. split; [apply Z.leb_le; lia|].
    apply Z.ltb_lt. apply Z.lt_trans with (2 ^ 53); [lia|reflexivity]. }
  rewrite Hr.
  rewrite f64_of_size_small by (split; [lia|]; apply Z.lt_trans with (2 ^ 53); [lia|reflexivity]).
  destruct (nonneg_double_compare (F64.of_Z k) (Prim2SF_of_nonneg k Hk)) as [-> ->].
  reflexivity.
Qed.

(** The index of a percentile [q] below one among [n >= 1] samples is
    defined and lies inside the vector. *)
Lemma percentile_index_in_bounds (n : nat) (q : float) (mq : positive) (eq : Z) :
  (1 <= n)%nat -> Z.of_nat n < 2 ^ 53 ->
  Prim2SF q = S754_finite false mq eq ->
  Zpos (digits2_pos mq) = 53 -> -200 <= eq <= -53 ->
  exists i, percentile_index n q = Value i /\ (i < n)%nat.
Proof.
  intros Hn1 Hn Hq Hdq Heq. unfold percentile_index.
  rewrite narrow_f64_small by exact Hn.
  rewrite sub_one_exact by lia.
  set (N := Z.of_nat n - 1).
  assert (HN : 0 <= N < 2 ^ 53) by (subst N; lia).
  destruct (nonneg_double_compare (F64.of_Z N) (Prim2SF_of_nonneg N HN)) as [_ Hlt].
  unfold fmax. rewrite Hlt.
  destruct (Z.eq_dec N 0) as [HN0|HN0].
  - (* one sample *)
    rewrite HN0. cbn [F64.of_Z].
    assert (Hv : (PrimFloat.zero * q)%float = PrimFloat.zero).
    { apply Prim2SF_inj. rewrite FloatAxioms.mul_spec, Hq. reflexivity. }
    rewrite Hv. exists 0%nat. split; [reflexivity|lia].
  - destruct (Prim2SF_of_Z_nonzero N HN0 ltac:(lia)) as (mx & d & Hmx & Hdx & Hb & Hvx).
    assert (Hs : (N <? 0) = false) by (apply Z.ltb_ge; lia). rewrite Hs in Hmx.
    rewrite Z.abs_eq in Hb, Hvx by lia.
    assert (Hd : 1 <= d <= 53) by (apply (digits_range N); [rewrite Z.abs_eq by lia; lia|lia|rewrite Z.abs_eq by lia; exact Hb]).
    destruct (SFmul_below mx mq (d - 53) eq Hdx Hdq ltac:(lia) Heq)
      as (m & e & Hmul & Hmb & Hege & Hbound).
    set (v := (F64.of_Z N * q)%float).
    assert (Hv : Prim2SF v = S754_finite false m e).
    { subst v. rewrite FloatAxioms.mul_spec, Hmx, Hq. exact Hmul. }
    (* the bound in terms of [N] *)
    set (E := d - 53 + eq) in *.
    assert (HNE : Zpos mx * 2 ^ (- eq) = N * 2 ^ (- E)).
    { rewrite Hvx, <- Z.mul_assoc, <- Z.pow_add_r by lia. do 2 f_equal. subst E. lia. }
    rewrite HNE in Hbound.
    assert (Hele : e <= 0).
    { destruct (Z.le_gt_cases e 0) as [|Hgt]; [assumption|exfalso].
      assert (H1 : 2 ^ (- E + 1) <= 2 ^ (e - E)) by (apply Z.pow_le_mono_r; lia).
      rewrite Z.pow_add_r in H1 by (subst E; lia). change (2 ^ 1) with 2 in H1.
      assert (HPE : 0 < 2 ^ (- E)) by (apply Z.pow_pos_nonneg; subst E; lia).
      assert (H2 : 2 ^ 52 * (2 ^ (- E) * 2) <= Zpos m * 2 ^ (e - E))
        by (apply Z.mul_le_mono_nonneg; lia).
      assert (H3 : N * 2 ^ (- E) < 2 ^ 53 * 2 ^ (- E)) by (apply Z.mul_lt_mono_pos_r; lia).
      change (2 ^ 53) with (2 ^ 52 * 2) in H3. lia. }
    unfold F64.round. rewrite Hv.
    destruct (Z.leb_spec 0 e) as [He0|Hneg].
    + (* the product is an integer of 53 bits *)
      assert (e = 0) by lia. subst e.
      replace (0 - E) with (- E) in Hbound by lia.
      assert (HPE : 0 < 2 ^ (- E)) by (apply Z.pow_pos_nonneg; subst E; lia).
      assert (HmN : Zpos m <= N) by (apply Z.mul_le_mono_pos_r in Hbound; assumption).
      assert (Hvm : v = F64.of_Z (Zpos m)).
      { apply Prim2SF_inj. rewrite Hv.
        destruct (Prim2SF_of_pos m ltac:(lia)) as (m2 & Hm2 & Hd2 & Hv2).
        assert (Hdm : Zpos (digits2_pos m) = 53)
          by (apply digits2_unique; change (53 - 1) with 52; lia).
        rewrite Hdm in Hm2, Hv2. change (53 - 53) with 0 in Hm2, Hv2.
        change (2 ^ 0) with 1 in Hv2. rewrite Z.mul_1_r in Hv2.
        injection Hv2 as ->. now rewrite Hm2. }
      rewrite Hvm. rewrite narrow_size_of_nonneg by lia.
      exists (Z.to_nat (Zpos m)). split; [reflexivity|subst N; lia].
    + set (h := 2 ^ (- e - 1)).
      assert (Hh : 0 < h) by (subst h; apply Z.pow_pos_nonneg; lia).
      assert (H2h : 2 ^ (- e) = 2 * h).
      { subst h. replace (- e) with (Z.succ (- e - 1)) at 1 by lia. apply Z.pow_succ_r. lia. }
      rewrite H2h.
      set (k := (Zpos m + h) / (2 * h)).
      assert (HmN : Zpos m <= N * (2 * h)).
      { replace (- E) with (- e + (e - E)) in Hbound by lia.
        rewrite Z.pow_add_r, H2h, Z.mul_assoc in Hbound by lia.
        assert (0 < 2 ^ (e - E)) by (apply Z.pow_pos_nonneg; lia).
        apply Z.mul_le_mono_pos_r in Hbound; assumption. }
      assert (Hk : 0 <= k <= N).
      { subst k. split; [apply Z.div_pos; lia|].
        assert ((Zpos m + h) / (2 * h) < N + 1); [|lia].
        apply Z.div_lt_upper_bound; lia. }
      rewrite narrow_size_of_nonneg by lia.
      exists (Z.to_nat k). split; [reflexivity|subst N; lia].
Qed.

Lemma percentile_indices (n : nat) :
  (1 <= n)%nat -> Z.of_nat n < 2 ^ 53 ->
  exists i j, percentile_index n q01 = Value i /\ percentile_index n q99 = Value j
              /\ (i < n)%nat /\ (j < n)%nat.
Proof.
  intros H1 H2.
  destruct (percentile_index_in_bounds n q01 5764607523034235 (-59) H1 H2)
    as (i & Hi & Hib); [reflexivity|reflexivity|lia|].
  destruct (percentile_index_in_bounds n q99 8917127262193582 (-53) H1 H2)
    as (j & Hj & Hjb); [reflexivity|reflexivity|lia|].
  exists i, j. auto.
Qed.

Section HandleInputFacts.

Context {Finder Contact : Type}.
Context `{!Ops Finder Contact}.

Local Abbreviation T := (Tool Finder Contact).

Lemma handle_input_lengths (width height : float) (data : Heatmap) (t : T) :
  sort_keeps_length ->
  List.length (size (fst (handle_input width height data t)))
  = (List.length (size t) + List.length (stable_found data t))%nat
  /\ List.length (aspect (fst (handle_input width height data t)))
     = (List.length (aspect t) + List.length (stable_found data t))%nat.
Proof.
  intros Hsort. unfold handle_input, stable_found.
  destruct (find (finder t) (normalize data) (contacts t)) as [finder' found].
  cbn [snd].
  set (fresh := List.filter stable found).
  assert (H1 : List.length (size t ++ List.map (size_sample width height) fresh)
               = (List.length (size t) + List.length fresh)%nat)
    by (rewrite length_app, length_map; reflexivity).
  assert (H2 : List.length (aspect t ++ List.map aspect_sample fresh)
               = (List.length (aspect t) + List.length fresh)%nat)
    by (rewrite length_app, length_map; reflexivity).
  destruct (List.length (size t ++ List.map (size_sample width height) fresh) =? 0)%nat;
    [cbn [fst size aspect]; auto|].
  assert (Hgoal : forall (o : Outcome) (h : Image F32.f32),
             List.length (size (fst ({| size := sort (size t ++ List.map (size_sample width height) fresh);
                                        aspect := sort (aspect t ++ List.map aspect_sample fresh);
                                        heatmap := h; contacts := found; finder := finder' |}, o)))
             = (List.length (size t) + List.length fresh)%nat
             /\ List.length (aspect (fst ({| size := sort (size t ++ List.map (size_sample width height) fresh);
                                             aspect := sort (aspect t ++ List.map aspect_sample fresh);
                                             heatmap := h; contacts := found; finder := finder' |}, o)))
                = (List.length (aspect t) + List.length fresh)%nat).
  { intros o h. cbn [fst size aspect]. rewrite !Hsort. auto. }
  destruct (percentile_index _ q01); try apply Hgoal.
  destruct (percentile_index _ q99); try apply Hgoal.
  destruct (_ !! _); try apply Hgoal.
  destruct (_ !! _); try apply Hgoal.
  destruct (_ !! _); try apply Hgoal.
  destruct (_ !! _); apply Hgoal.
Qed.

(** X22. Every call adds one sample to each of the two vectors per stable
    contact that the finder reports, and removes none; the call is
    silent exactly when there is no sample at all. *)
Theorem handle_input_accumulates (width height : float) (data : Heatmap) (t : T) :
  sort_keeps_length ->
  let r := handle_input width height data t in
  List.length (size (fst r))
  = (List.length (size t) + List.length (stable_found data t))%nat
  /\ List.length (aspect (fst r))
     = (List.length (aspect t) + List.length (stable_found data t))%nat
  /\ (snd r = Silent
      <-> (List.length (size t) + List.length (stable_found data t) = 0)%nat).
Proof.
  intros Hsort. cbn zeta.
  destruct (handle_input_lengths width height data t Hsort) as [H1 H2].
  split; [exact H1|]. split; [exact H2|].
  clear H1 H2. unfold handle_input, stable_found.
  destruct (find (finder t) (normalize data) (contacts t)) as [finder' found].
  cbn [snd]. set (fresh := List.filter stable found).
  assert (H1 : List.length (size t ++ List.map (size_sample width height) fresh)
               = (List.length (size t) + List.length fresh)%nat)
    by (rewrite length_app, length_map; reflexivity).
  rewrite <- H1.
  destruct (Nat.eqb_spec (List.length (size t ++ List.map (size_sample width height) fresh)) 0)
    as [Hz|Hnz].
  - cbn [snd]. split; auto.
  - split; [|intros Hz; contradiction]. intros Hs. exfalso. revert Hs.
    destruct (percentile_index _ q01); try discriminate.
    destruct (percentile_index _ q99); try discriminate.
    destruct (_ !! _); try discriminate.
    destruct (_ !! _); try discriminate.
    destruct (_ !! _); try discriminate.
    destruct (_ !! _); discriminate.
Qed.

Lemma handle_input_defined (width height : float) (data : Heatmap) (t : T) :
  sort_keeps_length ->
  List.length (size t) = List.length (aspect t) ->
  Z.of_nat (List.length (size t) + List.length (stable_found data t)) < 2 ^ 53 ->
  snd (handle_input width height data t) <> Threw
  /\ snd (handle_input width height data t) <> Undefined.
Proof.
  intros Hsort Heq. unfold handle_input, stable_found.
  destruct (find (finder t) (normalize data) (contacts t)) as [finder' found].
  cbn [snd]. set (fresh := List.filter stable found). intros Hbig.
  set (size1 := size t ++ List.map (size_sample width height) fresh).
  set (aspect1 := aspect t ++ List.map aspect_sample fresh).
  assert (H1 : List.length size1 = (List.length (size t) + List.length fresh)%nat)
    by (subst size1; rewrite length_app, length_map; reflexivity).
  assert (H2 : List.length aspect1 = List.length size1)
    by (subst aspect1; rewrite H1, length_app, length_map, Heq; reflexivity).
  destruct (Nat.eqb_spec (List.length size1) 0) as [Hz|Hnz]; [split; discriminate|].
  rewrite !Hsort.
  destruct (percentile_indices (List.length size1) ltac:(lia) ltac:(lia))
    as (i & j & -> & -> & Hi & Hj).
  assert (Hl : forall (l : list float) (k : nat),
             (k < List.length l)%nat -> exists x, sort l !! k = Some x).
  { intros l k Hk. apply lookup_lt_is_Some. now rewrite Hsort. }
  destruct (Hl size1 i Hi) as (a & ->). destruct (Hl size1 j Hj) as (b & ->).
  destruct (Hl aspect1 i ltac:(lia)) as (c & ->).
  destruct (Hl aspect1 j ltac:(lia)) as (d & ->).
  split; discriminate.
Qed.

(** X23. With two vectors of equal length and fewer than [2 ^ 53] samples in
    all, the function neither throws nor reads outside a vector: it is
    silent when there is no sample, and otherwise prints the number of
    samples and, as minima and maxima, elements of the two vectors. *)
Theorem handle_input_reads_in_bounds (width height : float) (data : Heatmap) (t : T) :
  sort_keeps_length ->
  List.length (size t) = List.length (aspect t) ->
  Z.of_nat (List.length (size t) + List.length (stable_found data t)) < 2 ^ 53 ->
  let r := handle_input width height data t in
  match snd r with
  | Silent => (List.length (size t) + List.length (stable_found data t) = 0)%nat
  | Printed p =>
      samples p = (List.length (size t) + List.length (stable_found data t))%nat
      /\ (0 < samples p)%nat
      /\ In (size_min p) (size (fst r)) /\ In (size_max p) (size (fst r))
      /\ In (aspect_min p) (aspect (fst r)) /\ In (aspect_max p) (aspect (fst r))
  | Threw | Undefined => False
  end.
Proof.
  intros Hsort Heq Hbig. cbn zeta. revert Hbig.
  unfold handle_input, stable_found.
  destruct (find (finder t) (normalize data) (contacts t)) as [finder' found].
  cbn [snd]. set (fresh := List.filter stable found). intros Hbig.
  set (size1 := size t ++ List.map (size_sample width height) fresh).
  set (aspect1 := aspect t ++ List.map aspect_sample fresh).
  assert (H1 : List.length size1 = (List.length (size t) + List.length fresh)%nat)
    by (subst size1; rewrite length_app, length_map; reflexivity).
  assert (H2 : List.length aspect1 = List.length size1)
    by (subst aspect1; rewrite H1, length_app, length_map, Heq; reflexivity).
  destruct (Nat.eqb_spec (List.length size1) 0) as [Hz|Hnz].
  - cbn [snd]. lia.
  - rewrite Hsort.
    destruct (percentile_indices (List.length size1) ltac:(lia) ltac:(lia))
      as (i & j & -> & -> & Hi & Hj).
    assert (Hl : forall (l : list float) (k : nat),
               (k < List.length l)%nat -> exists x, sort l !! k = Some x).
    { intros l k Hk. apply lookup_lt_is_Some. now rewrite Hsort. }
    destruct (Hl size1 i Hi) as (a & Ha). destruct (Hl size1 j Hj) as (b & Hb).
    destruct (Hl aspect1 i ltac:(lia)) as (c & Hc).
    destruct (Hl aspect1 j ltac:(lia)) as (d & Hd).
    rewrite Ha, Hb, Hc, Hd. cbn [snd fst samples size_min size_max aspect_min aspect_max size aspect].
    repeat split; try lia.
    + apply list_elem_of_In. now apply list_elem_of_lookup_2 with i.
    + apply list_elem_of_In. now apply list_elem_of_lookup_2 with j.
    + apply list_elem_of_In. now apply list_elem_of_lookup_2 with i.
    + apply list_elem_of_In. now apply list_elem_of_lookup_2 with j.
Qed.

(** X24. Over any sequence of heatmaps, starting with two vectors of equal
    length: the vectors keep equal lengths and never shrink, and as long
    as fewer than [2 ^ 53] samples have been collected no call throws or
    reads outside a vector. *)
Theorem handle_inputs_safe (width height : float) (frames : list Heatmap) (t : T) :
  sort_keeps_length ->
  List.length (size t) = List.length (aspect t) ->
  let r := handle_inputs width height frames t in
  List.length (size (fst r)) = List.length (aspect (fst r))
  /\ (List.length (size t) <= List.length (size (fst r)))%nat
  /\ List.length (snd r) = List.length frames
  /\ (Z.of_nat (List.length (size (fst r))) < 2 ^ 53 ->
      Forall (fun o => o <> Threw /\ o <> Undefined) (snd r)).
Proof.
  intros Hsort. cbn zeta. revert t.
  induction frames as [|data rest IH]; intros t Heq; cbn [handle_inputs].
  - cbn. repeat split; auto.
  - destruct (handle_input_lengths width height data t Hsort) as [H1 H2].
    pose proof (handle_input_defined width height data t Hsort Heq) as Ho.
    destruct (handle_input width height data t) as [t1 o]. cbn [fst snd] in *.
    assert (Heq1 : List.length (size t1) = List.length (aspect t1)) by lia.
    specialize (IH t1 Heq1).
    destruct (handle_inputs width height rest t1) as [t2 os]. cbn [fst snd] in *.
    destruct IH as (I1 & I2 & I3 & I4).
    split; [exact I1|]. split; [lia|]. split; [cbn; lia|].
    intros Hbig. constructor; [|apply I4; exact Hbig].
    apply Ho. lia.
Qed.

End HandleInputFacts.

(** ** The heatmap of the calibration tool *)

Lemma F32_same_eq (x y : spec_float) : F32.same x y = true -> x = y.
Proof.
  destruct x as [a|a| |s m e], y as [b|b| |s' m' e']; cbn; try discriminate.
  - intros H. apply Bool.eqb_prop in H. now subst.
  - intros H. apply Bool.eqb_prop in H. now subst.
  - reflexivity.
  - intros H. apply andb_prop in H as [H He]. apply andb_prop in H as [Hs Hm].
    apply Bool.eqb_prop in Hs. apply Pos.eqb_eq in Hm. apply Z.eqb_eq in He. now subst.
Qed.

Lemma sub_u8_f32_checked :
  all_from 256 0 (fun u => all_from 256 0 (fun z =>
    F32.same (F32.sub (F32.of_Z u) (F32.of_Z z)) (F32.of_Z (u - z)))) = true.
Proof. vm_compute. reflexivity. Qed.

Lemma ratio_f32_checked :
  all_from 255 1 (fun d => all_from (Z.to_nat (d + 1)) 0 (fun a =>
    F32.in_unit (inverted_ratio_f32 a d))
    && F32.same (inverted_ratio_f32 0 d) F32.one
    && F32.same (inverted_ratio_f32 d d) F32.zero) = true.
Proof. vm_compute. reflexivity. Qed.

Lemma ratio_f32_flat_checked :
  all_from 511 (-255) (fun a => negb (F32.in_unit (inverted_ratio_f32 a 0))) = true.
Proof. vm_compute. reflexivity. Qed.

Lemma normalize_cell_f32_ratio (z_min z_max u : Z) :
  is_u8 z_min -> is_u8 u ->
  normalize_cell z_min (F32.of_Z (z_max - z_min)) u
  = inverted_ratio_f32 (u - z_min) (z_max - z_min).
Proof.
  unfold is_u8. intros Hmin Hu. unfold normalize_cell, inverted_ratio_f32.
  pose proof sub_u8_f32_checked as H.
  apply all_from_spec with (x := u) in H; [|lia].
  apply all_from_spec with (x := z_min) in H; [|lia].
  apply F32_same_eq in H. now rewrite H.
Qed.

(** X25. The heatmap handed to the finder of the calibration tool: with
    [z_min < z_max] every cell whose raw value lies in the range is
    normalised into [0, 1] in [f32], the ends of the range exactly to 1.0
    and 0.0; with [z_max = z_min] no cell lies in [0, 1]. *)
Theorem calibrate_normalize_range (z_min z_max u : Z) :
  is_u8 z_min -> is_u8 z_max -> is_u8 u ->
  (z_min < z_max -> z_min <= u <= z_max ->
     F32.in_unit (normalize_cell z_min (F32.of_Z (z_max - z_min)) u) = true
     /\ normalize_cell z_min (F32.of_Z (z_max - z_min)) z_min = F32.one
     /\ normalize_cell z_min (F32.of_Z (z_max - z_min)) z_max = F32.zero)
  /\ (z_max = z_min ->
      F32.in_unit (normalize_cell z_min (F32.of_Z (z_max - z_min)) u) = false).
Proof.
  intros Hmin Hmax Hu.
  rewrite !normalize_cell_f32_ratio by assumption.
  unfold is_u8 in *. split.
  - intros Hlt Hin. pose proof ratio_f32_checked as H.
    apply all_from_spec with (x := z_max - z_min) in H; [|lia].
    apply andb_prop in H as [H H0]. apply andb_prop in H as [H H1].
    apply all_from_spec with (x := u - z_min) in H; [|lia].
    apply F32_same_eq in H0, H1.
    replace (z_min - z_min) with 0 by lia. auto.
  - intros ->. replace (z_min - z_min) with 0 by lia.
    pose proof ratio_f32_flat_checked as H.
    apply all_from_spec with (x := u - z_min) in H; [|lia].
    now apply negb_true_iff in H.
Qed.

Lemma insertion_sort_length : @sort_keeps_length _ _ CalibrateFixture.ops.
Proof.
  intros l. change (sort l) with (CalibrateFixture.insertion_sort l).
  assert (Hins : forall x l', List.length (CalibrateFixture.insert x l') = S (List.length l')).
  { intros x l'. induction l' as [|y l' IH]; [reflexivity|].
    cbn [CalibrateFixture.insert]. destruct (PrimFloat.ltb y x); cbn [List.length]; congruence. }
  induction l as [|x l IH]; [reflexivity|].
  cbn [CalibrateFixture.insertion_sort fold_right].
  fold (CalibrateFixture.insertion_sort l). rewrite Hins, IH. reflexivity.
Qed.

Lemma handle_input_accumulates_witness :
  List.length (size (fst (handle_input 2599 1728 Fixture.frame CalibrateFixture.tool)))
  = 2%nat
  /\ List.length (aspect (fst (handle_input 2599 1728 Fixture.frame CalibrateFixture.tool)))
     = 2%nat.
Proof.
  destruct (handle_input_accumulates 2599 1728 Fixture.frame CalibrateFixture.tool
              insertion_sort_length) as (H1 & H2 & _).
  split; [exact H1|exact H2].
Defined.

Lemma handle_input_reads_in_bounds_witness :
  exists p, snd (handle_input 2599 1728 Fixture.frame CalibrateFixture.tool) = Printed p
            /\ samples p = 2%nat.
Proof.
  pose proof (handle_input_reads_in_bounds 2599 1728 Fixture.frame CalibrateFixture.tool
                insertion_sort_length eq_refl eq_refl) as H.
  cbn zeta in H.
  destruct (snd (handle_input 2599 1728 Fixture.frame CalibrateFixture.tool)) as [|p| |];
    try contradiction.
  - discriminate H.
  - exists p. split; [reflexivity|]. destruct H as [H _]. exact H.
Defined.

Lemma handle_inputs_safe_witness :
  List.length (size (fst (handle_inputs 2599 1728 [Fixture.frame; Fixture.frame]
                            CalibrateFixture.tool)))
  = List.length (aspect (fst (handle_inputs 2599 1728 [Fixture.frame; Fixture.frame]
                                CalibrateFixture.tool))).
Proof.
  apply (handle_inputs_safe 2599 1728 [Fixture.frame; Fixture.frame] CalibrateFixture.tool
           insertion_sort_length eq_refl).
Defined.

Lemma calibrate_normalize_range_witness :
  F32.in_unit (normalize_cell 0 (F32.of_Z (255 - 0)) 32) = true.
Proof.
  destruct (calibrate_normalize_range 0 255 32) as [H _]; try (unfold is_u8; lia).
  apply H; lia.
Defined.
